(** * OpenAI Responses websocket transport: a shallow embedding

    The development follows the TypeScript sources of the
    [agents-openai] package:

    - [responsesWebSocketConnection.ts]: error classes and their
      classifiers, and the frame-at-a-time connection object;
    - [responsesTransportUtils.ts]: layered header merging and query
      parameter merging;
    - [openaiResponsesModel.ts]: the item translator for function calls,
      the request builder, and the per-request state machine of
      [OpenAIResponsesWSModel].

    JavaScript objects used as maps are [gmap string _]; ordered
    multimaps ([URLSearchParams], [Object.entries]) are association
    lists; promises that the environment settles are scripted outcomes. *)

From stdpp Require Import gmap strings list.
From Stdlib Require Import Ascii String.

Open Scope string_scope.

Set Warnings "-register-all".

(** ** Thrown values *)

Module Errors.

(** [ResponsesWebSocketInternalErrorCode]. *)
Inductive ResponsesWebSocketInternalErrorCode :=
| connection_closed_before_opening
| connection_closed_before_terminal_response_event
| socket_not_open.

(** What [instanceof] can tell about a thrown value. *)
Inductive errorClass :=
| ClsInternal (code : ResponsesWebSocketInternalErrorCode)
    (* ResponsesWebSocketInternalError *)
| ClsAbort    (* OpenAI.APIUserAbortError *)
| ClsError    (* any other Error (UserError, DOMException, SyntaxError, ...) *)
| ClsNonError (* a thrown value that is not an Error *).

(** A thrown value: its class, [name], [message] and [cause]. *)
Inductive thrown :=
| Thrown (cls : errorClass) (name message : string) (cause : option thrown).

Definition cls (e : thrown) : errorClass := let 'Thrown c _ _ _ := e in c.
Definition name (e : thrown) : string := let 'Thrown _ n _ _ := e in n.
Definition message (e : thrown) : string := let 'Thrown _ _ m _ := e in m.
Definition cause (e : thrown) : option thrown := let 'Thrown _ _ _ c := e in c.

Definition newError (msg : string) : thrown := Thrown ClsError "Error" msg None.

Definition newInternalError (code : ResponsesWebSocketInternalErrorCode)
    (msg : string) : thrown :=
  Thrown (ClsInternal code) "ResponsesWebSocketInternalError" msg None.

Definition newAPIUserAbortError : thrown :=
  Thrown ClsAbort "Error" "Request was aborted." None.

Definition isAbort (e : thrown) : bool :=
  match cls e with ClsAbort => true | _ => false end.

Definition MSG_CLOSED_BEFORE_OPENING : string :=
  "Responses websocket connection closed before opening.".
Definition MSG_CLOSED_BEFORE_TERMINAL : string :=
  "Responses websocket connection closed before a terminal response event.".
Definition MSG_NOT_OPEN : string := "Responses websocket is not open.".

(** [shouldWrapNoEventWebSocketError]. *)
Definition shouldWrapNoEventWebSocketError (e : thrown) : bool :=
  match cls e with
  | ClsInternal code =>
      match code with
      | connection_closed_before_opening => true
      | connection_closed_before_terminal_response_event => true
      | socket_not_open => false
      end
  | ClsNonError => false
  | _ =>
      String.eqb (message e) MSG_CLOSED_BEFORE_OPENING
      || String.eqb (message e) MSG_CLOSED_BEFORE_TERMINAL
  end.

(** [isWebSocketNotOpenError]. *)
Definition isWebSocketNotOpenError (e : thrown) : bool :=
  match cls e with
  | ClsInternal code =>
      match code with socket_not_open => true | _ => false end
  | ClsNonError => false
  | _ =>
      if String.eqb (message e) MSG_NOT_OPEN then true
      else if String.eqb (name e) "InvalidStateError" then true
      else if String.prefix "WebSocket is not open: readyState " (message e)
      then true
      else false
  end.

(** [throwIfAborted]: [Some] is the error thrown. *)
Definition throwIfAborted (aborted : bool) : option thrown :=
  if aborted then Some newAPIUserAbortError else None.

End Errors.

(** ** The connection object ([ResponsesWebSocketConnection]) *)

Module Connection.
Import Errors.

(** [WebSocketMessageValue]; every variant carries the text that
    [webSocketFrameToText] decodes it to. *)
Inductive WebSocketMessageValue :=
| FrameString (text : string)
| FrameBlob (text : string)
| FrameArrayBuffer (text : string)
| FrameView (text : string).

Definition webSocketFrameToText (f : WebSocketMessageValue) : string :=
  match f with
  | FrameString t | FrameBlob t | FrameArrayBuffer t | FrameView t => t
  end.

(** The private fields [#messages], [#waiters], [#closed], [#error].
    A parked waiter is named by the number of the read that parked it;
    [#closedPromise], which only [close()] awaits, is left out. *)
Record t := mk {
  messages : list WebSocketMessageValue;
  waiters : list nat;
  closed : bool;
  error : option thrown
}.

Definition fresh : t := mk [] [] false None.

(** How a parked waiter is settled. *)
Inductive settle :=
| Resolve (v : option WebSocketMessageValue)
| Reject (e : thrown).

(** What a read gives its caller. *)
Inductive read :=
| Returned (v : option WebSocketMessageValue)  (* [None] is JS [null] *)
| Threw (e : thrown)
| Parked.

(** [#nextFrameInternal]; [w] names the waiter pushed when the read parks. *)
Definition nextFrameInternal (w : nat) (c : t) : read * t :=
  match messages c with
  | m :: rest => (Returned (Some m), mk rest (waiters c) (closed c) (error c))
  | [] =>
      match error c with
      | Some e => (Threw e, c)
      | None =>
          if closed c then (Returned None, c)
          else (Parked, mk [] (waiters c ++ [w]) (closed c) (error c))
      end
  end.

(** [nextFrame(signal)]: the abort check comes first. *)
Definition nextFrame (aborted : bool) (w : nat) (c : t) : read * t :=
  match throwIfAborted aborted with
  | Some e => (Threw e, c)
  | None => nextFrameInternal w c
  end.

(** [#onMessage]. *)
Definition onMessage (data : WebSocketMessageValue) (c : t)
    : t * list (nat * settle) :=
  match waiters c with
  | w :: ws => (mk (messages c) ws (closed c) (error c),
                [(w, Resolve (Some data))])
  | [] => (mk (messages c ++ [data]) [] (closed c) (error c), [])
  end.

(** [#onError]; [e] is the error built from the event. *)
Definition onError (e : thrown) (c : t) : t * list (nat * settle) :=
  (mk (messages c) [] (closed c) (Some e),
   map (fun w => (w, Reject e)) (waiters c)).

(** [#onClose]. *)
Definition onClose (c : t) : t * list (nat * settle) :=
  (mk (messages c) [] true (error c),
   map (fun w => (w, match error c with
                     | Some e => Reject e
                     | None => Resolve None
                     end)) (waiters c)).

Inductive socketEvent :=
| EvMessage (data : WebSocketMessageValue)
| EvError (e : thrown)
| EvClose.





(** What a read finds once the buffer is empty. *)
Definition afterBuffer (c : t) : read :=
  match error c with
  | Some e => Threw e
  | None => if closed c then Returned None else Parked
  end.

End Connection.

(** ** Header and query merging ([responsesTransportUtils.ts]) *)

Module TransportUtils.
Import Errors.

(** [String.prototype.toLowerCase] on the ASCII letters header names are
    made of. *)
Definition lowerAscii (c : ascii) : ascii :=
  let n := nat_of_ascii c in
  if (65 <=? n)%nat && (n <=? 90)%nat then ascii_of_nat (n + 32) else c.

Fixpoint toLowerCase (s : string) : string :=
  match s with
  | EmptyString => EmptyString
  | String c r => String (lowerAscii c) (toLowerCase r)
  end.

(** *** Header inputs, as [parseHeaderInput] tells them apart *)

Inductive headerValue :=
| HUndefined
| HNull
| HValue (s : string) (* [String(value)] of any other value *).

Inductive arrayEntry :=
| NotAPair  (* not an array, or fewer than two elements *)
| Pair (key : option string) (value : headerValue)
    (* [key] is [None] when [undefined], else [String(key)] *).

Inductive headersInput :=
| HFalsy  (* [undefined], [null] and the other falsy values *)
| HHeaders (entries : list (string * string))  (* a [Headers] instance *)
| HNullable (values : list (string * string)) (nulls : list (option string))
    (* [{ values: Headers, nulls: Set }]; a non-string member is [None] *)
| HArray (entries : list arrayEntry)
| HRecord (entries : list (string * headerValue))  (* [Object.entries] *)
| HOther  (* a truthy value that is not an object *).

Record ParsedHeaderInput := mkParsed {
  entries : list (string * string);
  unsetLowercaseNames : list string
}.

(** [parseHeaderInput]. *)
Definition parseHeaderInput (headers : headersInput) : ParsedHeaderInput :=
  match headers with
  | HFalsy => mkParsed [] []
  | HHeaders es => mkParsed es []
  | HNullable vs nulls => mkParsed vs (omap (fmap toLowerCase) nulls)
  | HArray es =>
      mkParsed
        (omap (fun e =>
                 match e with
                 | Pair (Some k) (HValue v) => Some (k, v)
                 | _ => None
                 end) es)
        []
  | HRecord es =>
      mkParsed
        (omap (fun '(k, v) =>
                 match v with HValue s => Some (k, s) | _ => None end) es)
        (omap (fun '(k, v) =>
                 match v with HNull => Some (toLowerCase k) | _ => None end) es)
  | HOther => mkParsed [] []
  end.

(** [HeaderAccumulator]: the stored pair is [{ key, value }]. *)
Record HeaderAccumulator := mkAcc {
  blockedLowercaseNames : gset string;
  valuesByLowercaseName : gmap string (string * string)
}.

Definition createHeaderAccumulator : HeaderAccumulator := mkAcc ∅ ∅.

(** The first loop of [applyHeadersToAccumulator]. *)
Definition unsetStep (acc : HeaderAccumulator) (lowercaseName : string)
    : HeaderAccumulator :=
  mkAcc ({[lowercaseName]} ∪ blockedLowercaseNames acc)
        (delete lowercaseName (valuesByLowercaseName acc)).

(** The body of its second loop. *)
Definition entryStep (allowBlockedOverride : bool) (acc : HeaderAccumulator)
    (entry : string * string) : HeaderAccumulator :=
  let '(key, value) := entry in
  let lowercaseKey := toLowerCase key in
  if bool_decide (lowercaseKey ∈ blockedLowercaseNames acc)
     && negb allowBlockedOverride
  then acc
  else
    mkAcc (if allowBlockedOverride
           then blockedLowercaseNames acc ∖ {[lowercaseKey]}
           else blockedLowercaseNames acc)
          (<[lowercaseKey := (key, value)]> (valuesByLowercaseName acc)).

(** [applyHeadersToAccumulator]. *)
Definition applyHeadersToAccumulator (acc : HeaderAccumulator)
    (headers : headersInput) (allowBlockedOverride : bool) : HeaderAccumulator :=
  let parsed := parseHeaderInput headers in
  fold_left (entryStep allowBlockedOverride) (entries parsed)
    (fold_left unsetStep (unsetLowercaseNames parsed) acc).

(** [headerAccumulatorToRecord]: the record is keyed by the stored [key]. *)
Definition headerAccumulatorToRecord (acc : HeaderAccumulator)
    : gmap string string :=
  map_fold (fun _ kv headers => <[kv.1 := kv.2]> headers) ∅
    (valuesByLowercaseName acc).

(** A layer is a header input with its [allowBlockedOverride] option. *)
Definition applyLayers (layers : list (headersInput * bool))
    (acc : HeaderAccumulator) : HeaderAccumulator :=
  fold_left (fun a l => applyHeadersToAccumulator a l.1 l.2) layers acc.

(** What [#mergeWebSocketHeaders] reads from the client. [authHeaders] is
    [Some] of the resolved value when the client has that method. *)
Record clientHeaders := mkClient {
  authHeaders : option headersInput;
  apiKey : option string;
  organization : option string;
  project : option string;
  defaultHeaders : headersInput
}.

Definition truthy (s : option string) : bool :=
  match s with Some (String _ _) => true | _ => false end.

(** The layers [#mergeWebSocketHeaders] applies, in its order. [HEADERS]
    is the constant of [./defaults]. *)
Definition webSocketHeaderLayers (HEADERS : headersInput) (c : clientHeaders)
    (extraHeaders : headersInput) : list (headersInput * bool) :=
  [(default HFalsy (authHeaders c), false)]
  ++ match authHeaders c, apiKey c with
     | None, Some k =>
         if truthy (Some k) && negb (String.eqb k "Missing Key")
         then [(HRecord [("Authorization", HValue ("Bearer " ++ k))], false)]
         else []
     | _, _ => []
     end
  ++ (if truthy (organization c)
      then [(HRecord [("OpenAI-Organization",
                       HValue (default "" (organization c)))], false)]
      else [])
  ++ (if truthy (project c)
      then [(HRecord [("OpenAI-Project",
                       HValue (default "" (project c)))], false)]
      else [])
  ++ [(defaultHeaders c, false); (HEADERS, false); (extraHeaders, true)].

(** The header computation of [#mergeWebSocketHeaders]. *)
Definition mergeWebSocketHeaders (HEADERS : headersInput) (c : clientHeaders)
    (extraHeaders : headersInput) : gmap string string :=
  headerAccumulatorToRecord
    (applyLayers (webSocketHeaderLayers HEADERS c extraHeaders)
       createHeaderAccumulator).


(** Every stored pair sits under the lower-cased form of its key. *)
Definition keyed (acc : HeaderAccumulator) : Prop :=
  forall n k v, valuesByLowercaseName acc !! n = Some (k, v) -> toLowerCase k = n.


(** *** Query parameters *)

(** A query value, as [appendQueryParamValue] tells them apart. *)
Inductive qvalue :=
| QUndefined
| QNull
| QArray (items : list qvalue)
| QObject (fields : list (string * qvalue))  (* a plain mapping *)
| QDate (iso : string)                       (* [toISOString()] *)
| QPrim (text : string)                      (* [String(rawValue)] *).

(** [URLSearchParams]: an ordered list of name/value pairs. *)
Abbreviation searchParams := (list (string * string)).

(** [appendQueryParamValue]. *)
Fixpoint appendQueryParamValue (url : searchParams) (key : string)
    (rawValue : qvalue) {struct rawValue} : searchParams :=
  match rawValue with
  | QUndefined | QNull => url
  | QArray items =>
      fold_left (fun u v => appendQueryParamValue u (key ++ "[]") v) items url
  | QObject fields =>
      fold_left
        (fun u f => appendQueryParamValue u (key ++ "[" ++ fst f ++ "]") (snd f))
        fields url
  | QDate iso => url ++ [(key, iso)]
  | QPrim text => url ++ [(key, text)]
  end.

(** [existingKey === key || existingKey.startsWith(`${key}[`)]. *)
Definition inFamily (key existingKey : string) : bool :=
  String.eqb existingKey key || String.prefix (key ++ "[") existingKey.

(** The deletions of one family from the search params. *)
Definition deleteFamily (key : string) (url : searchParams) : searchParams :=
  filter (fun e => inFamily key e.1 = false) url.

(** The entries of the search params in the family of [key]. *)
Definition familyOf (key : string) (url : searchParams) : searchParams :=
  filter (fun e => inFamily key e.1 = true) url.

(** Neither key is the other or a bracket sub-key of the other. *)
Definition unrelated (key key' : string) : Prop :=
  inFamily key key' = false /\ inFamily key' key = false.

(** The loop body of [mergeQueryParamsIntoURL]. *)
Definition mergeStep (url : searchParams) (entry : string * qvalue)
    : searchParams :=
  let '(key, rawValue) := entry in
  match rawValue with
  | QUndefined => url
  | QNull => deleteFamily key url
  | _ => appendQueryParamValue (deleteFamily key url) key rawValue
  end.

(** [mergeQueryParamsIntoURL]; the query is given as [Object.entries]. *)
Definition mergeQueryParamsIntoURL (url : searchParams)
    (query : option (list (string * qvalue))) : searchParams :=
  match query with
  | None => url
  | Some es => fold_left mergeStep es url
  end.

(** [bracketIndex >= 0 ? key.slice(0, bracketIndex) : key]. *)
Fixpoint topLevelKey (key : string) : string :=
  match key with
  | EmptyString => EmptyString
  | String c r =>
      if Ascii.eqb c "["%char then EmptyString else String c (topLevelKey r)
  end.

(** The [/\/+$/] replacement of [ensureResponsesWebSocketPath]. *)
Fixpoint stripTrailingSlashes (s : string) : string :=
  match s with
  | EmptyString => EmptyString
  | String c r =>
      match stripTrailingSlashes r with
      | EmptyString => if Ascii.eqb c "/"%char then EmptyString else String c ""
      | r' => String c r'
      end
  end.

Definition endsWith (s suffix : string) : bool :=
  String.prefix (String.rev suffix) (String.rev s).

(** [ensureResponsesWebSocketPath]. *)
Definition ensureResponsesWebSocketPath (pathname : string) : string :=
  let normalizedPath := stripTrailingSlashes pathname in
  if String.eqb normalizedPath "/responses"
     || endsWith normalizedPath "/responses"
  then normalizedPath
  else normalizedPath ++ "/responses".

(** A parsed [URL]. *)
Record URL := mkURL {
  protocol : string;
  host : string;
  pathname : string;
  query : searchParams
}.

(** The explicit-base-query block of [#prepareWebSocketURL]. *)
Definition reassertExplicitBaseQuery (explicitBaseQuery : searchParams)
    (url : searchParams) : searchParams :=
  match explicitBaseQuery with
  | [] => url
  | _ =>
      fold_left (fun u e => deleteFamily (topLevelKey e.1) u)
        explicitBaseQuery url
      ++ explicitBaseQuery
  end.

(** [#prepareWebSocketURL]. [websocketBaseURL] is the model's option,
    [clientBaseURL] is [this._client.baseURL]; the result is the URL
    before [toString()]. *)
Definition prepareWebSocketURL (websocketBaseURL : option URL)
    (clientBaseURL : URL) (defaultQuery extraQuery : option (list (string * qvalue)))
    : thrown + URL :=
  let baseURL := default clientBaseURL websocketBaseURL in
  let explicitBaseQuery := query <$> websocketBaseURL in
  let upgraded :=
    if String.eqb (protocol baseURL) "https:" then inr "wss:"
    else if String.eqb (protocol baseURL) "http:" then inr "ws:"
    else if negb (String.eqb (protocol baseURL) "ws:")
            && negb (String.eqb (protocol baseURL) "wss:")
    then inl (Thrown ClsError "UserError"
                ("Unsupported websocket base URL protocol: " ++ protocol baseURL)
                None)
    else inr (protocol baseURL) in
  match upgraded with
  | inl e => inl e
  | inr proto =>
      let q1 := mergeQueryParamsIntoURL (query baseURL) defaultQuery in
      let q2 := match explicitBaseQuery with
                | Some q => reassertExplicitBaseQuery q q1
                | None => q1
                end in
      inr (mkURL proto (host baseURL)
             (ensureResponsesWebSocketPath (pathname baseURL))
             (mergeQueryParamsIntoURL q2 extraQuery))
  end.

End TransportUtils.

(** ** Item translation and request building ([openaiResponsesModel.ts]) *)

Module Translator.
Import Errors.

(** A JSON-like JavaScript value. Nested objects keep their entries as a
    list; the objects the code spreads and destructures are
    [gmap string jvalue]. *)
Inductive jvalue :=
| JUndefined
| JNull
| JBool (b : bool)
| JNum (n : Z)
| JStr (s : string)
| JArr (items : list jvalue)
| JObj (fields : list (string * jvalue))  (* a plain object *)
| JExotic (tag : string) (fields : list (string * jvalue))
    (* an object that is not a plain mapping (a class instance, a Date,
       ...), with its own enumerable properties *).

Abbreviation bag := (gmap string jvalue).

(** Property read: a missing property reads as [undefined]. *)
Definition prop (o : bag) (k : string) : jvalue := default JUndefined (o !! k).

(** [{ ...o }] for an optional object. *)
Definition spread (o : option bag) : bag := default ∅ o.

Definition optStr (o : option string) : jvalue :=
  match o with Some s => JStr s | None => JUndefined end.

(** [protocol.FunctionCallItem]. *)
Record FunctionCallItem := mkFunctionCall {
  fc_id : option string;
  fc_callId : string;
  fc_name : string;
  fc_arguments : string;
  fc_status : option string;
  fc_providerData : option bag
}.

(** The decoded function call: fields read off the wire are untyped. *)
Record FunctionCallOutput := mkFunctionCallOut {
  out_id : jvalue;
  out_callId : jvalue;
  out_name : jvalue;
  out_status : jvalue;
  out_arguments : jvalue;
  out_providerData : bag
}.

Inductive OutputModelItem :=
| OutFunctionCall (o : FunctionCallOutput)
| OutUnknown (id : jvalue) (providerData : bag)
| OutOtherVariant (item : bag)
    (* the result of a branch for another wire type; those branches are
       not part of this development *).

(** The wire types [convertToOutputItem] has a branch for, other than
    [function_call]. *)
Definition otherHandledTypes : list string :=
  ["message"; "file_search_call"; "web_search_call"; "image_generation_call";
   "code_interpreter_call"; "function_call_output"; "computer_call";
   "shell_call"; "shell_call_output"; "apply_patch_call";
   "apply_patch_call_output"; "mcp_list_tools"; "mcp_approval_request";
   "mcp_call"; "reasoning"; "compaction"].

(** The keys the [function_call] literal writes before the spread. *)
Definition functionCallWireKeys : list string :=
  ["id"; "type"; "name"; "call_id"; "arguments"; "status"].

(** The properties of the [function_call] literal of [getInputItems] that
    come before the spread. *)
Definition functionCallLiteral (item : FunctionCallItem) : bag :=
  <["id" := optStr (fc_id item)]>
    (<["type" := JStr "function_call"]>
      (<["name" := JStr (fc_name item)]>
        (<["call_id" := JStr (fc_callId item)]>
          (<["arguments" := JStr (fc_arguments item)]>
            (<["status" := optStr (fc_status item)]> ∅))))).

(** A bag that, on the keys the literal writes, holds nothing else than
    the literal does. *)
Definition agreesWithLiteral (item : FunctionCallItem) (pd : bag) : Prop :=
  forall k v, In k functionCallWireKeys -> pd !! k = Some v ->
              functionCallLiteral item !! k = Some v.

(** What [convertToOutputItem] leaves in [providerData]: the wire item
    without the four destructured properties. *)
Definition withoutDestructured (item : bag) : bag :=
  delete "call_id" (delete "name" (delete "status" (delete "arguments" item))).

Section WithProviderDataHelper.

(** [camelOrSnakeToSnakeCase] of [./utils/providerData], whose source is
    not part of the files at hand: it is a parameter. *)
Variable camelOrSnakeToSnakeCase : option bag -> option bag.

(** The [function_call] branch of the callback of [getInputItems]: the
    object literal, with the provider data spread last. *)
Definition getInputItems_functionCall (item : FunctionCallItem) : bag :=
  spread (camelOrSnakeToSnakeCase (fc_providerData item))
  ∪ functionCallLiteral item.

End WithProviderDataHelper.

(** The callback of [convertToOutputItem] on one wire item. *)
Definition convertToOutputItem_item (item : bag) : OutputModelItem :=
  match prop item "type" with
  | JStr ty =>
      if String.eqb ty "function_call" then
        (* const { call_id, name, status, arguments: args, ...providerData } *)
        OutFunctionCall
          (mkFunctionCallOut (prop item "id") (prop item "call_id")
             (prop item "name") (prop item "status") (prop item "arguments")
             (withoutDestructured item))
      else if existsb (String.eqb ty) otherHandledTypes then OutOtherVariant item
      else OutUnknown (prop item "id") item
  | _ => OutUnknown (prop item "id") item
  end.

Definition convertToOutputItem (items : list bag) : list OutputModelItem :=
  map convertToOutputItem_item items.

(** *** [splitResponsesTransportOverrides] and the request builder *)

Definition UserError (msg : string) : thrown :=
  Thrown ClsError "UserError" msg None.

(** [isPlainTransportOverrideMapping] followed by [{ ...value }]. *)
Definition normalizeTransportOverrideMapping (value : jvalue)
    (fieldName : string) : thrown + option bag :=
  match value with
  | JUndefined => inr None
  | JObj fields => inr (Some (list_to_map fields))
  | _ => inl (UserError ("Responses websocket " ++ fieldName
                         ++ " must be a mapping."))
  end.

Record ResponsesTransportOverrides := mkOverrides {
  extraHeaders : option bag;
  extraQuery : option bag;
  extraBody : option bag
}.

Definition preferSnake (o : bag) (snake camel : string) : jvalue :=
  match prop o snake with JUndefined => prop o camel | v => v end.

(** The own enumerable properties a destructuring pattern sees:
    [isRecordLike(value) && !Array.isArray(value)]. *)
Definition ownEntries (value : jvalue) : option (list (string * jvalue)) :=
  match value with
  | JObj fields => Some fields
  | JExotic _ fields => Some fields
  | _ => None
  end.

(** [splitResponsesTransportOverrides]. *)
Definition splitResponsesTransportOverrides (providerData : jvalue)
    : thrown + (bag * ResponsesTransportOverrides) :=
  match ownEntries providerData with
  | Some fields =>
      let o : bag := list_to_map fields in
      let remaining :=
        delete "extra_headers" (delete "extraHeaders"
          (delete "extra_query" (delete "extraQuery"
            (delete "extra_body" (delete "extraBody" o))))) in
      match normalizeTransportOverrideMapping
              (preferSnake o "extra_headers" "extraHeaders") "extra headers" with
      | inl e => inl e
      | inr h =>
          match normalizeTransportOverrideMapping
                  (preferSnake o "extra_query" "extraQuery") "extra query" with
          | inl e => inl e
          | inr q =>
              match normalizeTransportOverrideMapping
                      (preferSnake o "extra_body" "extraBody") "extra_body" with
              | inl e => inl e
              | inr b => inr (remaining, mkOverrides h q b)
              end
          end
      end
  | None => inr (∅, mkOverrides None None None)
  end.

(** What [_buildResponsesCreateRequest] takes from the request.
    [literalFields] are the properties of the [requestData] literal other
    than [stream] and the spread provider data, as the translator
    functions computed them; [mergedReasoning] is the merged [reasoning]
    object when [modelSettings.reasoning] is set. *)
Record RequestView := mkRequestView {
  literalFields : bag;
  mergedReasoning : option jvalue;
  parallelToolCalls : option bool;
  toolsLength : nat;
  providerData : jvalue
}.

Record BuiltResponsesCreateRequest := mkBuilt {
  requestData : bag;
  transportExtraHeaders : option bag;
  transportExtraQuery : option bag
}.

(** [_buildResponsesCreateRequest]. *)
Definition buildResponsesCreateRequest (request : RequestView) (stream : bool)
    : thrown + BuiltResponsesCreateRequest :=
  match splitResponsesTransportOverrides (providerData request) with
  | inl e => inl e
  | inr (providerDataWithoutTransport, transportOverrides) =>
      let restOfProviderData0 := delete "text" providerDataWithoutTransport in
      let restOfProviderData :=
        match mergedReasoning request with
        | Some r => <["reasoning" := r]> restOfProviderData0
        | None => restOfProviderData0
        end in
      if match parallelToolCalls request with
         | Some true => Nat.eqb (toolsLength request) 0
         | _ => false
         end
      then inl (newError "Parallel tool calls are not supported without tools")
      else
        let requestData0 :=
          restOfProviderData
          ∪ <["stream" := JBool stream]> (literalFields request) in
        let requestData1 :=
          match extraBody transportOverrides with
          | Some b => b ∪ requestData0
          | None => requestData0
          end in
        inr (mkBuilt (<["stream" := JBool stream]> requestData1)
               (extraHeaders transportOverrides)
               (extraQuery transportOverrides))
  end.

(** The frame of [#prepareWebSocketRequest]. *)
Definition webSocketFrame (builtRequest : BuiltResponsesCreateRequest) : bag :=
  <["stream" := JBool true]>
    (<["type" := JStr "response.create"]> (requestData builtRequest)).

End Translator.

(** ** The per-request state machine of [OpenAIResponsesWSModel] *)

Module WSModel.
Import Errors.

Definition TERMINAL_RESPONSES_STREAM_EVENT_TYPES : gset string :=
  {[ "response.completed"; "response.failed"; "response.incomplete";
     "response.error" ]}.

(** [isTerminalResponsesStreamEventType]. *)
Definition isTerminalResponsesStreamEventType (eventType : option string)
    : bool :=
  match eventType with
  | Some t => bool_decide (t ∈ TERMINAL_RESPONSES_STREAM_EVENT_TYPES)
  | None => false
  end.

Definition MSG_MAY_HAVE_BEEN_ACCEPTED : string :=
  "Responses websocket connection closed after sending a request on a reused connection before any response events were received. The request may have been accepted, so the SDK will not automatically retry this websocket request.".

Definition MSG_FEATURE_NOT_ENABLED : string :=
  "Responses websocket connection closed before any response events were received. The feature may not be enabled for this account or model yet.".

Definition queueWaitTimeoutMessage (configuredTimeoutMs : string) : string :=
  "Responses websocket request queue wait timed out after "
  ++ configuredTimeoutMs ++ "ms.".

(** *** State *)

(** The private fields of the model. Connections are numbered in the
    order they are opened; [wsRequestLock] lists the own locks chained so
    far, oldest first, [true] once resolved. *)
Record model := mkModel {
  reuseConnection : bool;
  wsConnection : option nat;
  wsConnectionIdentity : option string;
  wsRequestLock : list bool;
  opened : nat
}.

(** The locals of one call: the closure state of [releaseLock] and the
    two flags of [#iterWebSocketResponseEvents]. *)
Record locals := mkLocals {
  ticket : option nat;
  released : bool;
  receivedAnyEvent : bool;
  sawTerminalResponseEvent : bool
}.

(** What a call does to the outside, in order. *)
Inductive action :=
| AEnqueue                        (* [#wsRequestLock = previousLock.then(...)] *)
| AResolveOwnLock                 (* [resolveOwnLock()] *)
| AConnect (c : nat)              (* a connection opened and cached *)
| ASend (c : nat) (ok : bool)     (* one call of [connection.send] *)
| AReconnect                      (* one call of [#reconnectWebSocketConnection] *)
| AClose (c : nat)                (* [connection.close()] *)
| AYield (eventType : option string).

Record st := mkSt {
  this : model;
  vars : locals;
  trace : list action
}.

Definition setThis (f : model -> model) (s : st) : st :=
  mkSt (f (this s)) (vars s) (trace s).
Definition setVars (f : locals -> locals) (s : st) : st :=
  mkSt (this s) (f (vars s)) (trace s).
Definition emit (a : action) (s : st) : st :=
  mkSt (this s) (vars s) (trace s ++ [a]).

Definition withCache (c : option nat) (i : option string) (m : model) : model :=
  mkModel (reuseConnection m) c i (wsRequestLock m) (opened m).
Definition withReceived (v : locals) : locals :=
  mkLocals (ticket v) (released v) true (sawTerminalResponseEvent v).
Definition withSawTerminal (v : locals) : locals :=
  mkLocals (ticket v) (released v) (receivedAnyEvent v) true.

(** *** A state and exception monad *)

Inductive res (A : Type) :=
| Val (a : A)
| Exc (e : thrown)
| Early   (* the consumer called [return()] on the suspended generator *)
| Hang    (* an await that never settles, or a generator never resumed *).
Arguments Val {A} a.
Arguments Exc {A} e.
Arguments Early {A}.
Arguments Hang {A}.

Definition M (A : Type) : Type := st -> res A * st.

#[global] Instance M_ret : MRet M := fun A a s => (Val a, s).
#[global] Instance M_bind : MBind M := fun A B f m s =>
  match m s with
  | (Val a, s') => f a s'
  | (Exc e, s') => (Exc e, s')
  | (Early, s') => (Early, s')
  | (Hang, s') => (Hang, s')
  end.

Definition throw {A} (e : thrown) : M A := fun s => (Exc e, s).
Definition act (f : st -> st) : M unit := fun s => (Val tt, f s).
Definition gets {A} (f : st -> A) : M A := fun s => (Val (f s), s).

Definition throwIfAbortedM (aborted : bool) : M unit :=
  match throwIfAborted aborted with
  | Some e => throw e
  | None => mret tt
  end.

(** *** The environment of one call *)

Inductive outcome (A : Type) :=
| Ok (a : A)
| Fail (e : thrown).
Arguments Ok {A} a.
Arguments Fail {A} e.

(** How the wait on [previousLock] ends. *)
Inductive queueWaitResult :=
| WaitDone       (* [previousLock] resolved *)
| WaitTimedOut   (* the [withTimeout] timer fired first *)
| WaitAborted    (* the abort listener fired first *)
| WaitForever.

(** What the consumer does with the generator suspended at a [yield]. *)
Inductive consumerStep :=
| Next
| Return
| ThrowInto (e : thrown)
| Never.

Record payload := mkPayload {
  eventType : option string;  (* [payload.type] when it is a string *)
  json : string               (* [JSON.stringify(payload)] *)
}.

(** One turn of the read loop. *)
Inductive frameStep :=
| ReadFails (e : thrown)   (* [#nextWebSocketFrame] rejects *)
| ReadNull                 (* it resolves to [null] *)
| ReadFrame (decoded : outcome payload) (consumer : consumerStep)
    (* a frame; [decoded] fails when decoding or [JSON.parse] throws *).

(** Everything the environment decides during one call, step by step.
    The [aborted*] fields are what [signal.aborted] reads at each
    [throwIfAborted]. Timers are part of the outcomes: a step that runs
    out of budget is a step that fails with its timeout error. Closing a
    connection and [JSON.stringify] of the frame are taken to complete. *)
Record script := mkScript {
  configuredTimeoutMs : string;
  abortedOnEntry : bool;
  queueBudgetSpent : bool;
  queueWait : queueWaitResult;
  abortedOnAcquire : bool;
  abortedBeforePrepare : bool;
  prepare : outcome string;     (* the identity of the prepared (url, headers) *)
  abortedAfterPrepare : bool;
  cachedReusable : bool;        (* [isReusable()] of the cached connection *)
  connect1 : outcome unit;
  abortedAfterEnsure : bool;
  send1 : outcome unit;
  abortedInReconnect : bool;
  connect2 : outcome unit;
  abortedAfterReconnect : bool;
  send2 : outcome unit;
  frames : list frameStep
}.

(** *** The methods *)

(** The closure [releaseLock]. *)
Definition releaseLock (s : st) : st :=
  if released (vars s) then s
  else
    let v := vars s in
    let s1 := setVars (fun _ => mkLocals (ticket v) true (receivedAnyEvent v)
                                  (sawTerminalResponseEvent v)) s in
    let s2 := setThis (fun m =>
                mkModel (reuseConnection m) (wsConnection m)
                  (wsConnectionIdentity m)
                  (match ticket v with
                   | Some i => <[i := true]> (wsRequestLock m)
                   | None => wsRequestLock m
                   end)
                  (opened m)) s1 in
    emit AResolveOwnLock s2.

(** [#acquireWebSocketRequestLock]. *)
Definition acquireWebSocketRequestLock (sc : script) : M unit :=
  throwIfAbortedM (abortedOnEntry sc);;
  (if queueBudgetSpent sc
   then throw (newError (queueWaitTimeoutMessage (configuredTimeoutMs sc)))
   else mret tt);;
  act (fun s =>
         let m := this s in
         let v := vars s in
         emit AEnqueue
           (mkSt (mkModel (reuseConnection m) (wsConnection m)
                    (wsConnectionIdentity m) (wsRequestLock m ++ [false])
                    (opened m))
                 (mkLocals (Some (List.length (wsRequestLock m))) false
                    (receivedAnyEvent v) (sawTerminalResponseEvent v))
                 (trace s)));;
  match queueWait sc with
  | WaitDone =>
      if abortedOnAcquire sc
      then act releaseLock;; throw newAPIUserAbortError
      else mret tt
  | WaitTimedOut =>
      act releaseLock;;
      throw (newError (queueWaitTimeoutMessage (configuredTimeoutMs sc)))
  | WaitAborted => act releaseLock;; throw newAPIUserAbortError
  | WaitForever => fun s => (Hang, s)
  end.

(** [#dropWebSocketConnection]. *)
Definition dropWebSocketConnection : M unit :=
  fun s =>
    match wsConnection (this s) with
    | None => (Val tt, setThis (withCache None None) s)
    | Some c => (Val tt, emit (AClose c) (setThis (withCache None None) s))
    end.

Definition nonEmpty (s : string) : bool :=
  match s with EmptyString => false | _ => true end.

(** The tail of [#ensureWebSocketConnection]: drop what is cached, then
    connect. [connect] is how resolving the connect timeout and
    [ResponsesWebSocketConnection.connect] end. *)
Definition connectFresh (identity : string) (connect : outcome unit)
    : M (nat * bool) :=
  dropWebSocketConnection;;
  match connect with
  | Fail e => throw e
  | Ok _ =>
      c ← gets (fun s => opened (this s));
      act (fun s => emit (AConnect c)
             (setThis (fun m =>
                mkModel (reuseConnection m) (Some c) (Some identity)
                  (wsRequestLock m) (S c)) s));;
      mret (c, false)
  end.

(** [#ensureWebSocketConnection]; [reusable] is [isReusable()] of the
    cached connection. *)
Definition ensureWebSocketConnection (identity : string) (reusable : bool)
    (connect : outcome unit) : M (nat * bool) :=
  m ← gets this;
  match wsConnection m, wsConnectionIdentity m with
  | Some c, Some i =>
      if nonEmpty i && String.eqb i identity && reusable
      then mret (c, true)
      else connectFresh identity connect
  | _, _ => connectFresh identity connect
  end.

(** [#reconnectWebSocketConnection]. *)
Definition reconnectWebSocketConnection (sc : script) (identity : string)
    : M (nat * bool) :=
  act (emit AReconnect);;
  dropWebSocketConnection;;
  throwIfAbortedM (abortedInReconnect sc);;
  connection ← ensureWebSocketConnection identity (cachedReusable sc)
                  (connect2 sc);
  throwIfAbortedM (abortedAfterReconnect sc);;
  mret connection.

(** One [activeConnection.send(serializedFrame)]. *)
Definition send (c : nat) (o : outcome unit) : M unit :=
  match o with
  | Ok _ => act (emit (ASend c true))
  | Fail e => act (emit (ASend c false));; throw e
  end.

(** The closure [sendSerializedFrame]; it returns the active connection
    and [reusedConnectionForCurrentAttempt]. *)
Definition sendSerializedFrame (sc : script) (identity : string)
    (connection : nat * bool) : M (nat * bool) :=
  match send1 sc with
  | Ok _ => send connection.1 (send1 sc);; mret connection
  | Fail e =>
      act (emit (ASend connection.1 false));;
      if negb (isWebSocketNotOpenError e) then throw e
      else
        next ← reconnectWebSocketConnection sc identity;
        send next.1 (send2 sc);;
        mret next
  end.

(** The [while (true)] loop, one scripted turn per iteration. *)
Fixpoint readLoop (reusedConnectionForCurrentAttempt : bool)
    (turns : list frameStep) : M unit :=
  match turns with
  | [] => fun s => (Hang, s)
  | turn :: rest =>
      match turn with
      | ReadFails e => throw e
      | ReadNull =>
          received ← gets (fun s => receivedAnyEvent (vars s));
          if negb received && reusedConnectionForCurrentAttempt
          then act (setVars withReceived);;
               throw (newError MSG_MAY_HAVE_BEEN_ACCEPTED)
          else throw (newInternalError
                        connection_closed_before_terminal_response_event
                        MSG_CLOSED_BEFORE_TERMINAL)
      | ReadFrame (Fail e) _ => throw e
      | ReadFrame (Ok p) consumer =>
          if bool_decide (eventType p = Some "error")
          then act (setVars withReceived);;
               throw (newError ("Responses websocket error: " ++ json p))
          else
            let isTerminalResponseEvent :=
              isTerminalResponsesStreamEventType (eventType p) in
            act (setVars withReceived);;
            (if isTerminalResponseEvent then act (setVars withSawTerminal)
             else mret tt);;
            act (emit (AYield (eventType p)));;
            match consumer with
            | Next =>
                if isTerminalResponseEvent then mret tt
                else readLoop reusedConnectionForCurrentAttempt rest
            | Return => fun s => (Early, s)
            | ThrowInto e => throw e
            | Never => fun s => (Hang, s)
            end
      end
  end.

(** The [try] block up to and including [await sendSerializedFrame()]. *)
Definition requestPrelude (sc : script) : M (nat * bool) :=
  throwIfAbortedM (abortedBeforePrepare sc);;
  identity ← match prepare sc with
             | Ok i => mret i
             | Fail e => throw e
             end;
  throwIfAbortedM (abortedAfterPrepare sc);;
  connection ← ensureWebSocketConnection identity (cachedReusable sc)
                  (connect1 sc);
  throwIfAbortedM (abortedAfterEnsure sc);;
  sendSerializedFrame sc identity connection.

(** The [try] block. *)
Definition requestBody (sc : script) : M unit :=
  active ← requestPrelude sc;
  readLoop active.2 (frames sc).

(** The wrapper built in the [catch] block. *)
Definition wrapNoEvent (error : thrown) : thrown :=
  Thrown ClsError "Error" MSG_FEATURE_NOT_ENABLED
    (match cls error with ClsNonError => None | _ => Some error end).

(** The [catch] block: what is thrown on. *)
Definition catchClause (received : bool) (error : thrown) : thrown :=
  if negb received && negb (isAbort error)
     && shouldWrapNoEventWebSocketError error
  then wrapNoEvent error
  else error.

(** The [finally] block. *)
Definition finallyClause (s : st) : st :=
  let shouldDropConnection :=
    negb (sawTerminalResponseEvent (vars s))
    || negb (reuseConnection (this s)) in
  let s1 := if shouldDropConnection then snd (dropWebSocketConnection s)
            else s in
  releaseLock s1.

(** How a call ends for its consumer. *)
Inductive status :=
| Returned        (* the generator ran to its [return] *)
| ReturnedEarly   (* the consumer ended it with [return()] *)
| Rejected (e : thrown)
| Pending         (* it never settles *).

(** The state a call starts in: fresh locals, nothing done yet. *)
Definition begin (m : model) : st :=
  mkSt m (mkLocals None false false false) [].

(** [#iterWebSocketResponseEvents], consumed to its end. *)
Definition iterWebSocketResponseEvents (sc : script) (m : model)
    : status * st :=
  match acquireWebSocketRequestLock sc (begin m) with
  | (Exc e, s1) => (Rejected e, s1)
  | (Val _, s1) =>
      match requestBody sc s1 with
      | (Hang, s2) => (Pending, s2)
      | (Val _, s2) => (Returned, finallyClause s2)
      | (Early, s2) => (ReturnedEarly, finallyClause s2)
      | (Exc e, s2) =>
          (Rejected (catchClause (receivedAnyEvent (vars s2)) e),
           finallyClause s2)
      end
  | (_, s1) => (Pending, s1)
  end.

(** The error the call itself raised, before the [catch] block saw it,
    with [receivedAnyEvent] at that moment; acquisition raises outside
    the [try]. *)
Definition originalFailure (sc : script) (m : model)
    : option (thrown * bool) :=
  match acquireWebSocketRequestLock sc (begin m) with
  | (Exc e, _) => Some (e, false)
  | (Val _, s1) =>
      match requestBody sc s1 with
      | (Exc e, s2) => Some (e, receivedAnyEvent (vars s2))
      | _ => None
      end
  | _ => None
  end.


(** The scripted turns let the read loop end: before they run out, a
    read fails or gives [null], a frame does not decode, an [error] event
    or a terminal event arrives, or the consumer ends the generator; and
    the consumer resumes the generator after every event before that. *)
Fixpoint loopSettles (turns : list frameStep) : bool :=
  match turns with
  | [] => false
  | ReadFails _ :: _ => true
  | ReadNull :: _ => true
  | ReadFrame (Fail _) _ :: _ => true
  | ReadFrame (Ok p) consumer :: rest =>
      if bool_decide (eventType p = Some "error") then true
      else
        match consumer with
        | Next =>
            if isTerminalResponsesStreamEventType (eventType p) then true
            else loopSettles rest
        | Return => true
        | ThrowInto _ => true
        | Never => false
        end
  end.

(** Counting in a trace. *)
Definition isSend (a : action) : bool :=
  match a with ASend _ _ => true | _ => false end.
Definition isReconnect (a : action) : bool :=
  match a with AReconnect => true | _ => false end.
Definition isEnqueue (a : action) : bool :=
  match a with AEnqueue => true | _ => false end.
Definition isResolve (a : action) : bool :=
  match a with AResolveOwnLock => true | _ => false end.
Definition isCloseOf (c : nat) (a : action) : bool :=
  match a with AClose c' => Nat.eqb c c' | _ => false end.
Definition isConnect (a : action) : bool :=
  match a with AConnect _ => true | _ => false end.
Definition count (p : action -> bool) (t : list action) : nat :=
  List.length (List.filter p t).

(** The cached connection, if any, is one that was opened. *)
Definition cacheKnown (m : model) : Prop :=
  forall c, wsConnection m = Some c -> (c < opened m)%nat.

(** The event types the consumer was handed. *)
Definition yielded (t : list action) : list (option string) :=
  omap (fun a => match a with AYield ty => Some ty | _ => None end) t.

(** *** Sample runs *)

(** A model with nothing cached and one with connection [0] cached under
    the identity ["id"]. *)
Definition idle : model := mkModel true None None [] 0.
Definition warm : model := mkModel true (Some 0%nat) (Some "id") [true] 1.

(** A run where every step succeeds and the server answers with one
    event of the given type. *)
Definition answered (ty : string) : script :=
  mkScript "600000" false false WaitDone false false (Ok "id") false true
    (Ok tt) false (Ok tt) false (Ok tt) false (Ok tt)
    [ReadFrame (Ok (mkPayload (Some ty) "{}")) Next].

(** The socket closes before the first event. *)
Definition closedEarly : script :=
  mkScript "600000" false false WaitDone false false (Ok "id") false true
    (Ok tt) false (Ok tt) false (Ok tt) false (Ok tt) [ReadNull].

(** The first send finds the socket not open, and so does the resend. *)
Definition staleTwice : script :=
  mkScript "600000" false false WaitDone false false (Ok "id") false true
    (Ok tt) false
    (Fail (newInternalError socket_not_open MSG_NOT_OPEN)) false (Ok tt) false
    (Fail (newInternalError socket_not_open MSG_NOT_OPEN)) [].

(** The socket closes before it opens. *)
Definition neverOpens : script :=
  mkScript "600000" false false WaitDone false false (Ok "id") false true
    (Fail (newInternalError connection_closed_before_opening
             MSG_CLOSED_BEFORE_OPENING))
    false (Ok tt) false (Ok tt) false (Ok tt) [].

(** The caller aborts while the handshake is prepared. *)
Definition abortedMidway : script :=
  mkScript "600000" false false WaitDone false false (Ok "id") true true
    (Ok tt) true (Ok tt) true (Ok tt) true (Ok tt) [].

(** The queue wait times out. *)
Definition queueTimeout : script :=
  mkScript "600000" false false WaitTimedOut false false (Ok "id") false true
    (Ok tt) false (Ok tt) false (Ok tt) false (Ok tt) [].

End WSModel.

(** ** Reads, abort signals and socket events interleaved *)

Module ConnectionOps.
Import Errors Connection.

(** [WebSocket.readyState]. *)
Inductive readyState := CONNECTING | OPEN | CLOSING | CLOSED.

Definition isOpen (rs : readyState) : bool :=
  match rs with OPEN => true | _ => false end.

(** [send]: [Some] is the error [send] itself throws; on an open socket
    the data is handed to [socket.send]. *)
Definition send (rs : readyState) : option thrown :=
  if isOpen rs then None
  else Some (newInternalError socket_not_open MSG_NOT_OPEN).

(** [isReusable]. *)
Definition isReusable (rs : readyState) (c : t) : bool :=
  negb (closed c)
  && match error c with Some _ => false | None => true end
  && isOpen rs.

(** How the checks at the head of [waitForOpen] end. *)
Inductive openCheck :=
| AlreadyOpen
| FailsNow (e : thrown)
| MustWait.

(** The synchronous head of [waitForOpen], before it starts to wait for
    the [open] event. *)
Definition waitForOpenHead (rs : readyState) (c : t) : openCheck :=
  if isOpen rs then AlreadyOpen
  else
    match error c with
    | Some e => FailsNow e
    | None =>
        if closed c
           || match rs with CLOSED | CLOSING => true | _ => false end
        then FailsNow (newInternalError connection_closed_before_opening
                         MSG_CLOSED_BEFORE_OPENING)
        else MustWait
    end.

(** A socket event with the settlements of waiters it causes. *)
Definition dispatchSettle (ev : socketEvent) (c : t)
    : t * list (nat * settle) :=
  match ev with
  | EvMessage d => onMessage d c
  | EvError e => onError e c
  | EvClose => onClose c
  end.

(** What happens to a connection. Abort signals are numbered; a read
    names the signal [nextFrame] is called with, if any. *)
Inductive op :=
| OpRead (signal : option nat)  (* a call of [nextFrame(signal)] *)
| OpEvent (ev : socketEvent)    (* the socket fires *)
| OpAbort (signal : nat)        (* the signal fires its [abort] event *)
| OpSettle                      (* the queued promise reactions run *).

(** A connection in use. Reads are numbered in call order.
    - [signals] holds the signal of each read made;
    - [waiting] are the reads inside the promise of [withAbortSignal]
      whose [#nextFrameInternal] promise is pending, with their signal:
      the abort listener is registered, the waiter is parked;
    - [reactions] are the reads inside the promise of [withAbortSignal]
      whose [#nextFrameInternal] promise has settled, with their signal
      and that settlement: the reaction that passes it on is queued and
      the abort listener is still registered;
    - [answers] lists, in the order they happen, how the promises that
      [nextFrame] returned were settled. *)
Record session := mkSession {
  conn : t;
  signals : list (option nat);
  abortedSignals : list nat;
  waiting : list (nat * nat);
  reactions : list (nat * nat * settle);
  answers : list (nat * settle)
}.

Definition issued (s : session) : nat := List.length (signals s).

Definition start : session := mkSession fresh [] [] [] [] [].

(** What a promise of [#nextFrameInternal] has settled to, if it has. *)
Definition settlement (r : read) : option settle :=
  match r with
  | Returned v => Some (Resolve v)
  | Threw e => Some (Reject e)
  | Parked => None
  end.

(** [signal?.aborted]. *)
Definition isAborted (signal : option nat) (s : session) : bool :=
  match signal with
  | Some g => bool_decide (g ∈ abortedSignals s)
  | None => false
  end.

(** [nextFrame(signal)] up to the point where control returns to the
    caller. Without a signal [withAbortSignal] returns the promise of
    [#nextFrameInternal] itself. With a signal that is already aborted
    [throwIfAborted] rejects at once. With any other signal the promise
    of [withAbortSignal] stays pending: it registers its abort listener
    and its reaction to the promise of [#nextFrameInternal]. *)
Definition callNextFrame (signal : option nat) (s : session) : session :=
  let n := issued s in
  let '(r, c) := nextFrame (isAborted signal s) n (conn s) in
  let signals' := (signals s ++ [signal])%list in
  match signal with
  | Some g =>
      if isAborted signal s
      then mkSession c signals' (abortedSignals s) (waiting s) (reactions s)
             (answers s ++ option_list (pair n <$> settlement r))%list
      else
        match settlement r with
        | None =>
            mkSession c signals' (abortedSignals s)
              (waiting s ++ [(n, g)])%list (reactions s) (answers s)
        | Some st =>
            mkSession c signals' (abortedSignals s) (waiting s)
              (reactions s ++ [(n, g, st)])%list (answers s)
        end
  | None =>
      mkSession c signals' (abortedSignals s) (waiting s) (reactions s)
        (answers s ++ option_list (pair n <$> settlement r))%list
  end.

(** A waiter is settled by the socket. For a read made without a signal
    this settles the promise the caller holds. For a read inside
    [withAbortSignal] the reaction is queued; if the abort listener ran
    first, the waiter is a leftover and its settlement reaches nobody. *)
Definition deliver (s : session) (settled : nat * settle) : session :=
  let '(w, st) := settled in
  match signals s !! w with
  | Some None =>
      mkSession (conn s) (signals s) (abortedSignals s) (waiting s)
        (reactions s) (answers s ++ [(w, st)])%list
  | Some (Some _) =>
      mkSession (conn s) (signals s) (abortedSignals s)
        (filter (fun r => r.1 <> w) (waiting s))
        (reactions s
         ++ map (fun r => (r.1, r.2, st))
              (filter (fun r => r.1 = w) (waiting s)))%list
        (answers s)
  | None => s
  end.

(** A socket event: the handler runs, then what it settled is passed
    on. *)
Definition event (ev : socketEvent) (s : session) : session :=
  let '(c, settled) := dispatchSettle ev (conn s) in
  fold_left deliver settled
    (mkSession c (signals s) (abortedSignals s) (waiting s) (reactions s)
       (answers s)).

(** The signal fires: every abort listener still registered for it
    rejects its promise with [APIUserAbortError]. The waiters of the
    reads concerned stay in [#waiters]. An [AbortSignal] fires once. *)
Definition abort (g : nat) (s : session) : session :=
  if bool_decide (g ∈ abortedSignals s) then s
  else
    mkSession (conn s) (signals s) (g :: abortedSignals s)
      (filter (fun r => r.2 <> g) (waiting s))
      (filter (fun r => r.1.2 <> g) (reactions s))
      (answers s
       ++ map (fun r => (r.1, Reject newAPIUserAbortError))
            (filter (fun r => r.2 = g) (waiting s))
       ++ map (fun r => (r.1.1, Reject newAPIUserAbortError))
            (filter (fun r => r.1.2 = g) (reactions s)))%list.

(** The queued reactions run: each passes its settlement on and removes
    its abort listener. *)
Definition runReactions (s : session) : session :=
  mkSession (conn s) (signals s) (abortedSignals s) (waiting s) []
    (answers s ++ map (fun r => (r.1.1, r.2)) (reactions s))%list.

Definition step (s : session) (o : op) : session :=
  match o with
  | OpRead signal => callNextFrame signal s
  | OpEvent ev => event ev s
  | OpAbort g => abort g s
  | OpSettle => runReactions s
  end.

Definition run (ops : list op) (s : session) : session := fold_left step ops s.

(** The frames a run of operations brings, in arrival order. *)
Definition arrivedFrames (ops : list op) : list WebSocketMessageValue :=
  omap (fun o => match o with OpEvent (EvMessage d) => Some d | _ => None end)
    ops.

Definition readCount (ops : list op) : nat :=
  List.length
    (List.filter (fun o => match o with OpRead _ => true | _ => false end) ops).

(** No signal fires, and the socket neither closes nor fails. *)
Definition onlyReadsAndMessages (ops : list op) : Prop :=
  Forall (fun o => match o with
                   | OpRead _ | OpEvent (EvMessage _) | OpSettle => True
                   | _ => False
                   end) ops.

(** No read is parked unless the buffer is empty and the socket has
    neither closed nor failed. *)
Definition parkedOnlyWhenIdle (c : t) : Prop :=
  waiters c <> [] ->
  messages c = [] /\ closed c = false /\ error c = None.

(** The parked waiters of reads made without a signal. *)
Definition plainWaiters (s : session) (ws : list nat) : list nat :=
  filter (fun w => signals s !! w = Some None) ws.

(** Where each read made so far stands: answered, with its reaction
    queued, waiting inside [withAbortSignal], or parked without a
    signal among the waiters [ws]. *)
Definition accounted (s : session) (ws : list nat) : list nat :=
  (map fst (answers s) ++ map (fun r => r.1.1) (reactions s)
   ++ map fst (waiting s) ++ plainWaiters s ws)%list.

Definition accountedReads (s : session) : list nat :=
  accounted s (waiters (conn s)).

(** The reads whose outcome is decided, with it: answered, or with the
    reaction queued. *)
Definition decided (s : session) : list (nat * settle) :=
  (answers s ++ map (fun r => (r.1.1, r.2)) (reactions s))%list.

(** Every read is accounted for, every parked waiter is a read that
    was made, and every read waiting inside [withAbortSignal] has its
    waiter parked and was made with the signal noted. *)
Definition wellAccounted (s : session) : Prop :=
  accountedReads s ≡ₚ seq 0 (issued s)
  /\ (forall w, w ∈ waiters (conn s) -> (w < issued s)%nat)
  /\ (forall w g, (w, g) ∈ waiting s ->
                  w ∈ waiters (conn s) /\ signals s !! w = Some (Some g)).

(** The connection is idle: nothing buffered, nobody parked, neither
    closed nor failed. *)
Definition idleConnection (c : t) : Prop :=
  messages c = [] /\ waiters c = [] /\ closed c = false /\ error c = None.

End ConnectionOps.

(** ** The other header sinks of [responsesTransportUtils.ts] *)

Module HeaderOps.
Import TransportUtils.

(** [target[key] = value] on a plain object, for a string [value]. The
    name [__proto__] reaches the setter inherited from
    [Object.prototype], which ignores a string, unless the object has an
    own property of that name; every other name gets an own property. *)
Definition assign (target : gmap string string) (key value : string)
    : gmap string string :=
  if String.eqb key "__proto__" && bool_decide (target !! key = None)
  then target
  else <[key := value]> target.

(** [mergeHeadersIntoRecord]: the target, a plain object, is updated in
    place; here the updated object is returned. Names are compared
    through [toLowerCase] above, which is [String.prototype.toLowerCase]
    on names made of ASCII characters. *)
Definition mergeHeadersIntoRecord (target : gmap string string)
    (headers : headersInput) : gmap string string :=
  let parsed := parseHeaderInput headers in
  fold_left (fun target e => assign target e.1 e.2) (entries parsed)
    (fold_left
       (fun target lowercaseName =>
          filter (fun kv => toLowerCase kv.1 <> lowercaseName) target)
       (unsetLowercaseNames parsed) target).

(** Every character of the name is an ASCII character. *)
Fixpoint isAscii (s : string) : bool :=
  match s with
  | EmptyString => true
  | String c r => (nat_of_ascii c <? 128)%nat && isAscii r
  end.

(** The names an input unsets, as they are written in it. *)
Definition nullNames (headers : headersInput) : list string :=
  match headers with
  | HNullable _ nulls => omap id nulls
  | HRecord es =>
      omap (fun '(k, v) => match v with HNull => Some k | _ => None end) es
  | _ => []
  end.

(** [headerAccumulatorToSDKHeaders]: [None] is JS [null]. *)
Definition headerAccumulatorToSDKHeaders (acc : HeaderAccumulator)
    : gmap string (option string) :=
  set_fold (fun lowercaseName headers => <[lowercaseName := None]> headers)
    (Some <$> headerAccumulatorToRecord acc)
    (blockedLowercaseNames acc).

(** A name that [toLowerCase] leaves as it is. *)
Definition isLowercase (n : string) : Prop := toLowerCase n = n.

(** An accumulator as [applyHeadersToAccumulator] keeps it: stored pairs
    sit under their lower-cased key, blocked names are lower-case and
    hold no value. *)
Definition wellFormed (acc : HeaderAccumulator) : Prop :=
  keyed acc
  /\ forall n, n ∈ blockedLowercaseNames acc ->
               isLowercase n /\ valuesByLowercaseName acc !! n = None.

End HeaderOps.

(** ** Query keys and their families *)

Module QueryOps.
Import TransportUtils.

(** The keys of a query whose value is not [undefined]. *)
Definition definedKeys (es : list (string * qvalue)) : list string :=
  omap (fun e => match e.2 with QUndefined => None | _ => Some e.1 end) es.

(** The parameter name [k] lies in the family of none of [keys]. *)
Definition outsideFamilies (keys : list string) (k : string) : bool :=
  forallb (fun key => negb (inFamily key k)) keys.

End QueryOps.

(** ** More of the translator *)

Module TranslatorOps.
Import Errors Translator.

(** The six property names [splitResponsesTransportOverrides] takes out
    of the provider data. *)
Definition transportOverrideKeys : list string :=
  ["extra_headers"; "extraHeaders"; "extra_query"; "extraQuery";
   "extra_body"; "extraBody"].


Section WithHelper.

Variable camelOrSnakeToSnakeCase : option bag -> option bag.

(** The [unknown] branch of the callback of [getInputItems]: the provider
    data is spread first, [id] is written after it. *)
Definition getInputItems_unknown (id : jvalue) (providerData : option bag)
    : bag :=
  <["id" := id]> (spread (camelOrSnakeToSnakeCase providerData)).

End WithHelper.

(** The wire item has a type [convertToOutputItem] has no branch for. *)
Definition unhandledType (item : bag) : Prop :=
  forall ty, prop item "type" = JStr ty ->
             ty <> "function_call" /\ ~ In ty otherHandledTypes.

End TranslatorOps.

(** ** Requests in sequence and the streamed response *)

Module WSModelOps.
Import Errors WSModel.

(** A send on connection [c]. *)
Definition isSendOn (c : nat) (a : action) : bool :=
  match a with ASend c' _ => Nat.eqb c c' | _ => false end.

(** Both cache fields are set or neither is, and the cached connection
    is one that was opened. *)
Definition cacheCoherent (m : model) : Prop :=
  cacheKnown m /\ (wsConnection m = None <-> wsConnectionIdentity m = None).

(** Requests made one after the other on the same model, each consumed
    to its end before the next one starts: how each ended and what it
    did, and the model they leave. *)
Fixpoint requests (scs : list script) (m : model)
    : list (status * list action) * model :=
  match scs with
  | [] => ([], m)
  | sc :: rest =>
      let r := iterWebSocketResponseEvents sc m in
      let '(rs, m') := requests rest (this r.2) in
      ((r.1, trace r.2) :: rs, m')
  end.

(** The call takes a place in the request chain: neither of the two
    checks that precede the enqueue stops it. *)
Definition enqueues (sc : script) : bool :=
  negb (abortedOnEntry sc || queueBudgetSpent sc).

(** The signal reads aborted at one of the checks that precede the
    send. *)
Definition abortedBeforeSend (sc : script) : bool :=
  abortedBeforePrepare sc || abortedAfterPrepare sc || abortedAfterEnsure sc.

(** The kinds of event [getStreamedResponse] yields; [ModelEvent] wraps
    the wire event, named here by its type. *)
Inductive streamEvent :=
| ResponseStarted
| ResponseDone
| OutputTextDelta
| ModelEvent (eventType : option string).

(** The body of the [for await] loop of [getStreamedResponse]: what one
    wire event is turned into. [built] tells whether the terminal branch
    gets through its destructuring of [event.response] and through
    [convertToOutputItem] without throwing; the other branches cannot
    throw. The second component is [false] when the body threw. *)
Definition streamEventsFor (eventType : option string) (built : bool)
    : list streamEvent * bool :=
  let '(branch, ok) :=
    if bool_decide (eventType = Some "response.created")
    then ([ResponseStarted], true)
    else if isTerminalResponsesStreamEventType eventType
    then if built
         then (ResponseDone
               :: (if bool_decide (eventType = Some "response.completed")
                   then [ModelEvent eventType]
                   else []), true)
         else ([], false)
    else if bool_decide (eventType = Some "response.output_text.delta")
    then ([OutputTextDelta], true)
    else ([], true) in
  if ok then ((branch ++ [ModelEvent eventType])%list, true)
  else (branch, false).

(** [getStreamedResponse] on the events the transport hands over, read
    to its end by its consumer: the events it yields, and whether it
    returned rather than threw. *)
Fixpoint getStreamedResponse (wire : list (option string * bool))
    : list streamEvent * bool :=
  match wire with
  | [] => ([], true)
  | (eventType, built) :: rest =>
      let '(events, ok) := streamEventsFor eventType built in
      if ok
      then let '(more, returned) := getStreamedResponse rest in
           ((events ++ more)%list, returned)
      else (events, false)
  end.

Definition isResponseDone (e : streamEvent) : bool :=
  match e with ResponseDone => true | _ => false end.

Definition isModelEvent (e : streamEvent) : bool :=
  match e with ModelEvent _ => true | _ => false end.

(** An event the loop hands over and goes on after. *)
Definition passing (ty : option string) : Prop :=
  isTerminalResponsesStreamEventType ty = false /\ ty <> Some "error".

(** How the list of yielded events ends. *)
Definition closing {A} (r : res A) (fin : list (option string)) : Prop :=
  match fin with
  | [] => forall a, r <> Val a
  | [ty] => isTerminalResponsesStreamEventType ty = true
  | _ => False
  end.

End WSModelOps.

(** * Properties *)

(** ** The connection buffer *)

Module ConnectionFacts.
Import Errors Connection.
#[local] Open Scope list_scope.




(** Reading does not touch [#closed] or [#error]. *)
Lemma afterBuffer_nextFrame (w : nat) (c : t) :
  afterBuffer (snd (nextFrame false w c)) = afterBuffer c.
Proof.
  destruct c as [ms ws cl er].
  unfold nextFrame, nextFrameInternal, afterBuffer. simpl.
  destruct ms, er, cl; reflexivity.
Qed.






End ConnectionFacts.

(** ** Layered header merging *)

Module HeaderFacts.
Import Errors TransportUtils.
#[local] Open Scope list_scope.

Lemma fold_left_preserves {A B} (P : A -> Prop) (f : A -> B -> A)
    (l : list B) :
  forall a, P a -> (forall a x, In x l -> P a -> P (f a x)) ->
            P (fold_left f l a).
Proof.
  induction l as [| x l IH]; intros a Ha Hstep; simpl; [exact Ha |].
  apply IH.
  - apply Hstep; [left; reflexivity | exact Ha].
  - intros a' y Hy. apply Hstep. right. exact Hy.
Qed.

(** *** The invariant [keyed] *)

Lemma keyed_create : keyed createHeaderAccumulator.
Proof. intros n k v H. simpl in H. rewrite lookup_empty in H. discriminate. Qed.

Lemma keyed_unsetStep acc u : keyed acc -> keyed (unsetStep acc u).
Proof.
  intros Hk n k v H. simpl in H.
  apply lookup_delete_Some in H as [_ H]. eapply Hk, H.
Qed.

Lemma keyed_entryStep allow acc e : keyed acc -> keyed (entryStep allow acc e).
Proof.
  intros Hk. destruct e as [key value]. unfold entryStep.
  destruct (bool_decide _ && negb allow); [exact Hk |].
  intros n k v H. simpl in H.
  apply lookup_insert_Some in H as [[<- [= <- <-]] | [_ H]];
    [reflexivity | eapply Hk, H].
Qed.

Lemma keyed_apply acc headers allow :
  keyed acc -> keyed (applyHeadersToAccumulator acc headers allow).
Proof.
  intros Hk. unfold applyHeadersToAccumulator.
  apply fold_left_preserves.
  - apply fold_left_preserves; [exact Hk |].
    intros a u _. apply keyed_unsetStep.
  - intros a e _. apply keyed_entryStep.
Qed.

Lemma keyed_applyLayers layers :
  forall acc, keyed acc -> keyed (applyLayers layers acc).
Proof.
  intros acc Hk. unfold applyLayers. apply fold_left_preserves; [exact Hk |].
  intros a l _. apply keyed_apply.
Qed.

(** *** Reading the record *)

Lemma record_lookup acc key :
  keyed acc ->
  headerAccumulatorToRecord acc !! key
  = match valuesByLowercaseName acc !! toLowerCase key with
    | Some (k, v) => if decide (k = key) then Some v else None
    | None => None
    end.
Proof.
  unfold headerAccumulatorToRecord, keyed.
  generalize (valuesByLowercaseName acc). clear acc. intros m. revert key.
  apply (map_fold_weak_ind
           (fun (r : gmap string string) (m : gmap string (string * string)) =>
              forall key,
                (forall n k v, m !! n = Some (k, v) -> toLowerCase k = n) ->
                r !! key
                = match m !! toLowerCase key with
                  | Some (k, v) => if decide (k = key) then Some v else None
                  | None => None
                  end)).
  - intros key _. rewrite !lookup_empty. reflexivity.
  - intros i [k0 v0] m' r Hnone IH key Hk. simpl.
    assert (Hi : toLowerCase k0 = i).
    { apply (Hk i k0 v0). apply lookup_insert_eq. }
    assert (Hk' : forall n k v, m' !! n = Some (k, v) -> toLowerCase k = n).
    { intros n k v Hn. apply (Hk n k v).
      rewrite lookup_insert_ne; [exact Hn |]. intros ->. congruence. }
    destruct (decide (k0 = key)) as [-> | Hne].
    + rewrite lookup_insert_eq. rewrite Hi, lookup_insert_eq.
      rewrite decide_True by reflexivity. reflexivity.
    + rewrite lookup_insert_ne by exact Hne. rewrite (IH key Hk').
      destruct (decide (i = toLowerCase key)) as [-> | Hni].
      * rewrite Hnone, lookup_insert_eq.
        rewrite decide_False by exact Hne. reflexivity.
      * rewrite lookup_insert_ne by exact Hni. reflexivity.
Qed.

(** *** A name that stays unset *)








(** *** A name the override layer sets again *)










(** 'applies plain-object header nulls as unsets in the header
    accumulator'. *)
Example plain_object_null_unsets :
  headerAccumulatorToRecord
    (applyLayers
       [(HRecord [("User-Agent", HValue "Agents/JavaScript");
                  ("X-Client-Header", HValue "client")], false);
        (HRecord [("User-Agent", HNull)], false)]
       createHeaderAccumulator)
  = {[ "X-Client-Header" := "client" ]}.
Proof. vm_compute. reflexivity. Qed.

End HeaderFacts.

(** ** Query precedence *)

Module QueryFacts.
Import Errors TransportUtils.

(** *** Strings *)

Lemma append_cons (x : ascii) (a b : string) :
  String x a ++ b = String x (a ++ b).
Proof. reflexivity. Qed.

Lemma append_nil_l (b : string) : "" ++ b = b.
Proof. reflexivity. Qed.

Lemma append_assoc (a b c : string) : (a ++ b) ++ c = a ++ (b ++ c).
Proof.
  induction a as [| x a IH]; [reflexivity |].
  rewrite !append_cons, IH. reflexivity.
Qed.

Lemma prefix_iff (p : string) :
  forall s, String.prefix p s = true <-> exists r, s = p ++ r.
Proof.
  induction p as [| x p IH]; intros s.
  - destruct s; simpl; split; eauto.
  - destruct s as [| y s]; simpl.
    + split; [discriminate | intros [r Hr]; discriminate].
    + destruct (ascii_dec x y) as [-> | Hne].
      * rewrite IH. split; intros [r Hr]; exists r.
        -- rewrite append_cons. congruence.
        -- rewrite append_cons in Hr. congruence.
      * split; [discriminate |].
        intros [r Hr]. rewrite append_cons in Hr. congruence.
Qed.

(** Two ways of cutting one string. *)
Lemma append_eq_append (a : string) :
  forall b c d,
    a ++ b = c ++ d ->
    (exists r, c = a ++ r /\ b = r ++ d) \/ (exists r, a = c ++ r /\ d = r ++ b).
Proof.
  induction a as [| x a IH]; intros b c d H.
  - left. exists c. auto.
  - destruct c as [| y c].
    + right. exists (String x a). auto.
    + rewrite !append_cons in H. injection H as -> H.
      destruct (IH _ _ _ H) as [[r [-> ->]] | [r [-> ->]]].
      * left. exists r. auto.
      * right. exists r. auto.
Qed.

Lemma inFamily_iff (key k : string) :
  inFamily key k = true <-> k = key \/ exists r, k = key ++ "[" ++ r.
Proof.
  unfold inFamily. rewrite orb_true_iff, String.eqb_eq, prefix_iff.
  split; intros [H | [r H]]; auto; right; exists r.
  - rewrite H, append_assoc. reflexivity.
  - rewrite H, append_assoc. reflexivity.
Qed.

Lemma inFamily_self (key : string) : inFamily key key = true.
Proof. apply inFamily_iff. left. reflexivity. Qed.

(** A sub-key of a family member is in the family. *)
Lemma inFamily_nested (key suffix k : string) :
  inFamily (key ++ "[" ++ suffix) k = true -> inFamily key k = true.
Proof.
  rewrite !inFamily_iff. intros [-> | [r ->]]; right.
  - exists suffix. reflexivity.
  - exists (suffix ++ "[" ++ r). rewrite !append_assoc. reflexivity.
Qed.

(** If [a ++ "[" ++ r] also starts with [b ++ "["], then [a] is [b] or is
    in the family of [b], or the other way round. *)
Lemma bracket_cut (a : string) :
  forall b r r',
    a ++ "[" ++ r = b ++ "[" ++ r' ->
    a = b \/ (exists w, a = b ++ "[" ++ w) \/ (exists w, b = a ++ "[" ++ w).
Proof.
  induction a as [| x a IH]; intros b r r' H.
  - destruct b as [| y b]; [left; reflexivity |].
    rewrite append_nil_l, !append_cons in H. injection H as <- H.
    right. right. exists b. reflexivity.
  - destruct b as [| y b].
    + rewrite append_nil_l, !append_cons in H. injection H as -> H.
      right. left. exists a. reflexivity.
    + rewrite !append_cons in H. injection H as -> H.
      destruct (IH _ _ _ H) as [-> | [[w ->] | [w ->]]].
      * left. reflexivity.
      * right. left. exists w. reflexivity.
      * right. right. exists w. reflexivity.
Qed.

(** The families of two keys, neither in the family of the other, are
    disjoint. *)
Lemma families_disjoint (key k' x : string) :
  inFamily key k' = false -> inFamily k' key = false ->
  inFamily key x = true -> inFamily k' x = false.
Proof.
  intros H1 H2 Hx.
  destruct (inFamily k' x) eqn:Hx'; [exfalso | reflexivity].
  apply not_true_iff_false in H1, H2.
  rewrite inFamily_iff in H1, H2, Hx, Hx'.
  destruct Hx as [-> | [r ->]]; [tauto |].
  destruct Hx' as [<- | [r' Hr']].
  - apply H1. right. eauto.
  - apply bracket_cut in Hr' as [-> | [[w ->] | [w ->]]].
    + apply H1. left. reflexivity.
    + apply H2. right. eauto.
    + apply H1. right. eauto.
Qed.

(** *** Serialising one value *)

Lemma qvalue_induction (P : qvalue -> Prop) :
  P QUndefined -> P QNull ->
  (forall items, Forall P items -> P (QArray items)) ->
  (forall fields, Forall (fun f => P f.2) fields -> P (QObject fields)) ->
  (forall iso, P (QDate iso)) -> (forall text, P (QPrim text)) ->
  forall v, P v.
Proof.
  intros Hu Hn Ha Ho Hd Hp. fix IH 1. intros [| | items | fields | iso | text].
  - exact Hu.
  - exact Hn.
  - apply Ha. induction items as [| x xs IHxs]; constructor;
      [apply IH | exact IHxs].
  - apply Ho. induction fields as [| [k x] xs IHxs]; constructor;
      [apply IH | exact IHxs].
  - apply Hd.
  - apply Hp.
Qed.

Lemma fold_left_appends {A B} (f : list B -> A -> list B) (g : A -> list B)
    (l : list A) :
  Forall (fun x => forall u, f u x = (u ++ g x)%list) l ->
  forall u, fold_left f l u = (u ++ flat_map g l)%list.
Proof.
  induction 1 as [| x xs Hx _ IH]; intros u; simpl.
  - rewrite app_nil_r. reflexivity.
  - rewrite IH, Hx, <- app_assoc. reflexivity.
Qed.

(** Appending to the search params only ever adds at the end. *)
Lemma appendQueryParamValue_app (v : qvalue) :
  forall key url,
    appendQueryParamValue url key v
    = (url ++ appendQueryParamValue [] key v)%list.
Proof.
  induction v as [| | items IH | fields IH | iso | text] using qvalue_induction;
    intros key url; simpl; try (rewrite app_nil_r; reflexivity);
    try reflexivity.
  - assert (H : Forall
                  (fun x => forall u,
                     appendQueryParamValue u (key ++ "[]") x
                     = (u ++ appendQueryParamValue [] (key ++ "[]") x)%list)
                  items)
      by (eapply Forall_impl; [exact IH |]; intros x Hx u; apply Hx).
    rewrite (fold_left_appends _ _ items H url).
    rewrite (fold_left_appends _ _ items H []). reflexivity.
  - assert (H : Forall
                  (fun f => forall u,
                     appendQueryParamValue u (key ++ "[" ++ f.1 ++ "]") f.2
                     = (u ++ appendQueryParamValue []
                               (key ++ "[" ++ f.1 ++ "]") f.2)%list)
                  fields)
      by (eapply Forall_impl; [exact IH |]; intros x Hx u; apply Hx).
    rewrite (fold_left_appends _ _ fields H url).
    rewrite (fold_left_appends _ _ fields H []). reflexivity.
Qed.

(** Every name a value serialises to is the key or a bracket sub-key. *)
Lemma appendQueryParamValue_family (v : qvalue) :
  forall key e,
    In e (appendQueryParamValue [] key v) -> inFamily key e.1 = true.
Proof.
  induction v as [| | items IH | fields IH | iso | text] using qvalue_induction;
    intros key e; simpl.
  - intros [].
  - intros [].
  - rewrite (fold_left_appends _
               (fun x => appendQueryParamValue [] (key ++ "[]") x) items)
      by (apply Forall_forall; intros x _ u; apply appendQueryParamValue_app).
    simpl. rewrite in_flat_map. intros [x [Hx He]].
    rewrite Forall_forall in IH.
    apply (inFamily_nested key "]").
    apply (IH x (proj2 (list_elem_of_In _ _) Hx)). exact He.
  - rewrite (fold_left_appends _
               (fun f => appendQueryParamValue [] (key ++ "[" ++ f.1 ++ "]") f.2)
               fields)
      by (apply Forall_forall; intros x _ u; apply appendQueryParamValue_app).
    simpl. rewrite in_flat_map. intros [x [Hx He]].
    rewrite Forall_forall in IH.
    apply (inFamily_nested key (x.1 ++ "]")).
    apply (IH x (proj2 (list_elem_of_In _ _) Hx)). exact He.
  - intros [<- | []]. apply inFamily_self.
  - intros [<- | []]. apply inFamily_self.
Qed.

(** *** Families under the merge *)

#[local] Open Scope list_scope.

Lemma familyOf_app key (a b : searchParams) :
  familyOf key (a ++ b) = familyOf key a ++ familyOf key b.
Proof. apply filter_app. Qed.

Lemma familyOf_all key (l : searchParams) :
  (forall e, In e l -> inFamily key e.1 = true) -> familyOf key l = l.
Proof.
  induction l as [| e l IH]; intros H; [reflexivity |].
  unfold familyOf. rewrite filter_cons.
  rewrite decide_True by (apply H; left; reflexivity).
  f_equal. apply IH. intros e' He'. apply H. right. exact He'.
Qed.

Lemma familyOf_none key (l : searchParams) :
  (forall e, In e l -> inFamily key e.1 = false) -> familyOf key l = [].
Proof.
  induction l as [| e l IH]; intros H; [reflexivity |].
  unfold familyOf. rewrite filter_cons.
  rewrite decide_False
    by (rewrite (H e (or_introl eq_refl)); discriminate).
  apply IH. intros e' He'. apply H. right. exact He'.
Qed.

(** Deleting a family commutes with looking at another one. *)
Lemma familyOf_deleteFamily key k (url : searchParams) :
  familyOf key (deleteFamily k url) = deleteFamily k (familyOf key url).
Proof.
  unfold familyOf, deleteFamily.
  induction url as [| e url IH]; [reflexivity |].
  rewrite !filter_cons.
  destruct (decide (inFamily k e.1 = false)) as [Hk | Hk];
    destruct (decide (inFamily key e.1 = true)) as [Hf | Hf];
    rewrite ?filter_cons, ?decide_True, ?decide_False by assumption;
    rewrite IH; reflexivity.
Qed.

Lemma deleteFamily_own key (url : searchParams) :
  familyOf key (deleteFamily key url) = [].
Proof.
  apply familyOf_none. intros e He.
  apply list_elem_of_In in He. unfold deleteFamily in He.
  apply list_elem_of_filter in He as [He _]. exact He.
Qed.

Lemma deleteFamily_unrelated key k (url : searchParams) :
  unrelated key k -> deleteFamily k (familyOf key url) = familyOf key url.
Proof.
  intros [H1 H2]. unfold deleteFamily.
  induction url as [| e url IH]; [reflexivity |].
  unfold familyOf. rewrite filter_cons.
  destruct (decide (inFamily key e.1 = true)) as [Hf | Hf].
  - rewrite filter_cons.
    rewrite decide_True by (eapply families_disjoint; eassumption).
    f_equal. exact IH.
  - exact IH.
Qed.

Lemma undefined_or_not (v : qvalue) : v = QUndefined \/ v <> QUndefined.
Proof. destruct v; auto; right; discriminate. Qed.

(** One step of the merge, for a value that is not [undefined]. *)
Lemma mergeStep_defined (url : searchParams) key value :
  value <> QUndefined ->
  mergeStep url (key, value)
  = deleteFamily key url ++ appendQueryParamValue [] key value.
Proof.
  intros Hv. unfold mergeStep.
  destruct value; try contradiction;
    try (rewrite appendQueryParamValue_app; reflexivity).
  simpl. rewrite app_nil_r. reflexivity.
Qed.

(** What a step leaves in a family depends on that family alone. *)
Lemma mergeStep_family key (u1 u2 : searchParams) e :
  familyOf key u1 = familyOf key u2 ->
  familyOf key (mergeStep u1 e) = familyOf key (mergeStep u2 e).
Proof.
  intros H. destruct e as [k v].
  destruct (undefined_or_not v) as [-> | Hv]; [exact H |].
  rewrite !mergeStep_defined by exact Hv.
  rewrite !familyOf_app, !familyOf_deleteFamily, H. reflexivity.
Qed.

Lemma merge_family key (es : list (string * qvalue)) :
  forall u1 u2 : searchParams,
    familyOf key u1 = familyOf key u2 ->
    familyOf key (fold_left mergeStep es u1)
    = familyOf key (fold_left mergeStep es u2).
Proof.
  induction es as [| e es IH]; intros u1 u2 H; [exact H |].
  simpl. apply IH, mergeStep_family, H.
Qed.

(** The step for [key] itself leaves exactly its serialised value. *)
Lemma mergeStep_own key value (url : searchParams) :
  value <> QUndefined ->
  familyOf key (mergeStep url (key, value))
  = appendQueryParamValue [] key value.
Proof.
  intros Hv. rewrite mergeStep_defined by exact Hv.
  rewrite familyOf_app, deleteFamily_own. simpl.
  apply familyOf_all, appendQueryParamValue_family.
Qed.

(** A step for an unrelated key leaves the family alone. *)
Lemma mergeStep_unrelated key (url : searchParams) k v :
  unrelated key k ->
  familyOf key (mergeStep url (k, v)) = familyOf key url.
Proof.
  intros Hun. destruct (undefined_or_not v) as [-> | Hv]; [reflexivity |].
  rewrite mergeStep_defined by exact Hv.
  rewrite familyOf_app, familyOf_deleteFamily, deleteFamily_unrelated
    by exact Hun.
  rewrite (familyOf_none key (appendQueryParamValue [] k v)).
  - apply app_nil_r.
  - intros e He. destruct Hun as [H1 H2].
    apply (families_disjoint k key); try assumption.
    eapply appendQueryParamValue_family, He.
Qed.

Lemma merge_unrelated key (es : list (string * qvalue)) :
  forall url : searchParams,
    (forall k v, In (k, v) es -> unrelated key k) ->
    familyOf key (fold_left mergeStep es url) = familyOf key url.
Proof.
  induction es as [| [k v] es IH]; intros url H; [reflexivity |].
  simpl. rewrite IH by (intros k' v' Hin; eapply H; right; exact Hin).
  apply mergeStep_unrelated. eapply H. left. reflexivity.
Qed.

(** After the step for a defined [key, value], the family of [key] no
    longer depends on what the search params held before the merge. *)
Lemma merge_forgets key value (es : list (string * qvalue))
    (u1 u2 : searchParams) :
  In (key, value) es -> value <> QUndefined ->
  familyOf key (fold_left mergeStep es u1)
  = familyOf key (fold_left mergeStep es u2).
Proof.
  intros Hin Hv. apply in_split in Hin as (l1 & l2 & ->).
  rewrite !fold_left_app. cbn [fold_left].
  apply merge_family. rewrite !mergeStep_own by exact Hv. reflexivity.
Qed.

Lemma prepareWebSocketURL_query websocketBaseURL clientBaseURL defaultQuery
    extraQuery url :
  prepareWebSocketURL websocketBaseURL clientBaseURL defaultQuery extraQuery
  = inr url ->
  exists before : searchParams,
    query url = mergeQueryParamsIntoURL before extraQuery.
Proof.
  unfold prepareWebSocketURL. intros H.
  repeat match type of H with
         | context [if ?b then _ else _] => destruct b
         end;
    try discriminate; injection H as <-; simpl; eauto.
Qed.

(** C9: when the per-request extra query carries a defined value for
    [key], every entry of the final websocket URL named [key] or
    [key[...]] is one the extra query produced: whatever the client's
    default query and the explicit base URL query held for that key and
    its bracket sub-keys is gone. When no other key of the extra query
    is a bracket sub-key of [key] (or the other way round), what remains
    is exactly the serialised per-request value. *)
Theorem per_request_query_value_wins
    (websocketBaseURL : option URL) (clientBaseURL : URL)
    (defaultQuery : option (list (string * qvalue)))
    (extraQuery : list (string * qvalue)) (key : string) (value : qvalue)
    (url : URL) :
  prepareWebSocketURL websocketBaseURL clientBaseURL defaultQuery
    (Some extraQuery) = inr url ->
  In (key, value) extraQuery ->
  value <> QUndefined ->
  familyOf key (query url)
  = familyOf key (mergeQueryParamsIntoURL [] (Some extraQuery))
  /\ (NoDup (map fst extraQuery) ->
      (forall k v, In (k, v) extraQuery -> k <> key -> unrelated key k) ->
      familyOf key (query url) = appendQueryParamValue [] key value).
Proof.
  intros Hurl Hin Hv.
  destruct (prepareWebSocketURL_query _ _ _ _ _ Hurl) as [before ->].
  simpl. split; [eapply merge_forgets; eassumption |].
  intros Hnodup Hothers.
  apply in_split in Hin as (l1 & l2 & ->).
  rewrite fold_left_app. cbn [fold_left].
  rewrite merge_unrelated; [apply mergeStep_own, Hv |].
  intros k v Hkv. apply (Hothers k v).
  - apply in_or_app. right. right. exact Hkv.
  - intros ->. rewrite map_app in Hnodup. simpl in Hnodup.
    apply NoDup_app in Hnodup as (_ & _ & Hnodup).
    apply NoDup_cons in Hnodup as [Hnotin _]. apply Hnotin.
    apply list_elem_of_In. apply (in_map fst _ _ Hkv).
Qed.

Lemma per_request_query_value_wins_witness :
  let base := mkURL "https:" "proxy.example.test" "/v1"
                [("tag", "base"); ("tag[kind]", "base"); ("keep", "1")] in
  let client := mkURL "https:" "api.openai.com" "/v1" [] in
  let defaults := Some [("tag", QPrim "default");
                        ("tag[]", QPrim "default")] in
  let extra := [("tag", QObject [("kind", QPrim "request")]);
                ("trace", QArray [QPrim "a"; QPrim "b"])] in
  exists url,
    prepareWebSocketURL (Some base) client defaults (Some extra) = inr url
    /\ familyOf "tag" (query url) = [("tag[kind]", "request")].
Proof.
  eexists. split; [reflexivity |].
  refine (proj2 (per_request_query_value_wins
                   (Some (mkURL "https:" "proxy.example.test" "/v1"
                            [("tag", "base"); ("tag[kind]", "base");
                             ("keep", "1")]))
                   (mkURL "https:" "api.openai.com" "/v1" [])
                   (Some [("tag", QPrim "default"); ("tag[]", QPrim "default")])
                   [("tag", QObject [("kind", QPrim "request")]);
                    ("trace", QArray [QPrim "a"; QPrim "b"])]
                   "tag" (QObject [("kind", QPrim "request")]) _
                   eq_refl _ _) _ _).
  - left. reflexivity.
  - discriminate.
  - apply (bool_decide_unpack _). vm_compute. exact I.
  - intros k v [H | [H | []]] Hne; injection H as <- <-;
      [contradiction | split; reflexivity].
Defined.

(** *** The repository's tests, replayed *)

(** 'preserves explicit websocketBaseURL query params over client
    defaultQuery'. *)
Example explicit_base_query_over_defaults :
  prepareWebSocketURL
    (Some (mkURL "wss:" "proxy.example.test" "/v1"
             [("base_param", "1"); ("api-version", "2025-02-01-preview");
              ("tenant", "base")]))
    (mkURL "https:" "api.openai.com" "/v1" [])
    (Some [("api-version", QPrim "2024-01-01"); ("tenant", QPrim "client");
           ("client_param", QPrim "client")])
    (Some [("tenant", QPrim "request")])
  = inr (mkURL "wss:" "proxy.example.test" "/v1/responses"
           [("client_param", "client"); ("base_param", "1");
            ("api-version", "2025-02-01-preview"); ("tenant", "request")]).
Proof. reflexivity. Qed.

(** 'serializes Date query values as ISO-8601 strings', with bracket
    notation for nested and repeated values. *)
Example bracket_notation :
  mergeQueryParamsIntoURL []
    (Some [("at", QDate "2025-01-02T03:04:05.678Z");
           ("filter", QObject [("since", QDate "2025-04-06T07:08:09.010Z")]);
           ("many", QArray [QDate "2025-11-12T13:14:15.016Z"; QPrim "x"])])
  = [("at", "2025-01-02T03:04:05.678Z");
     ("filter[since]", "2025-04-06T07:08:09.010Z");
     ("many[]", "2025-11-12T13:14:15.016Z"); ("many[]", "x")].
Proof. reflexivity. Qed.

(** 'does not append /responses twice'. *)
Example responses_path_once :
  map ensureResponsesWebSocketPath
    ["/v1"; "/v1/"; "/v1/responses"; "/v1/responses///"; "/xresponses"]
  = ["/v1/responses"; "/v1/responses"; "/v1/responses"; "/v1/responses";
     "/xresponses/responses"].
Proof. reflexivity. Qed.

End QueryFacts.

(** ** The outbound frame and the function-call round trip *)

Module TranslatorFacts.
Import Errors Translator.

(** C6: whatever the request carries, and in particular whatever
    [extra_body] holds under [type] or [stream], a built request yields a
    frame whose [type] is [response.create] and whose [stream] is [true];
    the same holds for [stream] in the request data itself, and every
    other key of [extra_body] reaches the frame with its value. *)
Theorem frame_type_and_stream_fixed
    (request : RequestView) (built : BuiltResponsesCreateRequest) :
  buildResponsesCreateRequest request true = inr built ->
  webSocketFrame built !! "type" = Some (JStr "response.create")
  /\ webSocketFrame built !! "stream" = Some (JBool true)
  /\ requestData built !! "stream" = Some (JBool true)
  /\ (forall rest overrides body k v,
        splitResponsesTransportOverrides (providerData request)
        = inr (rest, overrides) ->
        extraBody overrides = Some body ->
        body !! k = Some v -> k <> "type" -> k <> "stream" ->
        webSocketFrame built !! k = Some v).
Proof.
  intros Hbuilt. unfold webSocketFrame.
  split; [| split; [| split]].
  - rewrite lookup_insert_ne by discriminate. apply lookup_insert_eq.
  - apply lookup_insert_eq.
  - unfold buildResponsesCreateRequest in Hbuilt.
    destruct (splitResponsesTransportOverrides (providerData request))
      as [e | [rest overrides]]; [discriminate |].
    destruct (match parallelToolCalls request with
              | Some true => Nat.eqb (toolsLength request) 0
              | _ => false
              end); [discriminate |].
    injection Hbuilt as <-. simpl. apply lookup_insert_eq.
  - intros rest overrides body k v Hsplit Hbody Hk Htype Hstream.
    unfold buildResponsesCreateRequest in Hbuilt. rewrite Hsplit in Hbuilt.
    destruct (match parallelToolCalls request with
              | Some true => Nat.eqb (toolsLength request) 0
              | _ => false
              end); [discriminate |].
    injection Hbuilt as <-. simpl. rewrite Hbody.
    rewrite !lookup_insert_ne by congruence.
    apply lookup_union_Some_l. exact Hk.
Qed.

Lemma frame_type_and_stream_fixed_witness :
  let request :=
    mkRequestView {[ "model" := JStr "gpt-ws" ]} None None 0
      (JObj [("extra_body",
              JObj [("type", JStr "user.overridden.type");
                    ("stream", JBool false);
                    ("metadata", JObj [("transport", JStr "ws")])])]) in
  exists built,
    buildResponsesCreateRequest request true = inr built
    /\ webSocketFrame built !! "type" = Some (JStr "response.create")
    /\ webSocketFrame built !! "stream" = Some (JBool true)
    /\ webSocketFrame built !! "metadata"
       = Some (JObj [("transport", JStr "ws")]).
Proof.
  eexists. split; [reflexivity |].
  pose proof (frame_type_and_stream_fixed
                (mkRequestView {[ "model" := JStr "gpt-ws" ]} None None 0
                   (JObj [("extra_body",
                           JObj [("type", JStr "user.overridden.type");
                                 ("stream", JBool false);
                                 ("metadata",
                                  JObj [("transport", JStr "ws")])])]))
                _ eq_refl) as (Htype & Hstream & _ & Hbody).
  split; [exact Htype | split; [exact Hstream |]].
  eapply Hbody; [reflexivity | reflexivity | | discriminate | discriminate].
  vm_compute. reflexivity.
Defined.

Section RoundTrip.

Variable camelOrSnakeToSnakeCase : option bag -> option bag.

Lemma literal_lookup_other (item : FunctionCallItem) (k : string) :
  ~ In k functionCallWireKeys -> functionCallLiteral item !! k = None.
Proof.
  intros Hk. unfold functionCallLiteral.
  rewrite !lookup_insert_ne by (intros <-; apply Hk; simpl; tauto).
  apply lookup_empty.
Qed.

(** On the keys of the literal the wire item holds the literal's values. *)
Lemma wire_lookup_literal (item : FunctionCallItem) (k : string) :
  agreesWithLiteral item
    (spread (camelOrSnakeToSnakeCase (fc_providerData item))) ->
  In k functionCallWireKeys ->
  getInputItems_functionCall camelOrSnakeToSnakeCase item !! k
  = functionCallLiteral item !! k.
Proof.
  intros Hagree Hk. unfold getInputItems_functionCall.
  rewrite lookup_union.
  destruct (spread (camelOrSnakeToSnakeCase (fc_providerData item)) !! k)
    as [v |] eqn:Hv.
  - rewrite (Hagree k v Hk Hv). reflexivity.
  - destruct (functionCallLiteral item !! k); reflexivity.
Qed.

(** C7, as amended: when the snake-cased provider data holds, under the
    keys the [function_call] literal writes, nothing else than the
    literal does, decoding the encoded item gives back [id], [callId],
    [name], [arguments] and [status] exactly; the decoded provider data
    is the snake-cased bag without the four destructured keys, together
    with the wire's [id] and [type], and every entry of the snake-cased
    bag under another key survives unchanged. *)
Theorem function_call_round_trip (item : FunctionCallItem) :
  let pd := spread (camelOrSnakeToSnakeCase (fc_providerData item)) in
  let decoded : bag :=
    <["id" := optStr (fc_id item)]>
      (<["type" := JStr "function_call"]> (withoutDestructured pd)) in
  agreesWithLiteral item pd ->
  convertToOutputItem_item
    (getInputItems_functionCall camelOrSnakeToSnakeCase item)
  = OutFunctionCall
      (mkFunctionCallOut (optStr (fc_id item)) (JStr (fc_callId item))
         (JStr (fc_name item)) (optStr (fc_status item))
         (JStr (fc_arguments item)) decoded)
  /\ (forall k v,
        pd !! k = Some v ->
        ~ In k ["call_id"; "name"; "status"; "arguments"] ->
        decoded !! k = Some v).
Proof.
  intros pd decoded Hagree.
  assert (Hwire : forall k, In k functionCallWireKeys ->
            getInputItems_functionCall camelOrSnakeToSnakeCase item !! k
            = functionCallLiteral item !! k)
    by (intros k Hk; apply wire_lookup_literal; assumption).
  split.
  - unfold convertToOutputItem_item, prop.
    rewrite !Hwire by (simpl; tauto).
    unfold functionCallLiteral at 1 2 3 4 5 6. simplify_map_eq. simpl.
    do 2 f_equal. apply map_eq. intros k. unfold decoded, withoutDestructured.
    destruct (decide (k = "call_id")) as [-> | ?]; [by simplify_map_eq |].
    destruct (decide (k = "name")) as [-> | ?]; [by simplify_map_eq |].
    destruct (decide (k = "status")) as [-> | ?]; [by simplify_map_eq |].
    destruct (decide (k = "arguments")) as [-> | ?]; [by simplify_map_eq |].
    rewrite !lookup_delete_ne by congruence.
    destruct (decide (k = "id")) as [-> | ?].
    { rewrite Hwire by (simpl; tauto). unfold functionCallLiteral.
      by simplify_map_eq. }
    destruct (decide (k = "type")) as [-> | ?].
    { rewrite Hwire by (simpl; tauto). unfold functionCallLiteral.
      by simplify_map_eq. }
    rewrite !lookup_insert_ne, !lookup_delete_ne by congruence.
    unfold getInputItems_functionCall. fold pd. rewrite lookup_union.
    rewrite literal_lookup_other by (simpl; intuition congruence).
    destruct (pd !! k); reflexivity.
  - intros k v Hv Hk. unfold decoded, withoutDestructured.
    destruct (decide (k = "id")) as [-> | ?].
    { rewrite lookup_insert_eq.
      pose proof (Hagree "id" v ltac:(simpl; tauto) Hv) as H.
      unfold functionCallLiteral in H. by simplify_map_eq. }
    rewrite lookup_insert_ne by congruence.
    destruct (decide (k = "type")) as [-> | ?].
    { rewrite lookup_insert_eq.
      pose proof (Hagree "type" v ltac:(simpl; tauto) Hv) as H.
      unfold functionCallLiteral in H. by simplify_map_eq. }
    rewrite lookup_insert_ne by congruence.
    rewrite !lookup_delete_ne by (intros <-; apply Hk; simpl; tauto).
    exact Hv.
Qed.

End RoundTrip.

Lemma function_call_round_trip_witness :
  let item :=
    mkFunctionCall (Some "fc_1") "call_1" "lookup" "{}" (Some "completed")
      (Some {[ "vendor_note" := JStr "kept";
               "type" := JStr "function_call" ]}) in
  exists o,
    convertToOutputItem_item (getInputItems_functionCall (fun pd => pd) item)
    = OutFunctionCall o
    /\ out_name o = JStr "lookup"
    /\ out_providerData o !! "vendor_note" = Some (JStr "kept").
Proof.
  pose proof (function_call_round_trip (fun pd => pd)
                (mkFunctionCall (Some "fc_1") "call_1" "lookup" "{}"
                   (Some "completed")
                   (Some {[ "vendor_note" := JStr "kept";
                            "type" := JStr "function_call" ]}))) as H.
  simpl in H. destruct H as [Heq Hpd].
  - intros k v Hk Hv. simpl in Hk.
    destruct Hk as [<- | [<- | [<- | [<- | [<- | [<- | []]]]]]];
      vm_compute in Hv; try discriminate Hv.
    injection Hv as <-. vm_compute. reflexivity.
  - eexists. split; [exact Heq |]. split; [reflexivity |].
    simpl. apply Hpd; [vm_compute; reflexivity |].
    simpl. intuition discriminate.
Defined.

(** C7 as the specification words it covers every function call item.
    An item whose provider data carries a key the literal also writes,
    with another value, is encoded with the provider data's value, since
    the spread comes last: here [name] decodes to [shadow], not to the
    item's [lookup], even with a helper that leaves this bag as it is. *)
Lemma provider_data_shadows_semantic_field :
  ~ (forall (helper : option bag -> option bag) (item : FunctionCallItem),
       helper (fc_providerData item) = fc_providerData item ->
       exists o,
         convertToOutputItem_item (getInputItems_functionCall helper item)
         = OutFunctionCall o
         /\ out_id o = optStr (fc_id item)
         /\ out_callId o = JStr (fc_callId item)
         /\ out_name o = JStr (fc_name item)
         /\ out_arguments o = JStr (fc_arguments item)
         /\ out_status o = optStr (fc_status item)).
Proof.
  intros H.
  destruct (H (fun pd => pd)
              (mkFunctionCall (Some "fc_1") "call_1" "lookup" "{}"
                 (Some "completed") (Some {[ "name" := JStr "shadow" ]}))
              eq_refl) as (o & Ho & _ & _ & Hname & _).
  assert (Hdecoded :
            convertToOutputItem_item
              (getInputItems_functionCall (fun pd => pd)
                 (mkFunctionCall (Some "fc_1") "call_1" "lookup" "{}"
                    (Some "completed") (Some {[ "name" := JStr "shadow" ]})))
            = OutFunctionCall
                (mkFunctionCallOut (JStr "fc_1") (JStr "call_1")
                   (JStr "shadow") (JStr "completed") (JStr "{}")
                   (<["id" := JStr "fc_1"]>
                      {[ "type" := JStr "function_call" ]}))).
  { vm_compute. reflexivity. }
  rewrite Hdecoded in Ho. injection Ho as <-. simpl in Hname. discriminate.
Qed.

End TranslatorFacts.

(** ** The request state machine *)

Module WSModelFacts.
Import Errors WSModel.
#[local] Open Scope list_scope.

(** Unfolding the monad and the small steps. *)
Ltac unfold_steps :=
  unfold requestPrelude, sendSerializedFrame, reconnectWebSocketConnection,
    ensureWebSocketConnection, connectFresh, dropWebSocketConnection, send,
    throwIfAbortedM, throwIfAborted, throw, act, gets,
    mbind, M_bind, mret, M_ret, emit, setThis, setVars, withCache in *.

(** Case analysis on everything the script and the state decide. *)
Ltac crunch := repeat (case_match; simpl in *; simplify_eq).

Lemma count_app p (t1 t2 : list action) :
  count p (t1 ++ t2) = (count p t1 + count p t2)%nat.
Proof. unfold count. rewrite List.filter_app, length_app. reflexivity. Qed.

Lemma count_yields p (ys : list (option string)) :
  (forall ty, p (AYield ty) = false) -> count p (map AYield ys) = 0%nat.
Proof.
  intros Hp. unfold count. induction ys as [| y ys IH]; simpl;
    [reflexivity | rewrite Hp; exact IH].
Qed.

Lemma yielded_app (t1 t2 : list action) :
  yielded (t1 ++ t2) = yielded t1 ++ yielded t2.
Proof. unfold yielded. apply omap_app. Qed.

Lemma yielded_yields (ys : list (option string)) :
  yielded (map AYield ys) = ys.
Proof.
  unfold yielded. induction ys as [| y ys IH]; simpl;
    [reflexivity | f_equal; exact IH].
Qed.

(** The read loop touches nothing but the two flags, and the trace only
    by the events it hands to the consumer. *)
Lemma readLoop_spec (turns : list frameStep) :
  forall reused s r s',
    readLoop reused turns s = (r, s') ->
    exists ys received,
      s' = mkSt (this s)
             (mkLocals (ticket (vars s)) (released (vars s)) received
                (sawTerminalResponseEvent (vars s)
                 || existsb isTerminalResponsesStreamEventType ys))
             (trace s ++ map AYield ys).
Proof.
  induction turns as [| turn turns IH]; intros reused s r s' H.
  - simpl in H. injection H as <- <-. exists [], (receivedAnyEvent (vars s)).
    destruct s as [m [tk rl rc sw] tr]. simpl.
    rewrite orb_false_r, app_nil_r. reflexivity.
  - destruct s as [m [tk rl rc sw] tr].
    destruct turn as [e | | [p | e] consumer]; simpl in H; unfold_steps;
      simpl in H.
    + injection H as <- <-. exists [], rc. simpl.
      rewrite orb_false_r, app_nil_r. reflexivity.
    + destruct (negb rc && reused); simpl in H; injection H as <- <-;
        eexists [], _; simpl; rewrite orb_false_r, app_nil_r; reflexivity.
    + destruct (bool_decide (eventType p = Some "error")); simpl in H.
      { injection H as <- <-. eexists [], _. simpl.
        rewrite orb_false_r, app_nil_r. reflexivity. }
      destruct (isTerminalResponsesStreamEventType (eventType p)) eqn:Hterm;
        simpl in H.
      * eexists [eventType p], _. simpl. rewrite Hterm, orb_true_r.
        destruct consumer; injection H as <- <-; reflexivity.
      * destruct consumer;
          try (injection H as <- <-; eexists [eventType p], _;
               simpl; rewrite Hterm; simpl; rewrite orb_false_r; reflexivity).
        apply IH in H as (ys & received & ->). simpl.
        exists (eventType p :: ys), received. simpl. rewrite Hterm.
        rewrite <- app_assoc. reflexivity.
    + injection H as <- <-. exists [], rc. simpl.
      rewrite orb_false_r, app_nil_r. reflexivity.
Qed.

Lemma insert_last (l : list bool) :
  <[List.length l := true]> (l ++ [false]) = l ++ [true].
Proof.
  rewrite insert_app_r_alt by lia. rewrite Nat.sub_diag. reflexivity.
Qed.

Lemma acquire_cases sc m r s1 :
  acquireWebSocketRequestLock sc (begin m) = (r, s1) ->
  (r = Val tt /\ abortedOnEntry sc || queueBudgetSpent sc = false
   /\ s1 = mkSt (mkModel (reuseConnection m) (wsConnection m)
                   (wsConnectionIdentity m) (wsRequestLock m ++ [false])
                   (opened m))
             (mkLocals (Some (List.length (wsRequestLock m))) false false false)
             [AEnqueue])
  \/ (exists e, r = Exc e /\ s1 = begin m
                /\ shouldWrapNoEventWebSocketError e = false
                /\ abortedOnEntry sc || queueBudgetSpent sc = true)
  \/ (exists e, r = Exc e /\ shouldWrapNoEventWebSocketError e = false
        /\ abortedOnEntry sc || queueBudgetSpent sc = false
        /\ s1 = mkSt (mkModel (reuseConnection m) (wsConnection m)
                        (wsConnectionIdentity m) (wsRequestLock m ++ [true])
                        (opened m))
                  (mkLocals (Some (List.length (wsRequestLock m))) true false
                     false)
                  [AEnqueue; AResolveOwnLock])
  \/ (r = Hang /\ trace s1 = [AEnqueue]).
Proof.
  unfold acquireWebSocketRequestLock, releaseLock, begin. unfold_steps.
  destruct m as [ru wc wi lk op]. simpl. intros H.
  crunch; rewrite ?insert_last; eauto 10.
Qed.

Lemma prelude_frame sc s r s' :
  requestPrelude sc s = (r, s') ->
  vars s' = vars s
  /\ wsRequestLock (this s') = wsRequestLock (this s)
  /\ reuseConnection (this s') = reuseConnection (this s)
  /\ r <> Hang /\ r <> Early
  /\ exists t, trace s' = trace s ++ t
               /\ count isEnqueue t = 0%nat /\ count isResolve t = 0%nat
               /\ yielded t = [].
Proof.
  destruct s as [[ru wc wi lk op] v tr].
  unfold_steps. simpl. intros H.
  crunch; repeat split; try discriminate;
    rewrite <- ?app_assoc;
    first [ exists []; split; [symmetry; apply app_nil_r |]
          | eexists; split; [reflexivity |] ];
    repeat split; reflexivity.
Qed.

Lemma count_cons p a (t : list action) :
  count p (a :: t) = ((if p a then 1 else 0) + count p t)%nat.
Proof. unfold count. simpl. destruct (p a); reflexivity. Qed.

Lemma count_nil p : count p [] = 0%nat.
Proof. reflexivity. Qed.

Ltac count_simpl :=
  repeat first
    [ rewrite count_app | rewrite count_cons | rewrite count_nil
    | rewrite count_yields by reflexivity ];
  simpl.

Lemma releaseLock_idempotent (s : st) :
  releaseLock (releaseLock s) = releaseLock s.
Proof.
  unfold releaseLock. destruct (released (vars s)) eqn:Hr.
  - rewrite Hr. reflexivity.
  - reflexivity.
Qed.

Lemma settled_lock_cases (sc : script) (m : model) :
  let r := iterWebSocketResponseEvents sc m in
  r.1 <> Pending ->
  if abortedOnEntry sc || queueBudgetSpent sc
  then count isEnqueue (trace r.2) = 0%nat
       /\ count isResolve (trace r.2) = 0%nat
       /\ wsRequestLock (this r.2) = wsRequestLock m
  else count isEnqueue (trace r.2) = 1%nat
       /\ count isResolve (trace r.2) = 1%nat
       /\ wsRequestLock (this r.2) = wsRequestLock m ++ [true]
       /\ releaseLock r.2 = r.2.
Proof.
  intros r. unfold r. clear r. unfold iterWebSocketResponseEvents.
  destruct (acquireWebSocketRequestLock sc (begin m)) as [ra s1] eqn:Hacq.
  apply acquire_cases in Hacq
    as [(-> & -> & ->) | [(e & -> & -> & _ & ->)
                         | [(e & -> & _ & -> & ->) | [-> _]]]]; simpl.
  - unfold requestBody, mbind, M_bind.
    destruct (requestPrelude sc _) as [rp s2] eqn:Hpre.
    apply prelude_frame in Hpre
      as (Hv & Hl & Hr & Hnh & Hne & t & Ht & He & Hres & _).
    destruct s2 as [m2 v2 t2]. simpl in *. subst v2 t2.
    assert (Hfin : forall s3 ys rc sw,
               s3 = mkSt m2 (mkLocals (Some (List.length (wsRequestLock m)))
                               false rc sw)
                      (([AEnqueue] ++ t) ++ map AYield ys) ->
               count isEnqueue (trace (finallyClause s3)) = 1%nat
               /\ count isResolve (trace (finallyClause s3)) = 1%nat
               /\ wsRequestLock (this (finallyClause s3))
                  = wsRequestLock m ++ [true]
               /\ releaseLock (finallyClause s3) = finallyClause s3).
    { intros s3 ys rc sw ->. unfold finallyClause, releaseLock.
      unfold_steps. simpl. destruct m2 as [ru2 wc2 wi2 lk2 op2].
      simpl in *. subst lk2.
      crunch; rewrite ?insert_last; count_simpl; rewrite ?He, ?Hres;
        repeat split; reflexivity. }
    destruct rp as [[c reused] | e | |]; try congruence.
    + simpl.
      match goal with
      | |- context [readLoop ?a ?b ?c] =>
          destruct (readLoop a b c) as [rl s3] eqn:Hloop
      end.
      apply readLoop_spec in Hloop as (ys & rc & ->). simpl.
      intros Hnp.
      destruct rl; simpl in *; try congruence; eapply Hfin; reflexivity.
    + intros _. apply (Hfin _ [] false false). simpl.
      rewrite app_nil_r. reflexivity.
  - intros _. repeat split; reflexivity.
  - intros _. repeat split; reflexivity.
  - congruence.
Qed.

(** A call stopped before it enqueues itself, because the signal is
    already aborted or the budget already spent, takes no slot: nothing
    is enqueued, nothing resolved, the chain is as it was. *)
Lemma no_slot_without_enqueue (sc : script) (m : model) :
  abortedOnEntry sc || queueBudgetSpent sc = true ->
  let r := iterWebSocketResponseEvents sc m in
  (exists e, r.1 = Rejected e)
  /\ count isEnqueue (trace r.2) = 0%nat
  /\ count isResolve (trace r.2) = 0%nat
  /\ wsRequestLock (this r.2) = wsRequestLock m.
Proof.
  intros Hearly r.
  assert (Hst : exists e, r.1 = Rejected e).
  { unfold r, iterWebSocketResponseEvents, acquireWebSocketRequestLock.
    unfold_steps. simpl.
    destruct (abortedOnEntry sc); simpl; [eauto |].
    destruct (queueBudgetSpent sc); simpl; [eauto | discriminate]. }
  split; [exact Hst |].
  pose proof (settled_lock_cases sc m) as H. fold r in H. simpl in H.
  rewrite Hearly in H. apply H. destruct Hst as [e ->]. discriminate.
Qed.

Lemma acquire_hangs sc m s1 :
  acquireWebSocketRequestLock sc (begin m) = (Hang, s1) ->
  queueWait sc = WaitForever.
Proof.
  unfold acquireWebSocketRequestLock, releaseLock, begin. unfold_steps.
  destruct m as [ru wc wi lk op]. simpl. intros H.
  crunch; reflexivity.
Qed.

Lemma readLoop_settles (turns : list frameStep) :
  forall reused s r s',
    loopSettles turns = true ->
    readLoop reused turns s = (r, s') ->
    r <> Hang.
Proof.
  induction turns as [| turn turns IH]; intros reused s r s' Hset H.
  - discriminate Hset.
  - destruct s as [m [tk rl rc sw] tr].
    destruct turn as [e | | [p | e] consumer]; simpl in Hset, H;
      unfold_steps; simpl in H.
    + injection H as <- <-. discriminate.
    + destruct (negb rc && reused); simpl in H; injection H as <- <-;
        discriminate.
    + destruct (bool_decide (eventType p = Some "error")); simpl in H.
      { injection H as <- <-. discriminate. }
      destruct (isTerminalResponsesStreamEventType (eventType p));
        simpl in H;
        destruct consumer; try discriminate Hset;
        try (injection H as <- <-; discriminate).
      eapply IH; eassumption.
    + injection H as <- <-. discriminate.
Qed.

Lemma finally_releases (s : st) :
  released (vars s) = false ->
  released (vars (finallyClause s)) = true
  /\ exists closes,
       trace (finallyClause s) = trace s ++ closes ++ [AResolveOwnLock]
       /\ count isResolve closes = 0%nat.
Proof.
  destruct s as [[ru wc wi lk op] [tk rl rc sw] tr]. simpl. intros ->.
  unfold finallyClause, releaseLock. unfold_steps. simpl.
  crunch; (split; [reflexivity |]); rewrite <- ?app_assoc;
    first [ exists []; split; reflexivity
          | eexists [_]; split; reflexivity ].
Qed.

(** What the [try] block and the [finally] block do with the lock of a
    call that acquired it: nothing has released it when the [try] block
    is entered nor when it is left, and whenever the [try] block is
    left, the [finally] block adds to what the [try] block did the
    closing of the connection, if it drops it, and then the release. *)
Lemma released_in_finally (sc : script) (m : model) (s1 : st) :
  acquireWebSocketRequestLock sc (begin m) = (Val tt, s1) ->
  let r := iterWebSocketResponseEvents sc m in
  count isResolve (trace s1) = 0%nat
  /\ released (vars s1) = false
  /\ forall rb s2,
       requestBody sc s1 = (rb, s2) ->
       count isResolve (trace s2) = 0%nat
       /\ released (vars s2) = false
       /\ (rb <> Hang ->
           released (vars r.2) = true
           /\ last (trace r.2) = Some AResolveOwnLock
           /\ exists closes,
                trace r.2 = trace s2 ++ closes ++ [AResolveOwnLock]
                /\ count isResolve closes = 0%nat).
Proof.
  intros Hacq. simpl. unfold iterWebSocketResponseEvents. rewrite Hacq.
  apply acquire_cases in Hacq
    as [(_ & _ & ->) | [(e & [=] & _) | [(e & [=] & _) | [[=] _]]]].
  split; [reflexivity | split; [reflexivity |]].
  intros rb s2 Hbody. rewrite Hbody.
  assert (Hheld : count isResolve (trace s2) = 0%nat
                  /\ released (vars s2) = false).
  { revert Hbody. unfold requestBody, mbind, M_bind.
    destruct (requestPrelude sc _) as [rp s2'] eqn:Hpre.
    apply prelude_frame in Hpre
      as (Hv & _ & _ & _ & _ & t & Ht & _ & Hres & _).
    simpl in Hv, Ht.
    destruct rp as [[c reused] | e | |]; intros Hbody;
      try (injection Hbody as <- <-; rewrite Ht, Hv; count_simpl;
           rewrite Hres; split; reflexivity).
    apply readLoop_spec in Hbody as (ys & rc & ->). simpl.
    rewrite Ht, Hv. count_simpl. rewrite Hres. split; reflexivity. }
  destruct Hheld as [Hcount Hrel].
  split; [exact Hcount | split; [exact Hrel |]].
  intros Hsettled.
  destruct (finally_releases s2 Hrel) as (Hr & closes & Htr & Hcl).
  assert (Hlast : last (trace (finallyClause s2)) = Some AResolveOwnLock).
  { rewrite Htr, app_assoc. apply last_snoc. }
  destruct rb as [[] | e | |]; simpl; try congruence;
    (split; [exact Hr | split; [exact Hlast |]]);
    exists closes; split; assumption.
Qed.

(** A call whose queue wait ends and whose read loop is let to end
    settles. *)
Lemma request_settles (sc : script) (m : model) :
  queueWait sc <> WaitForever ->
  loopSettles (frames sc) = true ->
  (iterWebSocketResponseEvents sc m).1 <> Pending.
Proof.
  intros Hwait Hloop. unfold iterWebSocketResponseEvents.
  destruct (acquireWebSocketRequestLock sc (begin m)) as [ra s1] eqn:Hacq.
  destruct ra as [[] | e | |]; simpl; try discriminate.
  - unfold requestBody, mbind, M_bind.
    destruct (requestPrelude sc s1) as [rp s2] eqn:Hpre.
    apply prelude_frame in Hpre as (_ & _ & _ & Hnh & Hne & _).
    destruct rp as [[c reused] | e | |]; try congruence; simpl;
      [| discriminate].
    match goal with
    | |- context [readLoop ?a ?b ?c] =>
        destruct (readLoop a b c) as [rl s3] eqn:Hrl
    end.
    pose proof (readLoop_settles _ _ _ _ _ Hloop Hrl) as Hnot.
    destruct rl as [[] | e | |]; simpl; congruence.
  - exfalso. revert Hacq.
    unfold acquireWebSocketRequestLock, releaseLock, begin. unfold_steps.
    destruct m as [ru wc wi lk op]. simpl. intros H. crunch.
  - apply acquire_hangs in Hacq. contradiction.
Qed.

(** C5: a call that took a place in the FIFO chain releases it, whatever
    the outcome. Such a call settles as soon as its queue wait ends and
    its read loop is let to end, and whenever it settles (acquisition
    failed while waiting, by queue-wait timeout or abort, or the request
    later failed, aborted, was ended early or succeeded) the own lock
    was enqueued once and resolved exactly once, so the chain is the one
    before the call followed by a resolved lock and nothing queued
    behind it stays blocked. When the slot was acquired, the lock is
    still held on entry to the [try] block and when that block is left,
    however it is left; the [finally] block then adds, to everything the
    [try] block did, the closing of a dropped connection and, last, the
    release. Calling [releaseLock] again changes nothing. *)
Theorem lock_released_exactly_once (sc : script) (m : model) :
  let r := iterWebSocketResponseEvents sc m in
  abortedOnEntry sc || queueBudgetSpent sc = false ->
  (queueWait sc <> WaitForever -> loopSettles (frames sc) = true ->
   r.1 <> Pending)
  /\ (r.1 <> Pending ->
      count isEnqueue (trace r.2) = 1%nat
      /\ count isResolve (trace r.2) = 1%nat
      /\ wsRequestLock (this r.2) = wsRequestLock m ++ [true]
      /\ releaseLock r.2 = r.2)
  /\ (forall s1,
        acquireWebSocketRequestLock sc (begin m) = (Val tt, s1) ->
        count isResolve (trace s1) = 0%nat
        /\ released (vars s1) = false
        /\ forall rb s2,
             requestBody sc s1 = (rb, s2) ->
             count isResolve (trace s2) = 0%nat
             /\ released (vars s2) = false
             /\ (rb <> Hang ->
                 released (vars r.2) = true
                 /\ last (trace r.2) = Some AResolveOwnLock
                 /\ exists closes,
                      trace r.2 = trace s2 ++ closes ++ [AResolveOwnLock]
                      /\ count isResolve closes = 0%nat))
  /\ forall s, releaseLock (releaseLock s) = releaseLock s.
Proof.
  intros r Henq. split; [| split; [| split]].
  - apply request_settles.
  - intros Hsettled.
    pose proof (settled_lock_cases sc m Hsettled) as H. fold r in H.
    rewrite Henq in H. exact H.
  - intros s1 Hacq. apply (released_in_finally sc m s1 Hacq).
  - apply releaseLock_idempotent.
Qed.

Lemma in_yields a (ys : list (option string)) :
  In a (map AYield ys) -> exists ty, a = AYield ty.
Proof. rewrite in_map_iff. intros (ty & <- & _). eauto. Qed.

Lemma prelude_cache sc m v r s' :
  cacheKnown m ->
  requestPrelude sc (mkSt m v [AEnqueue]) = (r, s') ->
  (forall c, wsConnection m = Some c \/ In (AConnect c) (trace s') ->
             In (AClose c) (trace s') \/ wsConnection (this s') = Some c)
  /\ (forall c, wsConnection (this s') = Some c -> ~ In (AClose c) (trace s'))
  /\ (forall c reused, r = Val (c, reused) ->
        wsConnection (this s') = Some c
        /\ is_Some (wsConnectionIdentity (this s'))
        /\ In (ASend c true) (trace s')).
Proof.
  destruct m as [ru wc wi lk op]. unfold cacheKnown. simpl. intros Hknown.
  unfold_steps. simpl. intros H.
  crunch; try (specialize (Hknown _ eq_refl));
    (split; [| split]);
    try (intros c [Hc | Hc]); try (intros c Hc); try (intros c reused Hc);
    simplify_eq; simpl in *; try tauto; try (intuition (simplify_eq; eauto; lia)).
Qed.

Lemma finally_keep m2 tk rc tr :
  reuseConnection m2 = true ->
  finallyClause (mkSt m2 (mkLocals tk false rc true) tr)
  = mkSt (mkModel true (wsConnection m2) (wsConnectionIdentity m2)
            (match tk with
             | Some i => <[i := true]> (wsRequestLock m2)
             | None => wsRequestLock m2
             end) (opened m2))
      (mkLocals tk true rc true) (tr ++ [AResolveOwnLock]).
Proof.
  intros Hr. destruct m2 as [ru wc wi lk op]. simpl in Hr. subst ru.
  reflexivity.
Qed.

Lemma finally_drop m2 tk rc sw tr :
  sw && reuseConnection m2 = false ->
  finallyClause (mkSt m2 (mkLocals tk false rc sw) tr)
  = mkSt (mkModel (reuseConnection m2) None None
            (match tk with
             | Some i => <[i := true]> (wsRequestLock m2)
             | None => wsRequestLock m2
             end) (opened m2))
      (mkLocals tk true rc sw)
      ((tr ++ match wsConnection m2 with
              | Some c => [AClose c]
              | None => []
              end) ++ [AResolveOwnLock]).
Proof.
  intros Hr. destruct m2 as [ru wc wi lk op]. simpl in Hr.
  unfold finallyClause, releaseLock. unfold_steps. simpl.
  destruct sw, ru; try discriminate; simpl;
    destruct wc; simpl; rewrite ?app_nil_r; reflexivity.
Qed.

(** C1, as amended: a call that acquired the slot and settles leaves the
    cached connection in place exactly when the consumer was handed a
    terminal response event, of any of the four terminal types, and
    connection reuse is enabled: the connection the frame was sent on is
    still cached, with its identity, and was never closed. In every other
    outcome the cache and its identity are cleared and every connection
    that was cached during the call has been closed. *)
Theorem connection_kept_iff_terminal_and_reuse
    (sc : script) (m : model) (s1 : st) :
  cacheKnown m ->
  acquireWebSocketRequestLock sc (begin m) = (Val tt, s1) ->
  let r := iterWebSocketResponseEvents sc m in
  r.1 <> Pending ->
  if existsb isTerminalResponsesStreamEventType (yielded (trace r.2))
     && reuseConnection m
  then exists c,
         wsConnection (this r.2) = Some c
         /\ is_Some (wsConnectionIdentity (this r.2))
         /\ In (ASend c true) (trace r.2)
         /\ ~ In (AClose c) (trace r.2)
  else wsConnection (this r.2) = None
       /\ wsConnectionIdentity (this r.2) = None
       /\ forall c, wsConnection m = Some c \/ In (AConnect c) (trace r.2) ->
                    In (AClose c) (trace r.2).
Proof.
  intros Hknown Hacq. unfold iterWebSocketResponseEvents. rewrite Hacq.
  apply acquire_cases in Hacq
    as [(_ & _ & ->) | [(e & [=] & _) | [(e & [=] & _) | [[=] _]]]].
  unfold requestBody, mbind, M_bind.
  destruct (requestPrelude sc _) as [rp s2] eqn:Hpre.
  pose proof Hpre as Hframe.
  apply prelude_frame in Hframe
    as (Hv & _ & Hr & Hnh & Hne & t & Ht & _ & _ & Hy).
  apply prelude_cache in Hpre as (Hclosed & Hfresh & Hsent);
    [| destruct m; exact Hknown].
  destruct s2 as [m2 v2 t2]. simpl in *. subst v2 t2.
  assert (Hfin : forall ys rc,
             let sw := existsb isTerminalResponsesStreamEventType ys in
             let s3 := mkSt m2 (mkLocals (Some (List.length (wsRequestLock m)))
                                  false rc sw)
                         ((AEnqueue :: t) ++ map AYield ys) in
             (sw = true -> exists c, wsConnection m2 = Some c
                                     /\ is_Some (wsConnectionIdentity m2)
                                     /\ In (ASend c true) (AEnqueue :: t)) ->
             if existsb isTerminalResponsesStreamEventType
                  (yielded (trace (finallyClause s3)))
                && reuseConnection m
             then exists c,
                 wsConnection (this (finallyClause s3)) = Some c
                 /\ is_Some (wsConnectionIdentity (this (finallyClause s3)))
                 /\ In (ASend c true) (trace (finallyClause s3))
                 /\ ~ In (AClose c) (trace (finallyClause s3))
             else wsConnection (this (finallyClause s3)) = None
                  /\ wsConnectionIdentity (this (finallyClause s3)) = None
                  /\ forall c, wsConnection m = Some c
                               \/ In (AConnect c) (trace (finallyClause s3)) ->
                               In (AClose c) (trace (finallyClause s3))).
  { intros ys rc sw s3 Hsaw. unfold s3.
    destruct (sw && reuseConnection m2) eqn:Hkeep.
    - apply andb_prop in Hkeep as [Hsw Hru]. rewrite Hsw.
      rewrite finally_keep by exact Hru. simpl.
      rewrite !yielded_app. simpl. rewrite ?yielded_app, Hy, yielded_yields.
      simpl. rewrite app_nil_r. fold sw. rewrite Hsw, <- Hr, Hru. simpl.
      destruct (Hsaw Hsw) as (c & Hc & Hid & Hsend).
      pose proof (Hfresh c Hc) as Hopen.
      exists c. rewrite !in_app_iff. simpl in *.
      repeat split; [exact Hc | exact Hid | tauto |].
      intros [Hin | [[Hin | Hin] | [Hin | []]]]; try discriminate;
        [tauto | apply in_yields in Hin as [ty Hty]; discriminate].
    - rewrite finally_drop by exact Hkeep. simpl.
      rewrite !yielded_app. simpl. rewrite ?yielded_app, Hy, yielded_yields.
      simpl.
      replace (yielded match wsConnection m2 with
                       | Some c => [AClose c]
                       | None => []
                       end) with (@nil (option string))
        by (destruct (wsConnection m2); reflexivity).
      rewrite !app_nil_r. fold sw. rewrite <- Hr, Hkeep.
      repeat split.
      intros c. rewrite !in_app_iff. simpl. intros Hc.
      assert (Hc' : wsConnection m = Some c \/ In (AConnect c) (AEnqueue :: t)).
      { simpl. destruct Hc as [Hc | [Hc | [[[Hc | Hc] | Hc] | [Hc | []]]]];
          try discriminate; [tauto | tauto | |].
        - apply in_yields in Hc as [ty Hty]. discriminate.
        - destruct (wsConnection m2); simpl in Hc; intuition discriminate. }
      destruct (Hclosed c Hc') as [[Hcl | Hcl] | Hcl]; [discriminate | tauto |].
      rewrite Hcl. simpl. tauto. }
  destruct rp as [[c reused] | e | |]; try congruence.
  - simpl.
    match goal with
    | |- context [readLoop ?a ?b ?c] =>
        destruct (readLoop a b c) as [rl s3] eqn:Hloop
    end.
    apply readLoop_spec in Hloop as (ys & rc & ->). simpl.
    destruct (Hsent c reused eq_refl) as (Hc & Hid & Hsend).
    intros Hnp.
    destruct rl; simpl in *; try congruence;
      apply (Hfin ys rc); intros _; exists c; auto.
  - intros _. specialize (Hfin [] false). simpl in Hfin.
    rewrite app_nil_r in Hfin. apply Hfin. discriminate.
Qed.

Lemma prelude_reused sc s c s' :
  requestPrelude sc s = (Val (c, true), s') ->
  s' = mkSt (this s) (vars s) (trace s ++ [ASend c true])
  /\ wsConnection (this s) = Some c.
Proof.
  destruct s as [[ru wc wi lk op] v tr].
  unfold_steps. simpl. intros H.
  crunch; split; reflexivity.
Qed.


Lemma finally_counts p s :
  p AResolveOwnLock = false -> (forall c, p (AClose c) = false) ->
  count p (trace (finallyClause s)) = count p (trace s).
Proof.
  intros Hr Hc. destruct s as [[ru wc wi lk op] [tk rl rc sw] tr].
  unfold finallyClause, releaseLock. unfold_steps. simpl.
  crunch; count_simpl; rewrite ?Hr, ?Hc; simpl; lia.
Qed.


(** C2: the frame went out on a reused connection and the first read
    gives the no-more-frames sentinel. The call is rejected with the
    "may have been accepted" error itself, which is not the no-event
    wrapper, and the trace holds that one send and no reconnect. *)
Theorem no_replay_after_reused_close
    (sc : script) (m : model) (s1 : st) (c : nat) (s2 : st)
    (rest : list frameStep) :
  acquireWebSocketRequestLock sc (begin m) = (Val tt, s1) ->
  requestPrelude sc s1 = (Val (c, true), s2) ->
  frames sc = ReadNull :: rest ->
  let r := iterWebSocketResponseEvents sc m in
  r.1 = Rejected (newError MSG_MAY_HAVE_BEEN_ACCEPTED)
  /\ (forall e, newError MSG_MAY_HAVE_BEEN_ACCEPTED <> wrapNoEvent e)
  /\ List.filter isSend (trace r.2) = [ASend c true]
  /\ count isReconnect (trace r.2) = 0%nat.
Proof.
  intros Hacq Hpre Hframes. unfold iterWebSocketResponseEvents.
  rewrite Hacq. unfold requestBody, mbind, M_bind. rewrite Hpre, Hframes.
  apply acquire_cases in Hacq
    as [(_ & _ & ->) | [(e & [=] & _) | [(e & [=] & _) | [[=] _]]]].
  apply prelude_reused in Hpre as [-> Hcache]. simpl in Hcache.
  destruct m as [ru wc wi lk op]. simpl in Hcache. subst wc.
  unfold finallyClause, releaseLock. unfold_steps. simpl.
  split; [reflexivity | split; [| split]].
  - intros e He. discriminate He.
  - destruct ru; reflexivity.
  - destruct ru; reflexivity.
Qed.

(** C4: when the call fails before any event was received with an error
    of the closed-before-opening or closed-before-terminal-event kind,
    and that error is not an abort, the caller gets the one wrapper
    error, with the "feature may not be enabled" message and the original
    error as its cause. An abort error always reaches the caller as
    itself. *)
Theorem no_event_failure_wrapped_abort_passed
    (sc : script) (m : model) (e : thrown) (received : bool) :
  originalFailure sc m = Some (e, received) ->
  (received = false -> shouldWrapNoEventWebSocketError e = true ->
   isAbort e = false ->
   (iterWebSocketResponseEvents sc m).1 = Rejected (wrapNoEvent e)
   /\ cause (wrapNoEvent e) = Some e
   /\ message (wrapNoEvent e) = MSG_FEATURE_NOT_ENABLED)
  /\ (isAbort e = true -> (iterWebSocketResponseEvents sc m).1 = Rejected e).
Proof.
  unfold originalFailure, iterWebSocketResponseEvents.
  destruct (acquireWebSocketRequestLock sc (begin m)) as [ra s1] eqn:Hacq.
  apply acquire_cases in Hacq
    as [(-> & _ & ->) | [(e' & -> & -> & Hw & _)
                         | [(e' & -> & Hw & _ & ->) | [-> _]]]].
  - destruct (requestBody sc _) as [[[] | e' | |] s2]; try discriminate.
    intros [= -> <-]. simpl. split.
    + intros Hrc Hwrap Hab. rewrite Hrc. unfold catchClause.
      rewrite Hwrap, Hab. simpl. repeat split.
      unfold shouldWrapNoEventWebSocketError in Hwrap.
      destruct e as [[] n msg ca]; simpl in *; try discriminate; reflexivity.
    + intros Hab. unfold catchClause. rewrite Hab, andb_false_r. reflexivity.
  - intros [= -> <-]. split; [congruence | reflexivity].
  - intros [= -> <-]. split; [congruence | reflexivity].
  - discriminate.
Qed.

(** *** Concrete runs *)

Lemma cacheKnown_idle : cacheKnown idle.
Proof. intros c H. discriminate H. Qed.

Lemma connection_kept_iff_terminal_and_reuse_witness :
  exists c,
    wsConnection (this (iterWebSocketResponseEvents
                          (answered "response.completed") idle).2) = Some c
    /\ ~ In (AClose c)
           (trace (iterWebSocketResponseEvents
                     (answered "response.completed") idle).2).
Proof.
  pose proof (connection_kept_iff_terminal_and_reuse
                (answered "response.completed") idle _
                cacheKnown_idle eq_refl) as H.
  simpl in H. destruct H as (c & Hc & _ & _ & Hclosed).
  - vm_compute. discriminate.
  - exists c. split; [exact Hc | exact Hclosed].
Defined.

(** C1 as the specification words it keeps the connection only after a
    success terminal event. With reuse enabled, a call answered by
    [response.failed] settles with the connection still cached. *)
Lemma failed_terminal_keeps_connection :
  ~ (forall (sc : script) (m : model),
       cacheKnown m ->
       (iterWebSocketResponseEvents sc m).1 <> Pending ->
       wsConnection (this (iterWebSocketResponseEvents sc m).2) <> None ->
       last (yielded (trace (iterWebSocketResponseEvents sc m).2))
       = Some (Some "response.completed")
       /\ reuseConnection m = true).
Proof.
  intros H.
  destruct (H (answered "response.failed") idle cacheKnown_idle) as [Hlast _].
  - vm_compute. discriminate.
  - vm_compute. discriminate.
  - vm_compute in Hlast. discriminate Hlast.
Qed.

Lemma no_replay_after_reused_close_witness :
  (iterWebSocketResponseEvents closedEarly warm).1
  = Rejected (newError MSG_MAY_HAVE_BEEN_ACCEPTED)
  /\ List.filter isSend (trace (iterWebSocketResponseEvents closedEarly warm).2)
     = [ASend 0%nat true].
Proof.
  pose proof (no_replay_after_reused_close closedEarly warm _ 0%nat _ []
                eq_refl eq_refl eq_refl) as (Hst & _ & Hsends & _).
  split; [exact Hst | exact Hsends].
Defined.


Lemma no_event_failure_wrapped_abort_passed_witness :
  (iterWebSocketResponseEvents closedEarly idle).1
  = Rejected (wrapNoEvent
                (newInternalError
                   connection_closed_before_terminal_response_event
                   MSG_CLOSED_BEFORE_TERMINAL)).
Proof.
  pose proof (no_event_failure_wrapped_abort_passed closedEarly idle
                (newInternalError
                   connection_closed_before_terminal_response_event
                   MSG_CLOSED_BEFORE_TERMINAL)
                false eq_refl) as [H _].
  destruct (H eq_refl eq_refl eq_refl) as [Hst _]. exact Hst.
Defined.

Lemma lock_released_exactly_once_witness :
  let succeeded := iterWebSocketResponseEvents (answered "response.completed")
                     idle in
  let failed := iterWebSocketResponseEvents closedEarly warm in
  let timedOut := iterWebSocketResponseEvents queueTimeout warm in
  (succeeded.1 = Returned
   /\ count isResolve (trace succeeded.2) = 1%nat
   /\ (exists closes,
         trace succeeded.2
         = [AEnqueue; AConnect 0%nat; ASend 0%nat true;
            AYield (Some "response.completed")]
           ++ closes ++ [AResolveOwnLock])
   /\ wsRequestLock (this succeeded.2) = [true])
  /\ ((exists e, failed.1 = Rejected e)
      /\ count isResolve (trace failed.2) = 1%nat
      /\ (exists closes,
            trace failed.2
            = [AEnqueue; ASend 0%nat true] ++ closes ++ [AResolveOwnLock])
      /\ wsRequestLock (this failed.2) = [true; true])
  /\ (count isResolve (trace timedOut.2) = 1%nat
      /\ wsRequestLock (this timedOut.2) = [true; true]).
Proof.
  simpl. split; [| split].
  - destruct (lock_released_exactly_once (answered "response.completed") idle
                eq_refl) as (Hsettles & Hcounts & Hfinally & _).
    assert (Hs : (iterWebSocketResponseEvents (answered "response.completed")
                    idle).1 <> Pending).
    { apply Hsettles; [discriminate | reflexivity]. }
    destruct (Hcounts Hs) as (_ & Hres & Hlock & _).
    destruct (Hfinally _ eq_refl) as (_ & _ & Hbody).
    destruct (Hbody _ _ eq_refl) as (_ & _ & Hend).
    destruct Hend as (_ & _ & closes & Htr & _); [discriminate |].
    split; [reflexivity | split; [exact Hres | split; [| exact Hlock]]].
    exists closes. exact Htr.
  - destruct (lock_released_exactly_once closedEarly warm eq_refl)
      as (Hsettles & Hcounts & Hfinally & _).
    assert (Hs : (iterWebSocketResponseEvents closedEarly warm).1 <> Pending).
    { apply Hsettles; [discriminate | reflexivity]. }
    destruct (Hcounts Hs) as (_ & Hres & Hlock & _).
    destruct (Hfinally _ eq_refl) as (_ & _ & Hbody).
    destruct (Hbody _ _ eq_refl) as (_ & _ & Hend).
    destruct Hend as (_ & _ & closes & Htr & _); [discriminate |].
    split; [eexists; reflexivity
           | split; [exact Hres | split; [| exact Hlock]]].
    exists closes. exact Htr.
  - destruct (lock_released_exactly_once queueTimeout warm eq_refl)
      as (_ & Hcounts & _).
    assert (Hs : (iterWebSocketResponseEvents queueTimeout warm).1 <> Pending).
    { vm_compute. discriminate. }
    destruct (Hcounts Hs) as (_ & Hres & Hlock & _).
    split; [exact Hres | exact Hlock].
Defined.

(** 'reuses the websocket connection across sequential requests': the
    second call finds connection [0] cached and sends on it. *)
Example sequential_requests_share_connection :
  let first := iterWebSocketResponseEvents (answered "response.completed") idle in
  let second :=
    iterWebSocketResponseEvents (answered "response.completed") (this first.2) in
  first.1 = Returned /\ second.1 = Returned
  /\ trace second.2
     = [AEnqueue; ASend 0%nat true; AYield (Some "response.completed");
        AResolveOwnLock]
  /\ wsRequestLock (this second.2) = [true; true].
Proof. vm_compute. repeat split; reflexivity. Qed.

(** 'drops the websocket connection after terminal events when reuse is
    disabled'. *)
Example reuse_disabled_drops :
  let r := iterWebSocketResponseEvents (answered "response.completed")
             (mkModel false None None [] 0) in
  wsConnection (this r.2) = None
  /\ trace r.2
     = [AEnqueue; AConnect 0%nat; ASend 0%nat true;
        AYield (Some "response.completed"); AClose 0%nat; AResolveOwnLock].
Proof. vm_compute. split; reflexivity. Qed.

(** A socket that closes before opening surfaces as the wrapper, with the
    internal error as its cause; an abort surfaces as itself, and both
    release the slot. *)
Example closed_before_opening_is_wrapped :
  (iterWebSocketResponseEvents neverOpens idle).1
  = Rejected (Thrown ClsError "Error" MSG_FEATURE_NOT_ENABLED
                (Some (newInternalError connection_closed_before_opening
                         MSG_CLOSED_BEFORE_OPENING)))
  /\ wsRequestLock (this (iterWebSocketResponseEvents neverOpens idle).2)
     = [true].
Proof. vm_compute. split; reflexivity. Qed.

Example abort_is_passed_through :
  (iterWebSocketResponseEvents abortedMidway warm).1
  = Rejected newAPIUserAbortError
  /\ trace (iterWebSocketResponseEvents abortedMidway warm).2
     = [AEnqueue; AClose 0%nat; AResolveOwnLock].
Proof. vm_compute. split; reflexivity. Qed.

End WSModelFacts.

(** ** A connection under interleaved reads, aborts and events *)

Module ConnectionOpsFacts.
Import Errors Connection ConnectionOps.
#[local] Open Scope list_scope.

Lemma run_snoc (ops : list op) (o : op) (s : session) :
  run (ops ++ [o]) s = step (run ops s) o.
Proof. unfold run. rewrite fold_left_app. reflexivity. Qed.

(** *** What a step does to the connection object *)

Lemma deliver_frame (s : session) (x : nat * settle) :
  conn (deliver s x) = conn s
  /\ signals (deliver s x) = signals s
  /\ abortedSignals (deliver s x) = abortedSignals s.
Proof.
  destruct x as [w st]. unfold deliver.
  destruct (signals s !! w) as [[g |] |]; simpl; auto.
Qed.

Lemma fold_deliver_frame (l : list (nat * settle)) :
  forall s,
    conn (fold_left deliver l s) = conn s
    /\ signals (fold_left deliver l s) = signals s
    /\ abortedSignals (fold_left deliver l s) = abortedSignals s.
Proof.
  induction l as [| x l IH]; intros s; simpl; [auto |].
  destruct (IH (deliver s x)) as (-> & -> & ->). apply deliver_frame.
Qed.

Lemma callNextFrame_frame (signal : option nat) (s : session) :
  conn (callNextFrame signal s)
  = (nextFrame (isAborted signal s) (issued s) (conn s)).2
  /\ signals (callNextFrame signal s) = signals s ++ [signal]
  /\ abortedSignals (callNextFrame signal s) = abortedSignals s.
Proof.
  unfold callNextFrame.
  destruct (nextFrame (isAborted signal s) (issued s) (conn s)) as [r c].
  destruct signal as [g |]; simpl; [| auto].
  destruct (bool_decide (g ∈ abortedSignals s)); simpl; [auto |].
  destruct (settlement r); simpl; auto.
Qed.

Lemma conn_step (s : session) (o : op) :
  conn (step s o)
  = match o with
    | OpRead signal => (nextFrame (isAborted signal s) (issued s) (conn s)).2
    | OpEvent ev => (dispatchSettle ev (conn s)).1
    | _ => conn s
    end.
Proof.
  destruct o as [signal | ev | g |]; simpl.
  - apply callNextFrame_frame.
  - unfold event. destruct (dispatchSettle ev (conn s)) as [c settled].
    destruct (fold_deliver_frame settled
                (mkSession c (signals s) (abortedSignals s) (waiting s)
                   (reactions s) (answers s))) as [-> _].
    reflexivity.
  - unfold abort. destruct (bool_decide (g ∈ abortedSignals s)); reflexivity.
  - reflexivity.
Qed.

(** A property of the connection object that reads and socket events
    keep is kept by every run. *)
Lemma conn_invariant (P : t -> Prop) :
  (forall a w c, P c -> P (nextFrame a w c).2) ->
  (forall ev c, P c -> P (dispatchSettle ev c).1) ->
  forall ops s, P (conn s) -> P (conn (run ops s)).
Proof.
  intros Hread Hevent ops. induction ops as [| o ops IH]; intros s Hs;
    [exact Hs |].
  simpl. apply IH. rewrite conn_step.
  destruct o; auto.
Qed.

Lemma nextFrame_keeps_idle a w c :
  parkedOnlyWhenIdle c -> parkedOnlyWhenIdle (nextFrame a w c).2.
Proof.
  destruct c as [ms ws cl er]. unfold parkedOnlyWhenIdle. simpl.
  intros Hinv. unfold nextFrame. destruct a; simpl; [exact Hinv |].
  unfold nextFrameInternal. simpl.
  destruct ms as [| m ms]; simpl.
  - destruct er as [e |]; simpl; [exact Hinv |].
    destruct cl; simpl; [exact Hinv | auto].
  - intros Hw. destruct (Hinv Hw) as [Hm _]. discriminate Hm.
Qed.

Lemma dispatch_keeps_idle ev c :
  parkedOnlyWhenIdle c -> parkedOnlyWhenIdle (dispatchSettle ev c).1.
Proof.
  destruct c as [ms ws cl er]. unfold parkedOnlyWhenIdle. simpl.
  intros Hinv. destruct ev as [d | e |]; simpl.
  - unfold onMessage. simpl. destruct ws as [| w ws]; simpl.
    + intros Hw. contradiction.
    + intros _. apply Hinv. discriminate.
  - intros Hw. contradiction.
  - intros Hw. contradiction.
Qed.

(** X1: whatever reads, abort signals and socket events a connection
    goes through, in whatever order, a waiter is only ever left parked
    while the buffer is empty and the socket has neither closed nor
    failed: the frame buffer and the waiter queue are never both
    occupied, and no waiter stays parked on a closed or failed
    connection. *)
Theorem reads_parked_only_when_idle (ops : list op) :
  parkedOnlyWhenIdle (conn (run ops start)).
Proof.
  apply (conn_invariant parkedOnlyWhenIdle).
  - intros a w c. apply nextFrame_keeps_idle.
  - intros ev c. apply dispatch_keeps_idle.
  - intros Hw. simpl in Hw. contradiction.
Qed.

(** *** Closing and failing are final *)

Lemma nextFrame_keeps_dead a w c :
  (closed c = true \/ is_Some (error c)) /\ waiters c = [] ->
  (closed (nextFrame a w c).2 = true \/ is_Some (error (nextFrame a w c).2))
  /\ waiters (nextFrame a w c).2 = [].
Proof.
  destruct c as [ms ws cl er]. simpl. intros [Hdead ->].
  unfold nextFrame. destruct a; simpl; [auto |].
  unfold nextFrameInternal. simpl.
  destruct ms as [| m ms]; simpl; [| auto].
  destruct er as [e |]; simpl; [auto |].
  destruct cl; simpl; [auto |].
  destruct Hdead as [H | [x H]]; discriminate H.
Qed.

Lemma dispatch_keeps_dead ev c :
  (closed c = true \/ is_Some (error c)) /\ waiters c = [] ->
  (closed (dispatchSettle ev c).1 = true
   \/ is_Some (error (dispatchSettle ev c).1))
  /\ waiters (dispatchSettle ev c).1 = [].
Proof.
  destruct c as [ms ws cl er]. simpl. intros [Hdead ->].
  destruct ev as [d | e |]; simpl; auto.
Qed.

Lemma dead_not_reusable (rs : readyState) (c : t) :
  closed c = true \/ is_Some (error c) -> isReusable rs c = false.
Proof.
  unfold isReusable. intros [-> | [e ->]]; [reflexivity |].
  destruct (closed c); reflexivity.
Qed.

(** X4: closing and failing are final. Once a close event or an error
    event has reached the connection, nothing that follows (frames,
    further events, reads, aborts) makes [isReusable] true again,
    whatever the socket reports as its ready state, and no later read
    is left parked. *)
Theorem closed_or_failed_is_final (before after : list op) (s : session)
    (e : thrown) (rs : readyState) :
  (isReusable rs (conn (run (before ++ OpEvent EvClose :: after) s)) = false
   /\ waiters (conn (run (before ++ OpEvent EvClose :: after) s)) = [])
  /\ (isReusable rs (conn (run (before ++ OpEvent (EvError e) :: after) s))
      = false
      /\ waiters (conn (run (before ++ OpEvent (EvError e) :: after) s)) = []).
Proof.
  assert (Hfinal : forall ev,
             (forall c, (closed (dispatchSettle ev c).1 = true
                         \/ is_Some (error (dispatchSettle ev c).1))
                        /\ waiters (dispatchSettle ev c).1 = []) ->
             isReusable rs (conn (run (before ++ OpEvent ev :: after) s))
             = false
             /\ waiters (conn (run (before ++ OpEvent ev :: after) s)) = []).
  { intros ev Hev. unfold run. rewrite fold_left_app. simpl.
    fold (run before s). fold (run after (step (run before s) (OpEvent ev))).
    destruct (conn_invariant
                (fun c => (closed c = true \/ is_Some (error c))
                          /\ waiters c = [])
                (fun a w c => nextFrame_keeps_dead a w c)
                (fun ev c => dispatch_keeps_dead ev c)
                after (step (run before s) (OpEvent ev))) as [Hd Hw].
    { rewrite conn_step. apply Hev. }
    split; [apply dead_not_reusable, Hd | exact Hw]. }
  split; apply Hfinal; intros c; destruct c as [ms ws cl er]; simpl.
  - auto.
  - split; [right; eexists; reflexivity | reflexivity].
Qed.

(** X5: the errors the connection raises itself fall on the intended
    sides of the model's two classifiers. What [send] throws on a socket
    that is not open is a not-open error (so one reconnect is tried) and
    is neither wrapped as a no-event close nor an abort; what the head
    of [waitForOpen] throws when no socket error was recorded is wrapped
    as a no-event close and is not a not-open error (so it is never
    retried). *)
Theorem own_errors_classified (rs : readyState) (c : t) (e : thrown) :
  (send rs = Some e ->
   isWebSocketNotOpenError e = true
   /\ shouldWrapNoEventWebSocketError e = false /\ isAbort e = false)
  /\ (error c = None -> waitForOpenHead rs c = FailsNow e ->
      shouldWrapNoEventWebSocketError e = true
      /\ isWebSocketNotOpenError e = false /\ isAbort e = false).
Proof.
  split.
  - unfold send. destruct (isOpen rs); [discriminate |].
    intros [= <-]. repeat split.
  - unfold waitForOpenHead. intros ->.
    destruct (isOpen rs); [discriminate |].
    destruct (closed c || _); [| discriminate].
    intros [= <-]. repeat split.
Qed.

Lemma own_errors_classified_witness :
  isWebSocketNotOpenError (newInternalError socket_not_open MSG_NOT_OPEN) = true
  /\ shouldWrapNoEventWebSocketError
       (newInternalError connection_closed_before_opening
          MSG_CLOSED_BEFORE_OPENING) = true.
Proof.
  destruct (own_errors_classified CLOSED fresh
              (newInternalError socket_not_open MSG_NOT_OPEN)) as [H1 _].
  destruct (own_errors_classified CLOSING fresh
              (newInternalError connection_closed_before_opening
                 MSG_CLOSED_BEFORE_OPENING)) as [_ H2].
  split.
  - apply H1. reflexivity.
  - apply H2; reflexivity.
Defined.

(** *** Accounting for every read *)

Lemma plain_snoc (sigs : list (option nat)) (x : option nat) (ws : list nat) :
  (forall w, w ∈ ws -> (w < List.length sigs)%nat) ->
  filter (fun w => (sigs ++ [x]) !! w = Some None) ws
  = filter (fun w => sigs !! w = Some None) ws.
Proof.
  induction ws as [| w ws IH]; intros Hb; [reflexivity |].
  rewrite !filter_cons, IH by (intros w' Hw'; apply Hb; right; exact Hw').
  rewrite lookup_app_l by (apply Hb; left).
  reflexivity.
Qed.

Lemma plain_new (sigs : list (option nat)) (x : option nat) :
  filter (fun w => (sigs ++ [x]) !! w = Some None) [List.length sigs]
  = match x with None => [List.length sigs] | Some _ => [] end.
Proof.
  rewrite filter_cons, filter_nil.
  rewrite lookup_app_r, Nat.sub_diag by lia. simpl.
  destruct x as [g |]; simpl.
  - destruct (decide (Some (Some g) = Some None)) as [H | _];
      [discriminate H | reflexivity].
  - destruct (decide (Some None = Some (@None nat))) as [_ | H];
      [reflexivity | contradiction].
Qed.

Lemma seq_snoc (n : nat) : seq 0 (S n) = seq 0 n ++ [n].
Proof. rewrite seq_S. reflexivity. Qed.

Section OneRead.

Variable s : session.
Hypothesis Hs : wellAccounted s.
Variable c' : t.

Lemma grown_signals (x : option nat) (w : nat) :
  w ∈ waiters (conn s) -> (signals s ++ [x]) !! w = signals s !! w.
Proof.
  intros Hw. destruct Hs as (_ & Hb & _).
  apply lookup_app_l. apply Hb, Hw.
Qed.

Lemma acc_answer (signal : option nat) (st : settle) :
  waiters c' = waiters (conn s) ->
  wellAccounted
    (mkSession c' (signals s ++ [signal]) (abortedSignals s) (waiting s)
       (reactions s) (answers s ++ [(issued s, st)])).
Proof.
  intros Hw. pose proof Hs as (Hacc & Hb & Hwait).
  unfold wellAccounted, accountedReads, accounted, plainWaiters, issued in *.
  simpl. rewrite Hw, length_app, Nat.add_1_r, seq_snoc, <- Hacc.
  rewrite plain_snoc by exact Hb. rewrite map_app. simpl.
  split; [solve_Permutation | split].
  - intros w Hin. specialize (Hb w Hin). lia.
  - intros w g Hin. destruct (Hwait w g Hin) as [H1 H2].
    split; [exact H1 |]. rewrite lookup_app_l by (apply Hb, H1). exact H2.
Qed.

Lemma acc_reaction (g : nat) (st : settle) :
  waiters c' = waiters (conn s) ->
  wellAccounted
    (mkSession c' (signals s ++ [Some g]) (abortedSignals s) (waiting s)
       (reactions s ++ [(issued s, g, st)]) (answers s)).
Proof.
  intros Hw. pose proof Hs as (Hacc & Hb & Hwait).
  unfold wellAccounted, accountedReads, accounted, plainWaiters, issued in *.
  simpl. rewrite Hw, length_app, Nat.add_1_r, seq_snoc, <- Hacc.
  rewrite plain_snoc by exact Hb. rewrite map_app. simpl.
  split; [solve_Permutation | split].
  - intros w Hin. specialize (Hb w Hin). lia.
  - intros w g' Hin. destruct (Hwait w g' Hin) as [H1 H2].
    split; [exact H1 |]. rewrite lookup_app_l by (apply Hb, H1). exact H2.
Qed.

Lemma acc_wait (g : nat) :
  waiters c' = waiters (conn s) ++ [issued s] ->
  wellAccounted
    (mkSession c' (signals s ++ [Some g]) (abortedSignals s)
       (waiting s ++ [(issued s, g)]) (reactions s) (answers s)).
Proof.
  intros Hw. pose proof Hs as (Hacc & Hb & Hwait).
  unfold wellAccounted, accountedReads, accounted, plainWaiters, issued in *.
  simpl. rewrite Hw, length_app, Nat.add_1_r, seq_snoc, <- Hacc.
  rewrite filter_app, plain_snoc by exact Hb.
  rewrite plain_new, map_app. simpl.
  split; [solve_Permutation | split].
  - intros w Hin. apply elem_of_app in Hin as [Hin | Hin].
    + specialize (Hb w Hin). lia.
    + apply list_elem_of_singleton in Hin. subst w. lia.
  - intros w g' Hin. apply elem_of_app in Hin as [Hin | Hin].
    + destruct (Hwait w g' Hin) as [H1 H2].
      split; [apply elem_of_app; left; exact H1 |].
      rewrite lookup_app_l by (apply Hb, H1). exact H2.
    + apply list_elem_of_singleton in Hin. injection Hin as -> ->.
      split; [apply elem_of_app; right; apply list_elem_of_singleton;
              reflexivity |].
      rewrite lookup_app_r, Nat.sub_diag by lia. reflexivity.
Qed.

Lemma acc_park :
  waiters c' = waiters (conn s) ++ [issued s] ->
  wellAccounted
    (mkSession c' (signals s ++ [None]) (abortedSignals s) (waiting s)
       (reactions s) (answers s)).
Proof.
  intros Hw. pose proof Hs as (Hacc & Hb & Hwait).
  unfold wellAccounted, accountedReads, accounted, plainWaiters, issued in *.
  simpl. rewrite Hw, length_app, Nat.add_1_r, seq_snoc, <- Hacc.
  rewrite filter_app, plain_snoc by exact Hb.
  rewrite plain_new.
  split; [solve_Permutation | split].
  - intros w Hin. apply elem_of_app in Hin as [Hin | Hin].
    + specialize (Hb w Hin). lia.
    + apply list_elem_of_singleton in Hin. subst w. lia.
  - intros w g' Hin. destruct (Hwait w g' Hin) as [H1 H2].
    split; [apply elem_of_app; left; exact H1 |].
    rewrite lookup_app_l by (apply Hb, H1). exact H2.
Qed.

End OneRead.

Lemma callNextFrame_accounted (signal : option nat) (s : session) :
  wellAccounted s -> wellAccounted (callNextFrame signal s).
Proof.
  intros Hs. unfold callNextFrame, nextFrame, throwIfAborted.
  destruct signal as [g |]; simpl.
  - destruct (bool_decide (g ∈ abortedSignals s)); simpl.
    + apply acc_answer; [exact Hs | reflexivity].
    + unfold nextFrameInternal.
      destruct (messages (conn s)) as [| m ms]; simpl.
      * destruct (error (conn s)) as [e |]; simpl.
        { apply acc_reaction; [exact Hs | reflexivity]. }
        destruct (closed (conn s)); simpl.
        { apply acc_reaction; [exact Hs | reflexivity]. }
        apply acc_wait; [exact Hs | reflexivity].
      * apply acc_reaction; [exact Hs | reflexivity].
  - unfold nextFrameInternal.
    destruct (messages (conn s)) as [| m ms]; simpl.
    + destruct (error (conn s)) as [e |]; simpl.
      { apply acc_answer; [exact Hs | reflexivity]. }
      destruct (closed (conn s)); simpl.
      { apply acc_answer; [exact Hs | reflexivity]. }
      rewrite app_nil_r. apply acc_park; [exact Hs | reflexivity].
    + apply acc_answer; [exact Hs | reflexivity].
Qed.

Lemma deliver_accounted (s : session) (w : nat) (st : settle)
    (rest : list nat) :
  accounted s (w :: rest) ≡ₚ seq 0 (issued s) ->
  accounted (deliver s (w, st)) rest
  ≡ₚ seq 0 (issued (deliver s (w, st))).
Proof.
  unfold accounted, issued, plainWaiters, deliver. rewrite filter_cons.
  destruct (signals s !! w) as [[g |] |] eqn:Hw; simpl.
  - destruct (decide (Some (Some g) = Some None)) as [H | _];
      [discriminate H |].
    intros <-. rewrite map_app, map_map. simpl.
    assert (Hp : map fst (waiting s)
                 ≡ₚ map fst (filter (fun r => r.1 = w) (waiting s))
                    ++ map fst (filter (fun r => r.1 <> w) (waiting s))).
    { rewrite <- map_app.
      rewrite (filter_app_complement (fun r => r.1 = w) (waiting s)).
      reflexivity. }
    rewrite Hp. solve_Permutation.
  - destruct (decide (Some None = Some (@None nat))) as [_ | H];
      [| contradiction].
    intros <-. rewrite map_app. simpl. solve_Permutation.
  - destruct (decide (None = Some (@None nat))) as [H | _];
      [discriminate H |].
    intros H. exact H.
Qed.

Lemma deliver_waiting (s : session) (w : nat) (st : settle)
    (rest : list nat) :
  (forall w' g, (w', g) ∈ waiting s ->
                w' ∈ w :: rest /\ signals s !! w' = Some (Some g)) ->
  forall w' g, (w', g) ∈ waiting (deliver s (w, st)) ->
               w' ∈ rest /\ signals (deliver s (w, st)) !! w' = Some (Some g).
Proof.
  intros Hwait w' g.
  assert (Hsig : signals (deliver s (w, st)) = signals s)
    by apply (deliver_frame s (w, st)).
  rewrite Hsig. unfold deliver.
  destruct (signals s !! w) as [[g0 |] |] eqn:Hw; simpl; intros Hin.
  - apply list_elem_of_filter in Hin as [Hne Hin]. simpl in Hne.
    destruct (Hwait w' g Hin) as [H1 H2]. split; [| exact H2].
    apply elem_of_cons in H1 as [-> | H1]; [contradiction | exact H1].
  - destruct (Hwait w' g Hin) as [H1 H2]. split; [| exact H2].
    apply elem_of_cons in H1 as [-> | H1]; [congruence | exact H1].
  - destruct (Hwait w' g Hin) as [H1 H2]. split; [| exact H2].
    apply elem_of_cons in H1 as [-> | H1]; [congruence | exact H1].
Qed.

Lemma fold_deliver_accounted (l : list (nat * settle)) :
  forall (rest : list nat) (s : session),
    accounted s (map fst l ++ rest) ≡ₚ seq 0 (issued s) ->
    (forall w g, (w, g) ∈ waiting s ->
                 w ∈ map fst l ++ rest /\ signals s !! w = Some (Some g)) ->
    accounted (fold_left deliver l s) rest
    ≡ₚ seq 0 (issued (fold_left deliver l s))
    /\ (forall w g, (w, g) ∈ waiting (fold_left deliver l s) ->
                    w ∈ rest
                    /\ signals (fold_left deliver l s) !! w = Some (Some g)).
Proof.
  induction l as [| [w st] l IH]; intros rest s Hacc Hwait; simpl in *.
  - split; assumption.
  - apply IH.
    + apply deliver_accounted, Hacc.
    + apply deliver_waiting, Hwait.
Qed.

Lemma dispatch_waiters (ev : socketEvent) (c : t) :
  waiters c
  = map fst (dispatchSettle ev c).2 ++ waiters (dispatchSettle ev c).1.
Proof.
  destruct c as [ms ws cl er]. destruct ev as [d | e |]; simpl.
  - unfold onMessage. simpl. destruct ws as [| w ws]; reflexivity.
  - rewrite map_map, app_nil_r. simpl. symmetry. apply map_id.
  - rewrite map_map, app_nil_r. simpl. symmetry. apply map_id.
Qed.

Lemma event_accounted (ev : socketEvent) (s : session) :
  wellAccounted s -> wellAccounted (event ev s).
Proof.
  intros (Hacc & Hb & Hwait). unfold event.
  pose proof (dispatch_waiters ev (conn s)) as Hws.
  destruct (dispatchSettle ev (conn s)) as [c settled]. simpl in Hws.
  set (s0 := mkSession c (signals s) (abortedSignals s) (waiting s)
               (reactions s) (answers s)).
  destruct (fold_deliver_frame settled s0) as (Hc & Hsig & _).
  destruct (fold_deliver_accounted settled (waiters c) s0) as [Hacc' Hwait'].
  { rewrite <- Hws. exact Hacc. }
  { intros w g Hin. rewrite <- Hws. apply (Hwait w g Hin). }
  unfold wellAccounted, accountedReads. rewrite Hc. simpl.
  split; [exact Hacc' | split; [| exact Hwait']].
  intros w Hin. unfold issued. rewrite Hsig. simpl.
  apply Hb. rewrite Hws. apply elem_of_app. right. exact Hin.
Qed.

Lemma abort_accounted (g : nat) (s : session) :
  wellAccounted s -> wellAccounted (abort g s).
Proof.
  intros (Hacc & Hb & Hwait). unfold abort.
  destruct (bool_decide (g ∈ abortedSignals s));
    [split; [exact Hacc | split; [exact Hb | exact Hwait]] |].
  unfold wellAccounted, accountedReads, accounted, plainWaiters, issued in *.
  simpl. split; [| split; [exact Hb |]].
  - rewrite <- Hacc, !map_app, !map_map. simpl.
    assert (Hw : map fst (waiting s)
                 ≡ₚ map fst (filter (fun r => r.2 = g) (waiting s))
                    ++ map fst (filter (fun r => r.2 <> g) (waiting s))).
    { rewrite <- map_app.
      rewrite (filter_app_complement (fun r => r.2 = g) (waiting s)).
      reflexivity. }
    assert (Hq : map (fun r => r.1.1) (reactions s)
                 ≡ₚ map (fun r => r.1.1)
                      (filter (fun r => r.1.2 = g) (reactions s))
                    ++ map (fun r => r.1.1)
                         (filter (fun r => r.1.2 <> g) (reactions s))).
    { rewrite <- map_app.
      rewrite (filter_app_complement (fun r => r.1.2 = g) (reactions s)).
      reflexivity. }
    rewrite Hw, Hq. solve_Permutation.
  - intros w g' Hin. apply list_elem_of_filter in Hin as [_ Hin].
    apply (Hwait w g' Hin).
Qed.

Lemma runReactions_accounted (s : session) :
  wellAccounted s -> wellAccounted (runReactions s).
Proof.
  intros (Hacc & Hb & Hwait).
  unfold wellAccounted, accountedReads, accounted, plainWaiters, issued,
    runReactions in *.
  simpl. split; [| split; [exact Hb | exact Hwait]].
  rewrite <- Hacc, map_app, map_map. simpl. solve_Permutation.
Qed.

Lemma run_accounted (ops : list op) (s : session) :
  wellAccounted s -> wellAccounted (run ops s).
Proof.
  revert s. induction ops as [| o ops IH]; intros s Hs; [exact Hs |].
  simpl. apply IH. destruct o as [signal | ev | g |]; simpl.
  - apply callNextFrame_accounted, Hs.
  - apply event_accounted, Hs.
  - apply abort_accounted, Hs.
  - apply runReactions_accounted, Hs.
Qed.

Lemma start_accounted : wellAccounted start.
Proof.
  split; [reflexivity | split].
  - intros w Hw. simpl in Hw. apply elem_of_nil in Hw. contradiction.
  - intros w g Hw. simpl in Hw. apply elem_of_nil in Hw. contradiction.
Qed.

(** X3: no read is lost and none is answered twice, also when abort
    signals fire. However reads, aborts, socket events and promise
    reactions interleave, every read made is in exactly one of four
    places: answered, with its reaction queued, waiting inside
    [withAbortSignal], or parked without a signal; a read that its abort
    signal rejected counts as answered, although its waiter stays in the
    queue. Once the socket has closed and the queued reactions have run,
    every read made has its one answer. *)
Theorem every_read_answered_once (ops : list op) :
  accountedReads (run ops start) ≡ₚ seq 0 (issued (run ops start))
  /\ NoDup (map fst (answers (run ops start)))
  /\ map fst (answers (run (ops ++ [OpEvent EvClose; OpSettle]) start))
     ≡ₚ seq 0 (issued (run (ops ++ [OpEvent EvClose; OpSettle]) start)).
Proof.
  pose proof (run_accounted ops start start_accounted) as Hs.
  split; [apply Hs | split].
  - destruct Hs as (Hacc & _).
    assert (Hnd : NoDup (accountedReads (run ops start))).
    { rewrite Hacc. apply NoDup_seq. }
    unfold accountedReads, accounted in Hnd.
    apply NoDup_app in Hnd as (Hnd & _). exact Hnd.
  - unfold run. rewrite fold_left_app. fold (run ops start). simpl.
    pose proof (event_accounted EvClose _ Hs) as (Hacc & _ & Hwait).
    pose proof (conn_step (run ops start) (OpEvent EvClose)) as Hc.
    simpl in Hc.
    set (s2 := event EvClose (run ops start)) in *.
    assert (Hws : waiters (conn s2) = []).
    { rewrite Hc. destruct (conn (run ops start)); reflexivity. }
    assert (Hw : waiting s2 = []).
    { destruct (waiting s2) as [| [w g] l] eqn:Heq; [reflexivity |].
      destruct (Hwait w g) as [Hin _]; [left |].
      rewrite Hws in Hin. apply elem_of_nil in Hin. contradiction. }
    unfold accountedReads, accounted, plainWaiters in Hacc.
    rewrite Hws, Hw in Hacc. simpl in Hacc.
    unfold runReactions, issued. simpl.
    rewrite map_app, map_map. simpl.
    rewrite filter_nil, !app_nil_r in Hacc. exact Hacc.
Qed.

(** *** Delivery in order *)

Lemma arrivedFrames_snoc (ops : list op) (o : op) :
  arrivedFrames (ops ++ [o])
  = arrivedFrames ops ++ match o with
                         | OpEvent (EvMessage d) => [d]
                         | _ => []
                         end.
Proof.
  unfold arrivedFrames. rewrite omap_app. simpl.
  destruct o as [signal | [d | e |] | g |]; reflexivity.
Qed.

Lemma readCount_snoc (ops : list op) (o : op) :
  readCount (ops ++ [o])
  = (readCount ops + match o with OpRead _ => 1 | _ => 0 end)%nat.
Proof.
  unfold readCount. rewrite List.filter_app, length_app.
  destruct o as [signal | ev | g |]; reflexivity.
Qed.

Lemma fst_elem_of (W : list (nat * nat)) (w g : nat) :
  (w, g) ∈ W -> w ∈ map fst W.
Proof.
  induction W as [| [w' g'] W IH]; intros Hin.
  - apply elem_of_nil in Hin. contradiction.
  - apply elem_of_cons in Hin as [[= <- <-] | Hin]; simpl.
    + left.
    + right. apply IH, Hin.
Qed.

Lemma filter_absent (W : list (nat * nat)) (w : nat) :
  w ∉ map fst W -> filter (fun r => r.1 = w) W = [].
Proof.
  induction W as [| [w' g'] W IH]; intros Hnotin; [reflexivity |].
  simpl in Hnotin. apply not_elem_of_cons in Hnotin as [Hne Hnotin].
  rewrite filter_cons. simpl.
  destruct (decide (w' = w)) as [Heq | _]; [congruence |].
  apply IH, Hnotin.
Qed.

Lemma filter_unique (W : list (nat * nat)) (w g : nat) :
  NoDup (map fst W) -> (w, g) ∈ W ->
  filter (fun r => r.1 = w) W = [(w, g)].
Proof.
  induction W as [| [w' g'] W IH]; intros Hnd Hin.
  - apply elem_of_nil in Hin. contradiction.
  - simpl in Hnd. apply NoDup_cons in Hnd as [Hnotin Hnd].
    rewrite filter_cons. simpl.
    apply elem_of_cons in Hin as [Heq | Hin].
    + injection Heq as <- <-.
      destruct (decide (w = w)) as [_ | H]; [| contradiction].
      rewrite filter_absent by exact Hnotin. reflexivity.
    + destruct (decide (w' = w)) as [-> | _].
      * exfalso. apply Hnotin. apply (fst_elem_of W w g Hin).
      * apply IH; assumption.
Qed.

Lemma NoDup_fst_filter (P : nat * nat -> Prop) `{!forall x, Decision (P x)}
    (W : list (nat * nat)) :
  NoDup (map fst W) -> NoDup (map fst (filter P W)).
Proof.
  induction W as [| [w g] W IH]; intros Hnd; [constructor |].
  simpl in Hnd. apply NoDup_cons in Hnd as [Hnotin Hnd].
  rewrite filter_cons. destruct (decide (P (w, g))); [| apply IH, Hnd].
  simpl. apply NoDup_cons. split; [| apply IH, Hnd].
  intros Hin. apply Hnotin. clear -Hin.
  induction W as [| [w' g'] W IHW]; [exact Hin |].
  rewrite filter_cons in Hin. destruct (decide (P (w', g'))); simpl in *.
  - apply elem_of_cons in Hin as [-> | Hin]; [left | right; auto].
  - right. auto.
Qed.

Lemma callNextFrame_live (signal : option nat) (s : session) :
  abortedSignals s = [] ->
  callNextFrame signal s
  = let '(r, c) := nextFrameInternal (issued s) (conn s) in
    match signal with
    | Some g =>
        match settlement r with
        | None =>
            mkSession c (signals s ++ [signal]) (abortedSignals s)
              (waiting s ++ [(issued s, g)]) (reactions s) (answers s)
        | Some st =>
            mkSession c (signals s ++ [signal]) (abortedSignals s)
              (waiting s) (reactions s ++ [(issued s, g, st)]) (answers s)
        end
    | None =>
        mkSession c (signals s ++ [signal]) (abortedSignals s) (waiting s)
          (reactions s)
          (answers s ++ option_list (pair (issued s) <$> settlement r))
    end.
Proof.
  intros Hab. unfold callNextFrame, isAborted, nextFrame, throwIfAborted.
  destruct signal as [g |]; [| reflexivity].
  rewrite Hab, bool_decide_eq_false_2 by apply not_elem_of_nil.
  reflexivity.
Qed.

(** The state of a session fed reads, frames and promise reactions
    only. *)
Lemma reads_and_messages_state (ops : list op) :
  onlyReadsAndMessages ops ->
  let s := run ops start in
  let frames := arrivedFrames ops in
  let n := readCount ops in
  issued s = n
  /\ abortedSignals s = []
  /\ messages (conn s) = drop n frames
  /\ waiters (conn s) = seq (List.length frames) (n - List.length frames)
  /\ closed (conn s) = false /\ error (conn s) = None
  /\ map fst (decided s) ≡ₚ seq 0 (Nat.min n (List.length frames))
  /\ (forall i st, (i, st) ∈ decided s ->
                   exists d, frames !! i = Some d /\ st = Resolve (Some d))
  /\ (forall w, (w < n)%nat -> (List.length frames <= w)%nat ->
                signals s !! w = Some None
                \/ exists g, signals s !! w = Some (Some g)
                             /\ (w, g) ∈ waiting s)
  /\ NoDup (map fst (waiting s))
  /\ (forall w g, (w, g) ∈ waiting s ->
                  (List.length frames <= w < n)%nat
                  /\ signals s !! w = Some (Some g)).
Proof.
  induction ops as [| o ops IH] using rev_ind; intros Hall.
  - unfold readCount, arrivedFrames. simpl. do 7 (split; [reflexivity |]).
    split; [intros i st Hin; apply elem_of_nil in Hin; contradiction |].
    split; [intros w Hw; lia |].
    split; [constructor |].
    intros w g Hin. apply elem_of_nil in Hin. contradiction.
  - apply Forall_app in Hall as [Hops Ho].
    apply Forall_cons in Ho as [Ho _].
    specialize (IH Hops). simpl in IH.
    rewrite run_snoc, arrivedFrames_snoc, readCount_snoc.
    remember (arrivedFrames ops) as F eqn:HF.
    remember (readCount ops) as n eqn:Hn.
    destruct (run ops start) as [[ms ws cl er] sigs ab W Q A].
    unfold issued, decided in IH. simpl in IH.
    destruct IH as (Hlen & Hab & Hms & Hws & Hcl & Her & Hdec & Hval
                    & Hpark & Hnd & Hrange).
    subst ab cl er.
    destruct o as [signal | [d | e |] | g |]; try contradiction.
    + (* a read *)
      cbv zeta. rewrite app_nil_r. simpl.
      rewrite callNextFrame_live by reflexivity.
      unfold issued, decided. simpl.
      unfold nextFrameInternal. simpl.
      destruct ms as [| m ms']; simpl.
      * (* nothing buffered: the read parks *)
        assert (Hle : (List.length F <= n)%nat).
        { apply (f_equal List.length) in Hms. rewrite length_drop in Hms.
          simpl in Hms. lia. }
        assert (Hsame : forall w, (w < n)%nat -> forall x,
                          (sigs ++ [x]) !! w = sigs !! w).
        { intros w Hw x. apply lookup_app_l. lia. }
        assert (Hlast : forall x, (sigs ++ [x]) !! List.length sigs = Some x).
        { intros x. rewrite lookup_app_r, Nat.sub_diag by lia. reflexivity. }
        assert (Hws' : ws ++ [List.length sigs]
                       = seq (List.length F) (n + 1 - List.length F)).
        { rewrite Hws.
          replace (n + 1 - List.length F)%nat
            with (S (n - List.length F)) by lia.
          rewrite seq_S. f_equal. f_equal. lia. }
        destruct signal as [g |]; simpl.
        -- rewrite length_app. simpl.
           split; [lia |]. split; [reflexivity |].
           split; [rewrite drop_ge by lia; reflexivity |].
           split; [exact Hws' |]. split; [reflexivity |].
           split; [reflexivity |].
           split; [replace (Nat.min (n + 1) (List.length F))
                     with (Nat.min n (List.length F)) by lia; exact Hdec |].
           split; [exact Hval |].
           split; [| split].
           ++ intros w Hw HwF.
              destruct (decide (w = List.length sigs)) as [-> | Hne].
              ** right. exists g. split; [apply Hlast |].
                 apply elem_of_app. right. left.
              ** rewrite Hsame by lia.
                 destruct (Hpark w) as [Hp | (g' & Hp & Hin)]; try lia;
                   [left; exact Hp |].
                 right. exists g'. split; [exact Hp |].
                 apply elem_of_app. left. exact Hin.
           ++ rewrite map_app. simpl. apply NoDup_app.
              split; [exact Hnd |]. split; [| apply NoDup_singleton].
              intros w Hin Hin'. apply list_elem_of_singleton in Hin'.
              subst w.
              assert (Hex : exists g', (List.length sigs, g') ∈ W).
              { clear -Hin. induction W as [| [w' g'] W IHW];
                  [apply elem_of_nil in Hin; contradiction |].
                simpl in Hin. apply elem_of_cons in Hin as [-> | Hin].
                - exists g'. left.
                - destruct (IHW Hin) as [g0 H0]. exists g0. right. exact H0. }
              destruct Hex as [g' Hg']. destruct (Hrange _ _ Hg'). lia.
           ++ intros w g' Hin. apply elem_of_app in Hin as [Hin | Hin].
              ** destruct (Hrange _ _ Hin) as [Hr Hsig].
                 split; [lia |]. rewrite Hsame by lia. exact Hsig.
              ** apply list_elem_of_singleton in Hin.
                 injection Hin as -> ->. split; [lia | apply Hlast].
        -- rewrite app_nil_r, length_app. simpl.
           split; [lia |]. split; [reflexivity |].
           split; [rewrite drop_ge by lia; reflexivity |].
           split; [exact Hws' |]. split; [reflexivity |].
           split; [reflexivity |].
           split; [replace (Nat.min (n + 1) (List.length F))
                     with (Nat.min n (List.length F)) by lia; exact Hdec |].
           split; [exact Hval |].
           split; [| split; [exact Hnd |]].
           ++ intros w Hw HwF.
              destruct (decide (w = List.length sigs)) as [-> | Hne].
              ** left. apply Hlast.
              ** rewrite Hsame by lia.
                 apply Hpark; lia.
           ++ intros w g' Hin. destruct (Hrange _ _ Hin) as [Hr Hsig].
              split; [lia |]. rewrite Hsame by lia. exact Hsig.
      * (* a buffered frame is handed out *)
        assert (Hlt : (n < List.length F)%nat).
        { destruct (decide (n < List.length F)%nat) as [H | H]; [exact H |].
          rewrite drop_ge in Hms by lia. discriminate Hms. }
        assert (Hm : F !! n = Some m).
        { rewrite <- (Nat.add_0_r n), <- lookup_drop, <- Hms. reflexivity. }
        assert (Hnil : W = []).
        { destruct W as [| [w g'] W']; [reflexivity |].
          destruct (Hrange w g' ltac:(left)). lia. }
        subst W.
        assert (Hmin : Nat.min (n + 1) (List.length F) = S n) by lia.
        assert (Hmin0 : Nat.min n (List.length F) = n) by lia.
        rewrite Hmin0 in Hdec.
        assert (Hcommon :
                  (ms' = drop (n + 1) F)
                  /\ ws = seq (List.length F) (n + 1 - List.length F)).
        { split.
          - rewrite <- drop_drop, <- Hms. reflexivity.
          - rewrite Hws.
            replace (n - List.length F)%nat with 0%nat by lia.
            replace (n + 1 - List.length F)%nat with 0%nat by lia.
            reflexivity. }
        destruct Hcommon as [Hms2 Hws2].
        destruct signal as [g |]; simpl.
        -- rewrite length_app. simpl.
           split; [lia |]. split; [reflexivity |].
           split; [exact Hms2 |]. split; [exact Hws2 |].
           split; [reflexivity |]. split; [reflexivity |].
           split; [| split; [| split; [| split]]].
           ++ rewrite Hmin, seq_snoc, <- Hdec, !map_app. simpl.
              rewrite Hlen. solve_Permutation.
           ++ intros i st Hin. rewrite map_app in Hin. simpl in Hin.
              rewrite app_assoc in Hin.
              apply elem_of_app in Hin as [Hin | Hin]; [apply Hval, Hin |].
              apply list_elem_of_singleton in Hin. injection Hin as -> ->.
              exists m. rewrite Hlen. split; [exact Hm | reflexivity].
           ++ intros w Hw HwF. lia.
           ++ constructor.
           ++ intros w g' Hin. apply elem_of_nil in Hin. contradiction.
        -- rewrite length_app. simpl.
           split; [lia |]. split; [reflexivity |].
           split; [exact Hms2 |]. split; [exact Hws2 |].
           split; [reflexivity |]. split; [reflexivity |].
           split; [| split; [| split; [| split]]].
           ++ rewrite Hmin, seq_snoc, <- Hdec, !map_app. simpl.
              rewrite Hlen. solve_Permutation.
           ++ intros i st Hin.
              rewrite <- app_assoc in Hin.
              apply elem_of_app in Hin as [Hin | Hin];
                [apply Hval, elem_of_app; left; exact Hin |].
              apply elem_of_cons in Hin as [Hin | Hin].
              ** injection Hin as -> ->.
                 exists m. rewrite Hlen. split; [exact Hm | reflexivity].
              ** apply Hval, elem_of_app. right. exact Hin.
           ++ intros w Hw HwF. lia.
           ++ constructor.
           ++ intros w g' Hin. apply elem_of_nil in Hin. contradiction.
    + (* a frame arrives *)
      cbv zeta. rewrite Nat.add_0_r, length_app. simpl.
      unfold event, issued, decided. simpl. unfold onMessage. simpl.
      assert (Hlook : forall i x, F !! i = Some x -> (F ++ [d]) !! i = Some x).
      { intros i x Hi. apply lookup_app_l_Some, Hi. }
      assert (Hval' : forall i st,
                 (i, st) ∈ A ++ map (fun r => (r.1.1, r.2)) Q ->
                 exists d0, (F ++ [d]) !! i = Some d0
                            /\ st = Resolve (Some d0)).
      { intros i st Hin. destruct (Hval i st Hin) as (d0 & Hd0 & ->).
        exists d0. split; [apply Hlook, Hd0 | reflexivity]. }
      destruct ws as [| w ws']; simpl.
      * (* nobody waits: the frame is buffered *)
        assert (Hle : (n <= List.length F)%nat).
        { destruct (decide (n <= List.length F)%nat) as [H | H];
            [exact H |].
          replace (n - List.length F)%nat
            with (S (n - List.length F - 1)) in Hws by lia.
          simpl in Hws. discriminate Hws. }
        split; [exact Hlen |]. split; [reflexivity |].
        split; [rewrite drop_app_le by lia; rewrite Hms; reflexivity |].
        split; [replace (n - (List.length F + 1))%nat with 0%nat by lia;
                reflexivity |].
        split; [reflexivity |]. split; [reflexivity |].
        split; [replace (Nat.min n (List.length F + 1))
                  with (Nat.min n (List.length F)) by lia; exact Hdec |].
        split; [exact Hval' |].
        split; [intros w Hw HwF; lia |].
        split; [exact Hnd |].
        intros w g' Hin. destruct (Hrange _ _ Hin). lia.
      * (* the oldest parked waiter gets the frame *)
        assert (Hgt : (List.length F < n)%nat).
        { destruct (decide (List.length F < n)%nat) as [H | H]; [exact H |].
          replace (n - List.length F)%nat with 0%nat in Hws by lia.
          simpl in Hws. discriminate Hws. }
        replace (n - List.length F)%nat
          with (S (n - (List.length F + 1))) in Hws by lia.
        simpl in Hws. injection Hws as -> ->.
        assert (Hmin : Nat.min n (List.length F + 1) = S (List.length F))
          by lia.
        assert (Hmin0 : Nat.min n (List.length F) = List.length F) by lia.
        rewrite Hmin0 in Hdec.
        assert (Hms0 : ms = []).
        { rewrite Hms. apply drop_ge. lia. }
        assert (Hnew : (F ++ [d]) !! List.length F = Some d).
        { rewrite lookup_app_r, Nat.sub_diag by lia. reflexivity. }
        destruct (Hpark (List.length F)) as [Hp | (g & Hp & Hin)];
          try lia; rewrite Hp; simpl.
        -- (* a read made without a signal *)
           split; [exact Hlen |]. split; [reflexivity |].
           split; [rewrite Hms0; symmetry; apply drop_ge;
                   rewrite length_app; simpl; lia |].
           split; [f_equal; lia |].
           split; [reflexivity |]. split; [reflexivity |].
           split; [| split; [| split; [| split; [exact Hnd |]]]].
           ++ rewrite Hmin, seq_snoc, <- Hdec, !map_app. simpl.
              solve_Permutation.
           ++ intros i st Hin.
              rewrite <- app_assoc in Hin.
              apply elem_of_app in Hin as [Hin | Hin];
                [apply Hval', elem_of_app; left; exact Hin |].
              apply elem_of_cons in Hin as [Hin | Hin].
              ** injection Hin as -> ->.
                 exists d. split; [exact Hnew | reflexivity].
              ** apply Hval', elem_of_app. right. exact Hin.
           ++ intros w Hw HwF. apply Hpark; lia.
           ++ intros w g' Hin. destruct (Hrange _ _ Hin) as [Hr Hsig].
              split; [| exact Hsig].
              assert (w <> List.length F) by congruence.
              lia.
        -- (* a read inside withAbortSignal *)
           rewrite (filter_unique W (List.length F) g Hnd Hin). simpl.
           split; [exact Hlen |]. split; [reflexivity |].
           split; [rewrite Hms0; symmetry; apply drop_ge;
                   rewrite length_app; simpl; lia |].
           split; [f_equal; lia |].
           split; [reflexivity |]. split; [reflexivity |].
           split; [| split; [| split; [| split]]].
           ++ rewrite Hmin, seq_snoc, <- Hdec, !map_app. simpl.
              solve_Permutation.
           ++ intros i st Hin'. rewrite map_app in Hin'. simpl in Hin'.
              rewrite app_assoc in Hin'.
              apply elem_of_app in Hin' as [Hin' | Hin'];
                [apply Hval', Hin' |].
              apply list_elem_of_singleton in Hin'. injection Hin' as -> ->.
              exists d. split; [exact Hnew | reflexivity].
           ++ intros w Hw HwF.
              destruct (Hpark w) as [Hp' | (g' & Hp' & Hin')]; try lia;
                [left; exact Hp' |].
              right. exists g'. split; [exact Hp' |].
              apply list_elem_of_filter. split; [simpl; lia | exact Hin'].
           ++ apply NoDup_fst_filter, Hnd.
           ++ intros w g' Hin'.
              apply list_elem_of_filter in Hin' as [Hne Hin'].
              simpl in Hne. destruct (Hrange _ _ Hin') as [Hr Hsig].
              split; [lia | exact Hsig].
    + (* the queued reactions run *)
      cbv zeta. rewrite Nat.add_0_r, app_nil_r. simpl. unfold issued, decided. simpl.
      rewrite app_nil_r.
      split; [exact Hlen |]. split; [reflexivity |].
      split; [exact Hms |]. split; [exact Hws |].
      split; [reflexivity |]. split; [reflexivity |].
      split; [exact Hdec |]. split; [exact Hval |].
      split; [exact Hpark |]. split; [exact Hnd | exact Hrange].
Qed.

(** X2: while no abort signal fires and the socket neither closes nor
    fails, reads (with or without a signal) and frames may interleave in
    any way: once the queued reactions have run, the reads answered are
    the first ones made, as many as there are reads and frames to pair,
    each answered once, and the k-th read made has received the k-th
    frame that arrived, whether the frame was buffered first or the read
    parked first. *)
Theorem frames_delivered_in_order (ops : list op) :
  onlyReadsAndMessages ops ->
  let s := run (ops ++ [OpSettle]) start in
  map fst (answers s)
  ≡ₚ seq 0 (Nat.min (readCount ops) (List.length (arrivedFrames ops)))
  /\ (forall i st, (i, st) ∈ answers s ->
                   exists d, arrivedFrames ops !! i = Some d
                             /\ st = Resolve (Some d))
  /\ (forall i d, arrivedFrames ops !! i = Some d ->
                  (i < readCount ops)%nat ->
                  (i, Resolve (Some d)) ∈ answers s).
Proof.
  intros Hall.
  assert (Hall' : onlyReadsAndMessages (ops ++ [OpSettle])).
  { apply Forall_app. split; [exact Hall | repeat constructor]. }
  pose proof (reads_and_messages_state _ Hall') as H. cbv zeta in H.
  rewrite arrivedFrames_snoc, readCount_snoc, Nat.add_0_r, app_nil_r in H.
  destruct H as (_ & _ & _ & _ & _ & _ & Hdec & Hval & _).
  assert (Hans : decided (run (ops ++ [OpSettle]) start)
                 = answers (run (ops ++ [OpSettle]) start)).
  { rewrite run_snoc. unfold decided. simpl. apply app_nil_r. }
  rewrite Hans in Hdec, Hval. cbv zeta.
  split; [exact Hdec | split; [exact Hval |]].
  intros i d Hd Hi.
  assert (Hin : i ∈ map fst (answers (run (ops ++ [OpSettle]) start))).
  { rewrite Hdec. apply elem_of_seq. apply lookup_lt_Some in Hd. lia. }
  assert (Hex : exists st,
             (i, st) ∈ answers (run (ops ++ [OpSettle]) start)).
  { clear -Hin.
    induction (answers (run (ops ++ [OpSettle]) start)) as [| [j st] l IH];
      [apply elem_of_nil in Hin; contradiction |].
    simpl in Hin. apply elem_of_cons in Hin as [-> | Hin].
    - exists st. left.
    - destruct (IH Hin) as [st' H']. exists st'. right. exact H'. }
  destruct Hex as [st Hst].
  destruct (Hval i st Hst) as (d' & Hd' & ->).
  rewrite Hd in Hd'. injection Hd' as <-. exact Hst.
Qed.

Lemma frames_delivered_in_order_witness :
  (1%nat, Resolve (Some (FrameString "b")))
  ∈ answers
      (run ([OpRead (Some 7%nat); OpEvent (EvMessage (FrameString "a"));
             OpEvent (EvMessage (FrameString "b")); OpRead None; OpRead None]
            ++ [OpSettle]) start).
Proof.
  apply (frames_delivered_in_order
           [OpRead (Some 7%nat); OpEvent (EvMessage (FrameString "a"));
            OpEvent (EvMessage (FrameString "b")); OpRead None; OpRead None]).
  - repeat constructor.
  - reflexivity.
  - vm_compute. lia.
Defined.

(** X22: a read given up by its abort signal swallows the next frame. On
    an idle connection, a read made with a signal parks; when the signal
    fires, the read is rejected with the abort error but its waiter
    stays in the queue; the next frame to arrive is handed to that
    waiter and reaches nobody: it is neither buffered nor delivered, and
    the read made after it parks although a frame has arrived. *)
Theorem aborted_read_swallows_frame (s : session) (g : nat)
    (d : WebSocketMessageValue) (next : option nat) :
  idleConnection (conn s) ->
  waiting s = [] -> reactions s = [] ->
  g ∉ abortedSignals s ->
  (forall g', next = Some g' -> g' <> g /\ g' ∉ abortedSignals s) ->
  let s' := run [OpRead (Some g); OpAbort g; OpEvent (EvMessage d);
                 OpRead next; OpSettle] s in
  answers s' = answers s ++ [(issued s, Reject newAPIUserAbortError)]
  /\ messages (conn s') = []
  /\ waiters (conn s') = [S (issued s)]
  /\ waiting s' = match next with
                  | Some g' => [(S (issued s), g')]
                  | None => []
                  end
  /\ reactions s' = [].
Proof.
  destruct s as [[ms ws cl er] sigs ab W Q A].
  unfold idleConnection, issued. simpl.
  intros (-> & -> & -> & ->) -> -> Hg Hnext.
  assert (Hlive : isAborted next
                    (mkSession (mk [] [] false None) (sigs ++ [Some g])
                       (g :: ab) [] [] 
                       (A ++ [(List.length sigs, Reject newAPIUserAbortError)]))
                  = false).
  { destruct next as [g' |]; [| reflexivity]. simpl.
    destruct (Hnext g' eq_refl) as [Hne Hnotin].
    apply bool_decide_eq_false_2. intros Hin.
    apply elem_of_cons in Hin as [-> | Hin]; contradiction. }
  assert (H1 : callNextFrame (Some g)
                 (mkSession (mk [] [] false None) sigs ab [] [] A)
               = mkSession (mk [] [List.length sigs] false None)
                   (sigs ++ [Some g]) ab [(List.length sigs, g)] [] A).
  { unfold callNextFrame, isAborted, issued. simpl.
    rewrite bool_decide_eq_false_2 by exact Hg. reflexivity. }
  assert (H2 : abort g
                 (mkSession (mk [] [List.length sigs] false None)
                    (sigs ++ [Some g]) ab [(List.length sigs, g)] [] A)
               = mkSession (mk [] [List.length sigs] false None)
                   (sigs ++ [Some g]) (g :: ab) [] []
                   (A ++ [(List.length sigs, Reject newAPIUserAbortError)])).
  { unfold abort. simpl. rewrite bool_decide_eq_false_2 by exact Hg.
    rewrite !filter_cons, !filter_nil. simpl.
    destruct (decide (g <> g)) as [Hne | _]; [contradiction |].
    destruct (decide (g = g)) as [_ | Hne]; [| contradiction].
    reflexivity. }
  assert (H3 : event (EvMessage d)
                 (mkSession (mk [] [List.length sigs] false None)
                    (sigs ++ [Some g]) (g :: ab) [] []
                    (A ++ [(List.length sigs, Reject newAPIUserAbortError)]))
               = mkSession (mk [] [] false None)
                   (sigs ++ [Some g]) (g :: ab) [] []
                   (A ++ [(List.length sigs, Reject newAPIUserAbortError)])).
  { unfold event. simpl.
    rewrite lookup_app_r, Nat.sub_diag by lia. reflexivity. }
  simpl. rewrite H1, H2, H3.
  unfold callNextFrame. rewrite Hlive. unfold issued, nextFrame. simpl.
  rewrite length_app, Nat.add_1_r. simpl.
  destruct next as [g' |]; simpl.
  - rewrite app_nil_r. auto.
  - rewrite !app_nil_r. auto.
Qed.

Lemma aborted_read_swallows_frame_witness :
  let s' := run [OpRead (Some 0%nat); OpAbort 0%nat;
                 OpEvent (EvMessage (FrameString "a")); OpRead None; OpSettle]
              start in
  answers s' = [(0%nat, Reject newAPIUserAbortError)]
  /\ messages (conn s') = []
  /\ waiters (conn s') = [1%nat]
  /\ waiting s' = []
  /\ reactions s' = [].
Proof.
  apply (aborted_read_swallows_frame start 0%nat (FrameString "a") None).
  - repeat split.
  - reflexivity.
  - reflexivity.
  - apply not_elem_of_nil.
  - intros g' Hg'. discriminate Hg'.
Defined.

End ConnectionOpsFacts.

(** ** Header sinks *)

Module HeaderOpsFacts.
Import Errors TransportUtils HeaderOps.
#[local] Open Scope list_scope.

Lemma lowerAscii_idem (c : ascii) : lowerAscii (lowerAscii c) = lowerAscii c.
Proof. destruct c as [[] [] [] [] [] [] [] []]; vm_compute; reflexivity. Qed.

Lemma toLowerCase_idem (s : string) : isLowercase (toLowerCase s).
Proof.
  unfold isLowercase. induction s as [| c r IH]; [reflexivity |].
  simpl. rewrite lowerAscii_idem, IH. reflexivity.
Qed.

Lemma parse_unset_lowercase (headers : headersInput) :
  Forall isLowercase (unsetLowercaseNames (parseHeaderInput headers)).
Proof.
  destruct headers as [| es | vs nulls | es | es |]; simpl;
    try apply Forall_nil_2.
  - induction nulls as [| [n |] nulls IH]; simpl.
    + constructor.
    + constructor; [apply toLowerCase_idem | exact IH].
    + exact IH.
  - induction es as [| [k [| | v]] es IH]; simpl; auto.
    constructor; [apply toLowerCase_idem | exact IH].
Qed.

Lemma wellFormed_create : wellFormed createHeaderAccumulator.
Proof.
  split; [apply HeaderFacts.keyed_create |].
  intros n Hn. simpl in Hn. apply elem_of_empty in Hn. contradiction.
Qed.

Lemma wellFormed_unsetStep acc u :
  isLowercase u -> wellFormed acc -> wellFormed (unsetStep acc u).
Proof.
  intros Hu [Hk Hb]. split; [apply HeaderFacts.keyed_unsetStep, Hk |].
  intros n Hn. simpl in *.
  destruct (decide (n = u)) as [-> | Hne].
  - split; [exact Hu | apply lookup_delete_eq].
  - apply elem_of_union in Hn as [Hn | Hin].
    { apply elem_of_singleton in Hn. contradiction. }
    destruct (Hb n Hin) as [Hl Hv].
    split; [exact Hl |]. rewrite lookup_delete_ne by congruence. exact Hv.
Qed.

Lemma wellFormed_entryStep allow acc e :
  wellFormed acc -> wellFormed (entryStep allow acc e).
Proof.
  intros [Hk Hb]. split; [apply HeaderFacts.keyed_entryStep, Hk |].
  destruct e as [key value]. unfold entryStep.
  destruct (bool_decide (toLowerCase key ∈ blockedLowercaseNames acc))
    eqn:Hblocked; destruct allow; simpl; try exact Hb.
  - intros n Hn. apply elem_of_difference in Hn as [Hin Hne].
    rewrite elem_of_singleton in Hne.
    destruct (Hb n Hin) as [Hl Hv].
    split; [exact Hl |]. rewrite lookup_insert_ne by congruence. exact Hv.
  - intros n Hn. apply elem_of_difference in Hn as [Hin Hne].
    rewrite elem_of_singleton in Hne.
    destruct (Hb n Hin) as [Hl Hv].
    split; [exact Hl |]. rewrite lookup_insert_ne by congruence. exact Hv.
  - intros n Hn. apply bool_decide_eq_false in Hblocked.
    assert (Hne : toLowerCase key <> n) by (intros <-; contradiction).
    destruct (Hb n Hn) as [Hl Hv].
    split; [exact Hl |]. rewrite lookup_insert_ne by exact Hne. exact Hv.
Qed.

Lemma wellFormed_apply acc headers allow :
  wellFormed acc -> wellFormed (applyHeadersToAccumulator acc headers allow).
Proof.
  intros Hacc. unfold applyHeadersToAccumulator.
  apply HeaderFacts.fold_left_preserves.
  - pose proof (parse_unset_lowercase headers) as Hlow.
    apply HeaderFacts.fold_left_preserves; [exact Hacc |].
    intros a u Hu Ha. apply wellFormed_unsetStep; [| exact Ha].
    rewrite Forall_forall in Hlow. apply Hlow, list_elem_of_In, Hu.
  - intros a e _ Ha. apply wellFormed_entryStep, Ha.
Qed.

Lemma wellFormed_applyLayers layers :
  forall acc, wellFormed acc -> wellFormed (applyLayers layers acc).
Proof.
  intros acc Hacc. unfold applyLayers.
  apply HeaderFacts.fold_left_preserves; [exact Hacc |].
  intros a l _ Ha. apply wellFormed_apply, Ha.
Qed.

(** X6: the merged handshake headers never hold one header under two
    spellings: two names of the merged record that are equal up to case
    are the same name. (The accumulator keys by lower-cased name and
    keeps the spelling of the last write.) *)
Theorem merged_headers_one_spelling
    (HEADERS : headersInput) (c : clientHeaders) (extra : headersInput)
    (k1 k2 : string) :
  is_Some (mergeWebSocketHeaders HEADERS c extra !! k1) ->
  is_Some (mergeWebSocketHeaders HEADERS c extra !! k2) ->
  toLowerCase k1 = toLowerCase k2 ->
  k1 = k2.
Proof.
  unfold mergeWebSocketHeaders.
  set (acc := applyLayers _ _).
  assert (Hk : keyed acc).
  { apply HeaderFacts.keyed_applyLayers, HeaderFacts.keyed_create. }
  rewrite !(HeaderFacts.record_lookup acc _ Hk).
  intros [v1 H1] [v2 H2] Heq. rewrite Heq in H1.
  destruct (valuesByLowercaseName acc !! toLowerCase k2) as [[k v] |];
    [| discriminate].
  destruct (decide (k = k1)); [| discriminate].
  destruct (decide (k = k2)); [| discriminate].
  congruence.
Qed.

Lemma merged_headers_one_spelling_witness :
  "User-Agent" = "User-Agent".
Proof.
  apply (merged_headers_one_spelling
           (HRecord [("User-Agent", HValue "Agents/JavaScript")])
           (mkClient None (Some "sk-test") None None
              (HRecord [("user-agent", HValue "client")]))
           HFalsy "User-Agent" "User-Agent").
  - vm_compute. eexists. reflexivity.
  - vm_compute. eexists. reflexivity.
  - reflexivity.
Defined.

Lemma foldr_null_lookup (names : list string)
    (headers : gmap string (option string)) (k : string) :
  foldr (fun n h => <[n := None]> h) headers names !! k
  = if decide (k ∈ names) then Some None else headers !! k.
Proof.
  induction names as [| n names IH]; simpl.
  - destruct (decide (k ∈ [])) as [H | _]; [| reflexivity].
    apply elem_of_nil in H. contradiction.
  - destruct (decide (n = k)) as [-> | Hne].
    + rewrite lookup_insert_eq.
      destruct (decide (k ∈ k :: names)) as [_ | H]; [reflexivity |].
      exfalso. apply H. left.
    + rewrite lookup_insert_ne by exact Hne. rewrite IH.
      destruct (decide (k ∈ names)) as [H | H];
        destruct (decide (k ∈ n :: names)) as [H' | H']; try reflexivity.
      * exfalso. apply H'. right. exact H.
      * exfalso. apply elem_of_cons in H' as [-> | H']; [congruence | auto].
Qed.

Lemma sdk_lookup (acc : HeaderAccumulator) (k : string) :
  headerAccumulatorToSDKHeaders acc !! k
  = if decide (k ∈ blockedLowercaseNames acc) then Some None
    else Some <$> headerAccumulatorToRecord acc !! k.
Proof.
  unfold headerAccumulatorToSDKHeaders, set_fold. simpl.
  rewrite foldr_null_lookup, lookup_fmap.
  destruct (decide (k ∈ elements (blockedLowercaseNames acc))) as [H | H];
    destruct (decide (k ∈ blockedLowercaseNames acc)) as [H' | H'];
    try reflexivity.
  - apply elem_of_elements in H. contradiction.
  - exfalso. apply H, elem_of_elements, H'.
Qed.

(** X7: in the headers [headerAccumulatorToSDKHeaders] hands to the SDK,
    built from any layers, a header is unset ([null]) or set, never both:
    a name that maps to [null] is a blocked lower-case name, and no
    spelling of it carries a value. *)
Theorem sdk_headers_null_excludes_value
    (layers : list (headersInput * bool)) (k1 k2 v : string) :
  let headers :=
    headerAccumulatorToSDKHeaders (applyLayers layers createHeaderAccumulator) in
  headers !! k1 = Some None ->
  headers !! k2 = Some (Some v) ->
  isLowercase k1 /\ toLowerCase k2 <> k1.
Proof.
  simpl. set (acc := applyLayers layers createHeaderAccumulator).
  destruct (wellFormed_applyLayers layers _ wellFormed_create) as [Hk Hb].
  fold acc in Hk, Hb.
  rewrite !sdk_lookup. intros H1 H2.
  destruct (decide (k1 ∈ blockedLowercaseNames acc)) as [Hin | _];
    [| destruct (headerAccumulatorToRecord acc !! k1); discriminate].
  destruct (Hb k1 Hin) as [Hl Hv]. split; [exact Hl |].
  destruct (decide (k2 ∈ blockedLowercaseNames acc)); [discriminate |].
  rewrite (HeaderFacts.record_lookup acc _ Hk) in H2.
  intros Heq. rewrite Heq, Hv in H2. discriminate.
Qed.

Lemma sdk_headers_null_excludes_value_witness :
  isLowercase "user-agent" /\ toLowerCase "X-Other" <> "user-agent".
Proof.
  apply (sdk_headers_null_excludes_value
           [(HRecord [("User-Agent", HNull); ("X-Other", HValue "1")], false)]
           "user-agent" "X-Other" "1").
  - vm_compute. reflexivity.
  - vm_compute. reflexivity.
Defined.

Lemma assign_lookup (target : gmap string string) (key value k : string) :
  k <> "__proto__" ->
  assign target key value !! k
  = if decide (key = k) then Some value else target !! k.
Proof.
  intros Hk. unfold assign.
  destruct (String.eqb key "__proto__") eqn:Hp; simpl.
  - apply String.eqb_eq in Hp. subst key.
    destruct (decide ("__proto__" = k)) as [<- | Hne]; [contradiction |].
    destruct (bool_decide (target !! "__proto__" = None)); [reflexivity |].
    apply lookup_insert_ne. exact Hne.
  - destruct (decide (key = k)) as [-> | Hne].
    + apply lookup_insert_eq.
    + apply lookup_insert_ne. exact Hne.
Qed.

Lemma fold_insert_lookup (es : list (string * string))
    (target : gmap string string) (k : string) :
  k <> "__proto__" ->
  fold_left (fun t e => assign t e.1 e.2) es target !! k
  = match last (filter (fun e => e.1 = k) es) with
    | Some e => Some e.2
    | None => target !! k
    end.
Proof.
  intros Hk. revert target.
  induction es as [| e es IH] using rev_ind; intros target.
  - reflexivity.
  - rewrite fold_left_app, filter_app. simpl.
    rewrite filter_cons, filter_nil, assign_lookup by exact Hk.
    destruct (decide (e.1 = k)) as [Heq | Hne].
    + rewrite last_snoc. reflexivity.
    + rewrite app_nil_r. apply IH.
Qed.

Lemma unset_names (headers : headersInput) :
  unsetLowercaseNames (parseHeaderInput headers)
  = map toLowerCase (nullNames headers).
Proof.
  destruct headers as [| es | vs nulls | es | es |]; simpl; try reflexivity.
  - induction nulls as [| [n |] nulls IH]; simpl;
      [reflexivity | f_equal; exact IH | exact IH].
  - induction es as [| [k [| | v]] es IH]; simpl;
      [reflexivity | exact IH | f_equal; exact IH | exact IH].
Qed.

Lemma fold_unset_lookup (names : list string)
    (target : gmap string string) (k : string) :
  fold_left (fun t n => filter (fun kv => toLowerCase kv.1 <> n) t) names
    target !! k
  = if decide (toLowerCase k ∈ names) then None else target !! k.
Proof.
  revert target. induction names as [| n names IH]; intros target; simpl.
  - destruct (decide (toLowerCase k ∈ [])) as [H | _]; [| reflexivity].
    apply elem_of_nil in H. contradiction.
  - rewrite IH.
    destruct (decide (toLowerCase k ∈ names)) as [H | H];
      destruct (decide (toLowerCase k ∈ n :: names)) as [H' | H'].
    + reflexivity.
    + exfalso. apply H'. right. exact H.
    + apply elem_of_cons in H' as [Heq | H']; [| contradiction].
      apply map_lookup_filter_None. right. intros x _ Hp. simpl in Hp.
      congruence.
    + rewrite map_lookup_filter.
      destruct (target !! k) as [x |]; [| reflexivity]. simpl.
      rewrite option_guard_True; [reflexivity |].
      simpl. intros Heq. apply H'. apply elem_of_cons. left. exact Heq.
Qed.

(** X8: what [mergeHeadersIntoRecord] leaves under a name, for header
    names written in ASCII. Let the name looked up and every name the
    input unsets be made of ASCII characters, and the name looked up be
    other than [__proto__]. Then an entry of the input sets exactly the
    spelling it is written in, the last such entry winning, even when
    the same input unsets that header; a [null] removes every spelling
    of its header that the input does not set again; every other name
    keeps the target's value. *)
Theorem mergeHeadersIntoRecord_lookup
    (target : gmap string string) (headers : headersInput) (k : string) :
  isAscii k = true ->
  Forall (fun n => isAscii n = true) (nullNames headers) ->
  k <> "__proto__" ->
  mergeHeadersIntoRecord target headers !! k
  = match last (filter (fun e => e.1 = k)
                  (entries (parseHeaderInput headers))) with
    | Some e => Some e.2
    | None =>
        if decide (toLowerCase k ∈ map toLowerCase (nullNames headers))
        then None
        else target !! k
    end.
Proof.
  intros _ _ Hk. unfold mergeHeadersIntoRecord.
  rewrite fold_insert_lookup by exact Hk.
  rewrite fold_unset_lookup, unset_names. reflexivity.
Qed.

Lemma mergeHeadersIntoRecord_lookup_witness :
  let target : gmap string string :=
    {[ "User-Agent" := "client"; "X-Keep" := "k" ]} in
  let headers := HRecord [("user-agent", HNull); ("X-New", HValue "n");
                          ("__proto__", HValue "p")] in
  mergeHeadersIntoRecord target headers !! "User-Agent" = None
  /\ mergeHeadersIntoRecord target headers !! "X-Keep" = Some "k"
  /\ mergeHeadersIntoRecord target headers !! "X-New" = Some "n".
Proof.
  simpl. split; [| split].
  - rewrite (mergeHeadersIntoRecord_lookup _ _ "User-Agent");
      [reflexivity | reflexivity | repeat constructor | discriminate].
  - rewrite (mergeHeadersIntoRecord_lookup _ _ "X-Keep");
      [reflexivity | reflexivity | repeat constructor | discriminate].
  - rewrite (mergeHeadersIntoRecord_lookup _ _ "X-New");
      [reflexivity | reflexivity | repeat constructor | discriminate].
Defined.

End HeaderOpsFacts.

(** ** Query merging and the websocket URL *)

Module URLFacts.
Import Errors TransportUtils QueryOps.
#[local] Open Scope list_scope.

Lemma outside_deleteFamily (keys : list string) (key : string)
    (url : searchParams) :
  In key keys ->
  filter (fun e => outsideFamilies keys e.1 = true) (deleteFamily key url)
  = filter (fun e => outsideFamilies keys e.1 = true) url.
Proof.
  intros Hin. unfold deleteFamily.
  induction url as [| e url IH]; [reflexivity |].
  rewrite (filter_cons (fun e => inFamily key e.1 = false)).
  destruct (decide (inFamily key e.1 = false)) as [Hout | Hfam].
  - rewrite !filter_cons, IH. reflexivity.
  - rewrite IH, filter_cons.
    destruct (decide (outsideFamilies keys e.1 = true)) as [Ho | _];
      [| reflexivity].
    exfalso. apply Hfam. unfold outsideFamilies in Ho.
    rewrite forallb_forall in Ho. apply negb_true_iff, Ho, Hin.
Qed.

Lemma outside_appended (keys : list string) (key : string) (v : qvalue) :
  In key keys ->
  filter (fun e => outsideFamilies keys e.1 = true)
    (appendQueryParamValue [] key v) = [].
Proof.
  intros Hin.
  assert (Hall : forall l : searchParams,
             (forall e, In e l -> inFamily key e.1 = true) ->
             filter (fun e => outsideFamilies keys e.1 = true) l = []).
  { induction l as [| e l IH]; intros Hl; [reflexivity |].
    rewrite filter_cons.
    destruct (decide (outsideFamilies keys e.1 = true)) as [Ho | _].
    - exfalso. unfold outsideFamilies in Ho. rewrite forallb_forall in Ho.
      specialize (Ho key Hin). rewrite (Hl e) in Ho by (left; reflexivity).
      discriminate Ho.
    - apply IH. intros e' He'. apply Hl. right. exact He'. }
  apply Hall. intros e He.
  apply (QueryFacts.appendQueryParamValue_family v key e He).
Qed.

Lemma outside_mergeStep (keys : list string) (url : searchParams)
    (e : string * qvalue) :
  (e.2 <> QUndefined -> In e.1 keys) ->
  filter (fun e => outsideFamilies keys e.1 = true) (mergeStep url e)
  = filter (fun e => outsideFamilies keys e.1 = true) url.
Proof.
  destruct e as [key v]. cbn [fst snd]. intros Hin.
  destruct (QueryFacts.undefined_or_not v) as [-> | Hdef]; [reflexivity |].
  rewrite (QueryFacts.mergeStep_defined url key v Hdef), filter_app.
  rewrite outside_appended by auto. rewrite app_nil_r.
  apply outside_deleteFamily. auto.
Qed.

Lemma definedKeys_In (es : list (string * qvalue)) (e : string * qvalue) :
  In e es -> e.2 <> QUndefined -> In e.1 (definedKeys es).
Proof.
  intros He Hdef. apply list_elem_of_In. unfold definedKeys.
  apply list_elem_of_omap. exists e.
  split; [apply list_elem_of_In, He |].
  destruct e as [k v]. simpl in *. destruct v; congruence.
Qed.

(** X9: [mergeQueryParamsIntoURL] touches nothing outside the families
    of the keys it is given a value for: the parameters whose name is
    none of those keys nor a bracket sub-key of one are all still there,
    in their order, and nothing was added among them. Keys whose value
    is [undefined] do not count. *)
Theorem merge_keeps_other_parameters (url : searchParams)
    (es : list (string * qvalue)) :
  filter (fun e => outsideFamilies (definedKeys es) e.1 = true)
    (mergeQueryParamsIntoURL url (Some es))
  = filter (fun e => outsideFamilies (definedKeys es) e.1 = true) url.
Proof.
  simpl.
  assert (Hgen : forall (sub : list (string * qvalue)) (u : searchParams),
             (forall e, In e sub -> In e es) ->
             filter (fun e => outsideFamilies (definedKeys es) e.1 = true)
               (fold_left mergeStep sub u)
             = filter (fun e => outsideFamilies (definedKeys es) e.1 = true) u).
  { induction sub as [| e sub IH]; intros u Hsub; [reflexivity |].
    simpl. rewrite IH by (intros e' He'; apply Hsub; right; exact He').
    apply outside_mergeStep. intros Hdef.
    apply definedKeys_In; [apply Hsub; left; reflexivity | exact Hdef]. }
  apply Hgen. auto.
Qed.

(** *** The websocket path *)

Lemma strip_idem (s : string) :
  stripTrailingSlashes (stripTrailingSlashes s) = stripTrailingSlashes s.
Proof.
  induction s as [| c r IH]; [reflexivity |].
  simpl. destruct (stripTrailingSlashes r) as [| c' r'] eqn:Hr.
  - destruct (Ascii.eqb c "/") eqn:Hc; [reflexivity |].
    simpl. rewrite Hc. reflexivity.
  - change (stripTrailingSlashes (String c (String c' r')))
      with (match stripTrailingSlashes (String c' r') with
            | "" => if Ascii.eqb c "/" then "" else String c ""
            | r0 => String c r0
            end).
    rewrite IH. reflexivity.
Qed.

Lemma strip_app (a b : string) :
  stripTrailingSlashes b <> "" ->
  stripTrailingSlashes (a ++ b)%string = (a ++ stripTrailingSlashes b)%string.
Proof.
  intros Hb. induction a as [| c a IH]; [reflexivity |].
  rewrite !QueryFacts.append_cons. simpl. rewrite IH.
  destruct (a ++ stripTrailingSlashes b)%string as [| c' r] eqn:Heq;
    [| reflexivity].
  exfalso. destruct a; [| discriminate Heq].
  rewrite QueryFacts.append_nil_l in Heq. contradiction.
Qed.

Lemma rev_app_spec (s1 s2 : string) :
  String.rev_app s1 s2 = (String.rev s1 ++ s2)%string.
Proof.
  unfold String.rev. revert s2.
  induction s1 as [| c s1 IH]; intros s2; [reflexivity |].
  simpl. rewrite IH, (IH (String c "")), QueryFacts.append_assoc.
  reflexivity.
Qed.

Lemma rev_append (a b : string) :
  String.rev (a ++ b)%string = (String.rev b ++ String.rev a)%string.
Proof.
  induction a as [| c a IH].
  - rewrite QueryFacts.append_nil_l.
    change (String.rev "") with "".
    induction (String.rev b) as [| x r IHr]; [reflexivity |].
    rewrite QueryFacts.append_cons, <- IHr. reflexivity.
  - rewrite QueryFacts.append_cons. unfold String.rev at 1 3. simpl.
    rewrite !rev_app_spec, IH, QueryFacts.append_assoc. reflexivity.
Qed.

Lemma endsWith_app (a suffix : string) :
  endsWith (a ++ suffix)%string suffix = true.
Proof.
  unfold endsWith. rewrite rev_append.
  apply QueryFacts.prefix_iff. eexists. reflexivity.
Qed.

(** X10: [ensureResponsesWebSocketPath] is idempotent, and its result
    always ends with [/responses] and has no trailing slash: the path
    segment is appended at most once, however often the URL is
    prepared. *)
Theorem responses_path_idempotent (pathname : string) :
  ensureResponsesWebSocketPath (ensureResponsesWebSocketPath pathname)
  = ensureResponsesWebSocketPath pathname
  /\ endsWith (ensureResponsesWebSocketPath pathname) "/responses" = true
  /\ stripTrailingSlashes (ensureResponsesWebSocketPath pathname)
     = ensureResponsesWebSocketPath pathname.
Proof.
  assert (Hfix : forall p,
             stripTrailingSlashes p = p ->
             endsWith p "/responses" = true ->
             ensureResponsesWebSocketPath p = p).
  { intros p Hs He. unfold ensureResponsesWebSocketPath.
    rewrite Hs, He, orb_true_r. reflexivity. }
  assert (Hends : endsWith (ensureResponsesWebSocketPath pathname) "/responses"
                  = true
                  /\ stripTrailingSlashes (ensureResponsesWebSocketPath pathname)
                     = ensureResponsesWebSocketPath pathname).
  { unfold ensureResponsesWebSocketPath.
    destruct (String.eqb (stripTrailingSlashes pathname) "/responses")
      eqn:Heq; simpl.
    - apply String.eqb_eq in Heq. rewrite strip_idem, Heq.
      split; reflexivity.
    - destruct (endsWith (stripTrailingSlashes pathname) "/responses")
        eqn:Hend.
      + split; [exact Hend | apply strip_idem].
      + split; [apply endsWith_app |].
        apply strip_app. discriminate. }
  destruct Hends as [He Hs].
  split; [apply Hfix; assumption | split; assumption].
Qed.

(** X11: the scheme of the prepared websocket URL. [https:] and [wss:]
    bases give [wss:], [http:] and [ws:] bases give [ws:], every other
    scheme is refused with a [UserError] naming it, before anything
    else is looked at; the host is the base's, and the path ends with
    [/responses]. *)
Theorem websocket_url_scheme (websocketBaseURL : option URL)
    (clientBaseURL : URL) (defaultQuery extraQuery : option (list (string * qvalue))) :
  let base := default clientBaseURL websocketBaseURL in
  match prepareWebSocketURL websocketBaseURL clientBaseURL defaultQuery
          extraQuery with
  | inr url =>
      (protocol url = "wss:"
       /\ (protocol base = "https:" \/ protocol base = "wss:")
       \/ protocol url = "ws:"
          /\ (protocol base = "http:" \/ protocol base = "ws:"))
      /\ host url = host base
      /\ endsWith (pathname url) "/responses" = true
  | inl e =>
      ~ In (protocol base) ["https:"; "http:"; "ws:"; "wss:"]
      /\ e = Thrown ClsError "UserError"
               ("Unsupported websocket base URL protocol: " ++ protocol base)%string
               None
  end.
Proof.
  simpl. unfold prepareWebSocketURL.
  set (base := default clientBaseURL websocketBaseURL).
  destruct (String.eqb (protocol base) "https:") eqn:H1.
  { apply String.eqb_eq in H1. simpl.
    split; [left; auto | split; [reflexivity | apply responses_path_idempotent]]. }
  destruct (String.eqb (protocol base) "http:") eqn:H2.
  { apply String.eqb_eq in H2. simpl.
    split; [right; auto | split; [reflexivity | apply responses_path_idempotent]]. }
  destruct (String.eqb (protocol base) "ws:") eqn:H3.
  { apply String.eqb_eq in H3. simpl.
    split; [right; auto | split; [reflexivity | apply responses_path_idempotent]]. }
  destruct (String.eqb (protocol base) "wss:") eqn:H4.
  { apply String.eqb_eq in H4. simpl.
    split; [left; auto | split; [reflexivity | apply responses_path_idempotent]]. }
  simpl. split; [| reflexivity].
  apply String.eqb_neq in H1, H2, H3, H4.
  intros [H | [H | [H | [H | []]]]]; congruence.
Qed.

(** *** The explicit base query *)

Lemma familyOf_deletes_empty (key : string) (explicit url : searchParams) :
  familyOf key url = [] ->
  familyOf key
    (fold_left (fun u e => deleteFamily (topLevelKey e.1) u) explicit url)
  = [].
Proof.
  revert url. induction explicit as [| e explicit IH]; intros url Hu;
    [exact Hu |].
  simpl. apply IH.
  rewrite QueryFacts.familyOf_deleteFamily, Hu. reflexivity.
Qed.

Lemma familyOf_deletes_own (e : string * string)
    (explicit url : searchParams) :
  In e explicit ->
  familyOf (topLevelKey e.1)
    (fold_left (fun u e => deleteFamily (topLevelKey e.1) u) explicit url)
  = [].
Proof.
  revert url. induction explicit as [| a explicit IH]; intros url Hin;
    [destruct Hin |].
  simpl. destruct Hin as [-> | Hin].
  - apply familyOf_deletes_empty, QueryFacts.deleteFamily_own.
  - apply IH, Hin.
Qed.

(** X12: the query of an explicit [websocketBaseURL] wins over the
    client's default query. For every parameter the explicit base URL
    carries, the prepared URL holds under that parameter's top-level key
    and its bracket sub-keys exactly what the base URL held there, as
    long as the per-request query names no related key. *)
Theorem explicit_base_query_beats_defaults (base clientBaseURL : URL)
    (defaultQuery extraQuery : option (list (string * qvalue)))
    (key value : string) (url : URL) :
  prepareWebSocketURL (Some base) clientBaseURL defaultQuery extraQuery
  = inr url ->
  In (key, value) (query base) ->
  (forall es k v, extraQuery = Some es -> In (k, v) es ->
                  unrelated (topLevelKey key) k) ->
  familyOf (topLevelKey key) (query url)
  = familyOf (topLevelKey key) (query base).
Proof.
  unfold prepareWebSocketURL. simpl. intros Hurl Hin Hextra.
  destruct (if String.eqb (protocol base) "https:" then _ else _)
    as [e | proto]; [discriminate |].
  injection Hurl as <-. simpl.
  set (q1 := mergeQueryParamsIntoURL (query base) defaultQuery).
  assert (Hq2 : familyOf (topLevelKey key)
                  (reassertExplicitBaseQuery (query base) q1)
                = familyOf (topLevelKey key) (query base)).
  { unfold reassertExplicitBaseQuery.
    destruct (query base) as [| e0 rest] eqn:Hq; [destruct Hin |].
    rewrite QueryFacts.familyOf_app.
    pose proof (familyOf_deletes_own (key, value) (e0 :: rest) q1 Hin)
      as Hown.
    cbn [fst] in Hown. rewrite Hown. reflexivity. }
  destruct extraQuery as [es |]; simpl; [| exact Hq2].
  rewrite QueryFacts.merge_unrelated; [exact Hq2 |].
  intros k v Hk. apply (Hextra es k v eq_refl Hk).
Qed.

Lemma explicit_base_query_beats_defaults_witness :
  familyOf "tenant"
    [("client_param", "client"); ("tenant", "base"); ("tenant[id]", "7")]
  = [("tenant", "base"); ("tenant[id]", "7")].
Proof.
  apply (explicit_base_query_beats_defaults
           (mkURL "wss:" "proxy.example.test" "/v1"
              [("tenant", "base"); ("tenant[id]", "7")])
           (mkURL "https:" "api.openai.com" "/v1" [])
           (Some [("tenant", QPrim "client"); ("client_param", QPrim "client")])
           (Some [("trace", QPrim "1")])
           "tenant[id]" "7"
           (mkURL "wss:" "proxy.example.test" "/v1/responses"
              [("client_param", "client"); ("tenant", "base");
               ("tenant[id]", "7"); ("trace", "1")])).
  - vm_compute. reflexivity.
  - right. left. reflexivity.
  - intros es k v [= <-] [[= <- <-] | []]. split; vm_compute; reflexivity.
Defined.

End URLFacts.

(** ** Transport overrides and unknown items *)

Module TranslatorOpsFacts.
Import Errors Translator TranslatorOps.
#[local] Open Scope list_scope.


Lemma split_inversion (providerData : jvalue)
    (fields : list (string * jvalue)) (rest : bag)
    (ov : ResponsesTransportOverrides) :
  ownEntries providerData = Some fields ->
  splitResponsesTransportOverrides providerData = inr (rest, ov) ->
  let o : bag := list_to_map fields in
  rest = delete "extra_headers" (delete "extraHeaders"
           (delete "extra_query" (delete "extraQuery"
             (delete "extra_body" (delete "extraBody" o)))))
  /\ normalizeTransportOverrideMapping
       (preferSnake o "extra_headers" "extraHeaders") "extra headers"
     = inr (extraHeaders ov)
  /\ normalizeTransportOverrideMapping
       (preferSnake o "extra_query" "extraQuery") "extra query"
     = inr (extraQuery ov)
  /\ normalizeTransportOverrideMapping
       (preferSnake o "extra_body" "extraBody") "extra_body"
     = inr (extraBody ov).
Proof.
  unfold splitResponsesTransportOverrides. intros ->. simpl.
  destruct (normalizeTransportOverrideMapping _ "extra headers") as [e | h];
    [discriminate |].
  destruct (normalizeTransportOverrideMapping _ "extra query") as [e | q];
    [discriminate |].
  destruct (normalizeTransportOverrideMapping _ "extra_body") as [e | b];
    [discriminate |].
  intros [= <- <-]. simpl. auto.
Qed.

Lemma rest_lookup (o : bag) (k : string) :
  delete "extra_headers" (delete "extraHeaders"
    (delete "extra_query" (delete "extraQuery"
      (delete "extra_body" (delete "extraBody" o))))) !! k
  = if bool_decide (k ∈ transportOverrideKeys) then None else o !! k.
Proof.
  destruct (bool_decide (k ∈ transportOverrideKeys)) eqn:Hk.
  - apply bool_decide_eq_true in Hk. unfold transportOverrideKeys in Hk.
    repeat (apply elem_of_cons in Hk as [-> | Hk];
            [repeat first [apply lookup_delete_eq
                          | rewrite lookup_delete_ne by discriminate] |]).
    apply elem_of_nil in Hk. contradiction.
  - apply bool_decide_eq_false in Hk.
    rewrite !lookup_delete_ne; [reflexivity | ..];
      intros <-; apply Hk; unfold transportOverrideKeys;
      repeat first [apply list_elem_of_here | apply list_elem_of_further].
Qed.




(** X14: the transport overrides travel beside the request body, not in
    it. Whatever the provider data holds under the six override names,
    the request data built from it holds under such a name only what
    the request literal or [extra_body] itself put there, and the
    headers and query handed to the transport are those of the split. *)
Theorem transport_overrides_leave_body (request : RequestView)
    (stream : bool) (built : BuiltResponsesCreateRequest) (k : string) :
  buildResponsesCreateRequest request stream = inr built ->
  k ∈ transportOverrideKeys ->
  exists rest ov,
    splitResponsesTransportOverrides (providerData request) = inr (rest, ov)
    /\ transportExtraHeaders built = extraHeaders ov
    /\ transportExtraQuery built = extraQuery ov
    /\ requestData built !! k
       = match spread (extraBody ov) !! k with
         | Some v => Some v
         | None => literalFields request !! k
         end.
Proof.
  unfold buildResponsesCreateRequest. intros Hbuild Hk.
  destruct (splitResponsesTransportOverrides (providerData request))
    as [e | [rest ov]] eqn:Hsplit; [discriminate |].
  destruct (match parallelToolCalls request with
            | Some true => Nat.eqb (toolsLength request) 0
            | _ => false
            end); [discriminate |].
  injection Hbuild as <-. exists rest, ov. simpl.
  split; [reflexivity |]. split; [reflexivity |]. split; [reflexivity |].
  assert (Hne : k <> "stream" /\ k <> "text" /\ k <> "reasoning").
  { unfold transportOverrideKeys in Hk.
    repeat (apply elem_of_cons in Hk as [-> | Hk];
            [repeat split; discriminate |]).
    apply elem_of_nil in Hk. contradiction. }
  destruct Hne as (Hs & Ht & Hr).
  assert (Hrest : rest !! k = None).
  { destruct (ownEntries (providerData request)) as [fields |] eqn:Hown.
    - destruct (split_inversion _ _ _ _ Hown Hsplit) as (-> & _).
      rewrite rest_lookup, bool_decide_eq_true_2 by exact Hk. reflexivity.
    - unfold splitResponsesTransportOverrides in Hsplit.
      rewrite Hown in Hsplit. injection Hsplit as <- <-.
      apply lookup_empty. }
  assert (Hpd : (match mergedReasoning request with
                 | Some r => <["reasoning" := r]> (delete "text" rest)
                 | None => delete "text" rest
                 end) !! k = None).
  { destruct (mergedReasoning request);
      rewrite ?lookup_insert_ne by congruence;
      rewrite lookup_delete_ne by congruence; exact Hrest. }
  rewrite lookup_insert_ne by congruence.
  assert (Hdata0 : (match mergedReasoning request with
                    | Some r => <["reasoning" := r]> (delete "text" rest)
                    | None => delete "text" rest
                    end ∪ <["stream" := JBool stream]> (literalFields request))
                   !! k = literalFields request !! k).
  { rewrite lookup_union_r by exact Hpd.
    rewrite lookup_insert_ne by congruence. reflexivity. }
  destruct (extraBody ov) as [b |]; simpl.
  - rewrite lookup_union. rewrite Hdata0.
    destruct (b !! k), (literalFields request !! k); reflexivity.
  - rewrite lookup_empty. exact Hdata0.
Qed.

Lemma transport_overrides_leave_body_witness :
  let request :=
    mkRequestView {[ "model" := JStr "gpt-ws" ]} None None 0
      (JObj [("extra_query", JObj [("trace", JStr "1")]);
             ("store", JBool true)]) in
  exists built,
    buildResponsesCreateRequest request true = inr built
    /\ requestData built !! "extra_query" = None.
Proof.
  set (request :=
    mkRequestView {[ "model" := JStr "gpt-ws" ]} None None 0
      (JObj [("extra_query", JObj [("trace", JStr "1")]);
             ("store", JBool true)])).
  destruct (buildResponsesCreateRequest request true) as [e | built]
    eqn:Hbuild; [vm_compute in Hbuild; discriminate |].
  exists built. split; [exact Hbuild |].
  destruct (transport_overrides_leave_body request true built "extra_query"
              Hbuild) as (rest & ov & Hsplit & _ & _ & Hk).
  { unfold transportOverrideKeys. apply (bool_decide_unpack _). vm_compute.
    exact I. }
  rewrite Hk. vm_compute in Hsplit. injection Hsplit as _ <-.
  vm_compute. reflexivity.
Defined.

Section UnknownRoundTrip.

Variable camelOrSnakeToSnakeCase : option bag -> option bag.

(** X15: an item of a type the translator has no branch for survives the
    round trip. [convertToOutputItem] keeps the whole wire item as the
    provider data of an [unknown] item, and when the provider data
    helper leaves that (already snake_case) item as it is,
    [getInputItems] sends back an item that reads the same under every
    property name; [id] is written after the spread, so here the
    provider data cannot replace it. *)
Theorem unknown_item_round_trip (item : bag) :
  unhandledType item ->
  camelOrSnakeToSnakeCase (Some item) = Some item ->
  convertToOutputItem_item item = OutUnknown (prop item "id") item
  /\ (forall k,
        prop (getInputItems_unknown camelOrSnakeToSnakeCase
                (prop item "id") (Some item)) k
        = prop item k)
  /\ (forall id pd,
        prop (getInputItems_unknown camelOrSnakeToSnakeCase id pd) "id" = id).
Proof.
  intros Hty Hhelper. split; [| split].
  - unfold convertToOutputItem_item.
    destruct (prop item "type") as [| | | | ty | | |] eqn:Htype;
      try reflexivity.
    destruct (Hty ty Htype) as [Hfc Hother].
    apply String.eqb_neq in Hfc. rewrite Hfc.
    destruct (existsb (String.eqb ty) otherHandledTypes) eqn:Hex;
      [| reflexivity].
    exfalso. apply existsb_exists in Hex as (x & Hx & Heq).
    apply String.eqb_eq in Heq. subst x. contradiction.
  - intros k. unfold getInputItems_unknown, prop. rewrite Hhelper. simpl.
    destruct (decide (k = "id")) as [-> | Hne].
    + rewrite lookup_insert_eq. reflexivity.
    + rewrite lookup_insert_ne by congruence. reflexivity.
  - intros id pd. unfold getInputItems_unknown, prop.
    rewrite lookup_insert_eq. reflexivity.
Qed.

End UnknownRoundTrip.

Lemma unknown_item_round_trip_witness :
  let item : bag := {[ "type" := JStr "vendor_widget"; "id" := JStr "w_1";
                       "payload" := JNum 3 ]} in
  convertToOutputItem_item item = OutUnknown (JStr "w_1") item
  /\ prop (getInputItems_unknown (fun pd => pd) (JStr "w_1") (Some item))
       "payload" = JNum 3.
Proof.
  set (item := ({[ "type" := JStr "vendor_widget"; "id" := JStr "w_1";
                   "payload" := JNum 3 ]} : bag)).
  destruct (unknown_item_round_trip (fun pd => pd) item) as (H1 & H2 & _).
  - intros ty Hty. vm_compute in Hty. injection Hty as <-.
    split; [discriminate |].
    unfold otherHandledTypes. intros Hin.
    repeat (destruct Hin as [Hin | Hin]; [discriminate Hin |]).
    destruct Hin.
  - reflexivity.
  - split; [exact H1 |]. rewrite H2. reflexivity.
Defined.

End TranslatorOpsFacts.

(** ** The event stream, the cache and the request chain *)

Module WSModelOpsFacts.
Import Errors WSModel WSModelFacts WSModelOps.
#[local] Open Scope list_scope.

Lemma readLoop_shape (turns : list frameStep) :
  forall reused s r s',
    readLoop reused turns s = (r, s') ->
    exists pre fin,
      trace s' = trace s ++ map AYield (pre ++ fin)
      /\ Forall passing pre /\ closing r fin.
Proof.
  induction turns as [| turn turns IH]; intros reused s r s' H.
  - simpl in H. injection H as <- <-. exists [], []. simpl.
    rewrite app_nil_r. repeat split; [constructor | discriminate].
  - destruct s as [m [tk rl rc sw] tr].
    destruct turn as [e | | [p | e] consumer]; simpl in H; unfold_steps;
      simpl in H.
    + injection H as <- <-. exists [], []. simpl.
      rewrite app_nil_r. repeat split; [constructor | discriminate].
    + destruct (negb rc && reused); simpl in H; injection H as <- <-;
        exists [], []; simpl; rewrite app_nil_r;
        (repeat split; [constructor | discriminate]).
    + destruct (bool_decide (eventType p = Some "error")) eqn:Herr;
        simpl in H.
      { injection H as <- <-. exists [], []. simpl.
        rewrite app_nil_r. repeat split; [constructor | discriminate]. }
      apply bool_decide_eq_false in Herr.
      destruct (isTerminalResponsesStreamEventType (eventType p)) eqn:Hterm;
        simpl in H.
      * exists [], [eventType p]. simpl.
        destruct consumer; injection H as <- <-;
          (repeat split; [constructor | exact Hterm]).
      * destruct consumer;
          try (injection H as <- <-; exists [eventType p], []; simpl;
               repeat split;
               [ constructor; [split; assumption | constructor]
               | discriminate ]).
        apply IH in H as (pre & fin & Htr & Hpre & Hfin). simpl in Htr.
        exists (eventType p :: pre), fin. simpl. rewrite Htr, <- app_assoc.
        repeat split; [| exact Hfin].
        constructor; [split; assumption | exact Hpre].
    + injection H as <- <-. exists [], []. simpl.
      rewrite app_nil_r. repeat split; [constructor | discriminate].
Qed.

Lemma finally_yielded (s : st) :
  yielded (trace (finallyClause s)) = yielded (trace s).
Proof.
  unfold finallyClause, releaseLock. unfold_steps.
  destruct s as [[ru wc wi lk op] [tk rl rc sw] tr]. simpl.
  crunch; rewrite ?yielded_app; simpl; rewrite ?app_nil_r; reflexivity.
Qed.

Lemma yielded_shape (sc : script) (m : model) :
  let r := iterWebSocketResponseEvents sc m in
  exists pre fin,
    yielded (trace r.2) = pre ++ fin
    /\ Forall (fun ty => isTerminalResponsesStreamEventType ty = false
                         /\ ty <> Some "error") pre
    /\ match fin with
       | [] => r.1 <> Returned
       | [ty] => isTerminalResponsesStreamEventType ty = true
       | _ => False
       end.
Proof.
  simpl. unfold iterWebSocketResponseEvents.
  destruct (acquireWebSocketRequestLock sc (begin m)) as [ra s1] eqn:Hacq.
  apply acquire_cases in Hacq
    as [(-> & _ & ->) | [(e & -> & -> & _)
                        | [(e & -> & _ & _ & ->) | [-> Htr]]]]; simpl;
    try (exists [], []; simpl; repeat split; [constructor | discriminate]).
  - unfold requestBody, mbind, M_bind.
    destruct (requestPrelude sc _) as [rp s2] eqn:Hpre.
    apply prelude_frame in Hpre
      as (_ & _ & _ & Hnh & Hne & t & Ht & _ & _ & Hy).
    change (trace s2 = [AEnqueue] ++ t) in Ht.
    destruct rp as [[c reused] | e | |]; try congruence.
    + match goal with
      | |- context [readLoop ?a ?b ?c] =>
          destruct (readLoop a b c) as [rl s3] eqn:Hloop
      end.
      apply readLoop_shape in Hloop as (pre & fin & Htr & Hpre & Hfin).
      exists pre, fin.
      assert (Hys : yielded (trace s3) = pre ++ fin).
      { rewrite Htr, Ht, !yielded_app, Hy, yielded_yields. reflexivity. }
      destruct rl as [[] | e | |]; simpl; rewrite ?finally_yielded;
        (split; [exact Hys | split; [exact Hpre |]]);
        destruct fin as [| ty [| ty' fin]]; simpl in *; try exact Hfin;
        try discriminate.
      exfalso. apply (Hfin tt). reflexivity.
    + exists [], []. simpl. rewrite finally_yielded, Ht, yielded_app, Hy.
      repeat split; [constructor | discriminate].
  - exists [], []. simpl. rewrite Htr.
    repeat split; [constructor | discriminate].
Qed.
(** X16: the stream of events a websocket request hands to its
    consumer, however the request ends. No event of type [error] is
    ever handed over; a terminal event is the last one handed over; and
    the generator returns normally only after handing over a terminal
    event. *)
Theorem events_end_with_terminal (sc : script) (m : model) :
  let r := iterWebSocketResponseEvents sc m in
  let events := yielded (trace r.2) in
  (forall i ty, events !! i = Some ty ->
                ty <> Some "error"
                /\ (isTerminalResponsesStreamEventType ty = true ->
                    S i = List.length events))
  /\ (r.1 = Returned ->
      exists ty, last events = Some ty
                 /\ isTerminalResponsesStreamEventType ty = true).
Proof.
  simpl. destruct (yielded_shape sc m) as (pre & fin & -> & Hpre & Hfin).
  rewrite Forall_forall in Hpre.
  assert (Hlast : forall ty, fin = [ty] ->
                             isTerminalResponsesStreamEventType ty = true).
  { intros ty ->. exact Hfin. }
  split.
  - intros i ty Hi.
    destruct (decide (i < List.length pre)%nat) as [Hlt | Hge].
    + rewrite lookup_app_l in Hi by exact Hlt.
      apply list_elem_of_lookup_2 in Hi.
      destruct (Hpre ty Hi) as [Hnt Hne].
      split; [exact Hne | congruence].
    + rewrite lookup_app_r in Hi by lia.
      destruct fin as [| ty' [| ty'' fin]]; [discriminate Hi | | destruct Hfin].
      destruct (i - List.length pre)%nat as [| k] eqn:Hk;
        [| discriminate Hi].
      injection Hi as ->. split.
      * intros ->. vm_compute in Hfin. discriminate Hfin.
      * intros _. rewrite length_app. simpl. lia.
  - intros Hret.
    destruct fin as [| ty [| ty' fin]]; [contradiction | | destruct Hfin].
    exists ty. split; [apply last_snoc | exact Hfin].
Qed.

(** *** The streamed response *)

Lemma passing_events (ty : option string) (built : bool) :
  isTerminalResponsesStreamEventType ty = false ->
  exists events,
    streamEventsFor ty built = (events, true)
    /\ List.filter isResponseDone events = [].
Proof.
  intros Hterm. unfold streamEventsFor. rewrite Hterm.
  destruct (bool_decide (ty = Some "response.created"));
    [eexists; split; reflexivity |].
  destruct (bool_decide (ty = Some "response.output_text.delta"));
    eexists; split; reflexivity.
Qed.

Lemma terminal_events (ty : option string) :
  isTerminalResponsesStreamEventType ty = true ->
  streamEventsFor ty false = ([], false)
  /\ exists after,
       streamEventsFor ty true = (ResponseDone :: after, true)
       /\ Forall (fun e => isModelEvent e = true) after.
Proof.
  intros Hterm. unfold streamEventsFor.
  destruct (bool_decide (ty = Some "response.created")) eqn:Hc.
  { apply bool_decide_eq_true in Hc. subst ty. vm_compute in Hterm.
    discriminate Hterm. }
  rewrite Hterm. split; [reflexivity |].
  destruct (bool_decide (ty = Some "response.completed")); simpl;
    eexists; (split; [reflexivity | repeat constructor]).
Qed.

Lemma passing_prefix (pre rest : list (option string * bool)) :
  Forall passing (map fst pre) ->
  exists events,
    getStreamedResponse (pre ++ rest)
    = (events ++ (getStreamedResponse rest).1, (getStreamedResponse rest).2)
    /\ List.filter isResponseDone events = [].
Proof.
  induction pre as [| [ty built] pre IH]; simpl; intros Hpre.
  - exists []. split; [| reflexivity].
    destruct (getStreamedResponse rest); reflexivity.
  - apply Forall_cons in Hpre as [[Hty _] Hpre].
    destruct (IH Hpre) as (more & -> & Hmore).
    destruct (passing_events ty built Hty) as (events & -> & Hevents).
    exists (events ++ more). rewrite <- app_assoc.
    split; [reflexivity |].
    rewrite List.filter_app, Hevents, Hmore. reflexivity.
Qed.

(** X17: [getStreamedResponse] over the websocket transport. Of the
    events it makes from those a websocket request hands over, at most
    one is a [response_done], and nothing comes after it but the raw
    [model] events of the same wire event; when the request returned
    normally, the [response_done] is missing only if building it
    threw. *)
Theorem streamed_response_done_once (sc : script) (m : model)
    (wire : list (option string * bool)) :
  let r := iterWebSocketResponseEvents sc m in
  map fst wire = yielded (trace r.2) ->
  (List.filter isResponseDone (getStreamedResponse wire).1 = []
   /\ (r.1 = Returned -> (getStreamedResponse wire).2 = false))
  \/ exists before after,
       (getStreamedResponse wire).1 = before ++ ResponseDone :: after
       /\ List.filter isResponseDone before = []
       /\ Forall (fun e => isModelEvent e = true) after.
Proof.
  simpl. destruct (yielded_shape sc m) as (pre & fin & -> & Hpre & Hfin).
  intros Hwire. apply map_eq_app in Hwire as (wpre & wfin & -> & <- & <-).
  destruct (passing_prefix wpre wfin Hpre) as (events & -> & Hevents).
  simpl.
  destruct wfin as [| [ty built] [| w wfin]]; simpl in Hfin;
    [| | destruct Hfin].
  - left. simpl. rewrite app_nil_r. split; [exact Hevents |].
    intros Hret. contradiction.
  - destruct (terminal_events ty Hfin) as (Hthrew & after & Hev & Hafter).
    simpl. destruct built.
    + right. rewrite Hev. simpl. exists events, after.
      rewrite app_nil_r. split; [reflexivity | split; assumption].
    + left. rewrite Hthrew. simpl. rewrite app_nil_r.
      split; [exact Hevents | reflexivity].
Qed.

Lemma streamed_response_done_once_witness :
  exists before after,
    (getStreamedResponse [(Some "response.completed", true)]).1
    = before ++ ResponseDone :: after
    /\ Forall (fun e => isModelEvent e = true) after.
Proof.
  destruct (streamed_response_done_once (answered "response.completed") idle
              [(Some "response.completed", true)])
    as [[Hnone _] | (before & after & Hout & _ & Hafter)].
  - reflexivity.
  - vm_compute in Hnone. discriminate Hnone.
  - exists before, after. split; assumption.
Defined.

(** *** The cache from call to call *)

Ltac coherent_goal :=
  repeat match goal with
         | |- _ /\ _ => split
         | |- cacheCoherent _ => unfold cacheCoherent, cacheKnown; simpl
         | |- _ <-> _ => split; intros; try discriminate; try reflexivity
         | |- forall _, _ => intros
         | H : Some _ = Some _ |- _ => injection H as H; subst
         | H : None = Some _ |- _ => discriminate H
         | H : Some _ = None |- _ => discriminate H
         end;
  simpl in *; try lia; try reflexivity; try congruence.

Lemma coherent_cases (m : model) :
  cacheCoherent m ->
  (wsConnection m = None /\ wsConnectionIdentity m = None)
  \/ exists c i, wsConnection m = Some c /\ wsConnectionIdentity m = Some i
                 /\ (c < opened m)%nat.
Proof.
  intros [Hk Hc]. destruct (wsConnection m) as [c |] eqn:Hw.
  - right. destruct (wsConnectionIdentity m) as [i |] eqn:Hi.
    + exists c, i. auto.
    + destruct Hc as [_ Hc]. discriminate (Hc eq_refl).
  - left. split; [reflexivity |]. apply Hc. reflexivity.
Qed.

Lemma prelude_coherent sc s r s' :
  requestPrelude sc s = (r, s') ->
  cacheCoherent (this s) ->
  cacheCoherent (this s') /\ (opened (this s) <= opened (this s'))%nat.
Proof.
  destruct s as [[ru wc wi lk op] v tr]. intros H Hco.
  apply coherent_cases in Hco
    as [[Hw Hi] | (c & i & Hw & Hi & Hlt)]; simpl in *; subst wc wi;
    revert H; unfold_steps; simpl; intros H;
    crunch; coherent_goal.
Qed.

Lemma finally_coherent (s : st) :
  cacheCoherent (this s) ->
  cacheCoherent (this (finallyClause s))
  /\ opened (this (finallyClause s)) = opened (this s).
Proof.
  destruct s as [[ru wc wi lk op] [tk rl rc sw] tr]. intros Hco.
  apply coherent_cases in Hco
    as [[Hw Hi] | (c & i & Hw & Hi & Hlt)]; simpl in *; subst wc wi;
    unfold finallyClause, releaseLock; unfold_steps; simpl;
    crunch; coherent_goal.
Qed.

Lemma call_coherent (sc : script) (m : model) :
  cacheCoherent m ->
  cacheCoherent (this (iterWebSocketResponseEvents sc m).2)
  /\ (opened m <= opened (this (iterWebSocketResponseEvents sc m).2))%nat.
Proof.
  intros Hco. unfold iterWebSocketResponseEvents.
  destruct (acquireWebSocketRequestLock sc (begin m)) as [ra s1] eqn:Hacq.
  assert (Hs1 : cacheCoherent (this s1) /\ opened (this s1) = opened m).
  { revert Hacq.
    unfold acquireWebSocketRequestLock, releaseLock, begin. unfold_steps.
    destruct m as [ru wc wi lk op]. simpl. intros H.
    destruct Hco as [Hk Hc]. unfold cacheKnown in Hk. simpl in *.
    crunch; (split; [split; [intros c0 Hc0; apply Hk; exact Hc0 | exact Hc]
                    | reflexivity]). }
  destruct Hs1 as [Hco1 Hop1].
  destruct ra as [[] | e | |]; simpl; try (split; [exact Hco1 | lia]).
  unfold requestBody, mbind, M_bind.
  destruct (requestPrelude sc s1) as [rp s2] eqn:Hpre.
  destruct (prelude_coherent _ _ _ _ Hpre Hco1) as [Hco2 Hop2].
  assert (Hfin : cacheCoherent (this (finallyClause s2))
                 /\ (opened m <= opened (this (finallyClause s2)))%nat).
  { destruct (finally_coherent s2 Hco2) as [H1 H2]. split; [exact H1 | lia]. }
  destruct rp as [[c reused] | e | |]; simpl;
    try exact Hfin; try (split; [exact Hco2 | lia]).
  match goal with
  | |- context [readLoop ?a ?b ?c] =>
      destruct (readLoop a b c) as [rl s3] eqn:Hloop
  end.
  apply readLoop_spec in Hloop as (ys & rc & ->).
  assert (Hco3 : forall v t, cacheCoherent (this (mkSt (this s2) v t))) by
    (intros; exact Hco2).
  destruct rl as [[] | e | |]; simpl;
    try (split; [exact Hco2 | lia]);
    match goal with
    | |- context [finallyClause ?s] =>
        destruct (finally_coherent s (Hco3 _ _)) as [H1 H2];
        split; [exact H1 | simpl in H2; lia]
    end.
Qed.

(** X18: the cache stays coherent from call to call. If, before a
    websocket request, the cached connection and its identity are both
    set or both unset and the cached connection is one that was opened,
    the same holds after the request, however it ends or wherever it is
    left pending, and connection numbers are never reused; so it holds
    after any sequence of requests. *)
Theorem cache_coherent_across_requests (scs : list script) (m : model) :
  cacheCoherent m ->
  cacheCoherent (requests scs m).2
  /\ (opened m <= opened (requests scs m).2)%nat.
Proof.
  revert m. induction scs as [| sc scs IH]; intros m Hco; simpl.
  - split; [exact Hco | lia].
  - destruct (call_coherent sc m Hco) as [Hco1 Hop1].
    specialize (IH _ Hco1).
    destruct (requests scs (this (iterWebSocketResponseEvents sc m).2))
      as [rs m'].
    simpl in *. destruct IH as [Hco2 Hop2]. split; [exact Hco2 | lia].
Qed.

Lemma cache_coherent_across_requests_witness :
  cacheCoherent
    (requests [answered "response.completed"; closedEarly; staleTwice] idle).2.
Proof.
  apply (cache_coherent_across_requests
           [answered "response.completed"; closedEarly; staleTwice] idle).
  split; [intros c Hc; discriminate Hc | split; reflexivity].
Defined.

(** *** The request chain *)

(** X19: the request chain after any sequence of requests. When each of
    the requests settles, the chain holds one more lock for each request
    that took a place in it, and each of those is resolved: a chain with
    no unresolved lock has none afterwards, so the next request is not
    kept waiting by an earlier one. *)
Theorem chain_resolved_across_requests (scs : list script) (m : model) :
  Forall (fun r => r.1 <> Pending) (requests scs m).1 ->
  wsRequestLock (requests scs m).2
  = wsRequestLock m
    ++ replicate (List.length (List.filter enqueues scs)) true.
Proof.
  revert m. induction scs as [| sc scs IH]; intros m Hall; simpl.
  - rewrite app_nil_r. reflexivity.
  - simpl in Hall.
    pose proof (settled_lock_cases sc m) as Hcall. simpl in Hcall.
    specialize (IH (this (iterWebSocketResponseEvents sc m).2)).
    destruct (requests scs (this (iterWebSocketResponseEvents sc m).2))
      as [rs m'].
    simpl in *. apply Forall_cons in Hall as [Hsettled Hrest].
    specialize (Hcall Hsettled). rewrite (IH Hrest).
    unfold enqueues.
    destruct (abortedOnEntry sc || queueBudgetSpent sc); simpl.
    + destruct Hcall as (_ & _ & ->). reflexivity.
    + destruct Hcall as (_ & _ & -> & _). rewrite <- app_assoc. reflexivity.
Qed.

Lemma chain_resolved_across_requests_witness :
  wsRequestLock
    (requests [answered "response.completed"; queueTimeout; closedEarly] idle).2
  = [true; true; true].
Proof.
  apply (chain_resolved_across_requests
           [answered "response.completed"; queueTimeout; closedEarly] idle).
  repeat constructor; discriminate.
Defined.

(** *** Aborts and stale connections *)

Lemma prelude_aborted sc s r s' :
  abortedBeforeSend sc = true ->
  requestPrelude sc s = (r, s') ->
  (exists e, r = Exc e)
  /\ exists t, trace s' = trace s ++ t /\ count isSend t = 0%nat.
Proof.
  unfold abortedBeforeSend. destruct s as [[ru wc wi lk op] v tr].
  unfold_steps. simpl. intros Hab H.
  crunch; (split; [eauto |]); rewrite <- ?app_assoc;
    first [ exists []; split; [symmetry; apply app_nil_r | reflexivity]
          | eexists; split; [reflexivity | reflexivity] ].
Qed.

(** X20: an abort seen before the send keeps the request off the wire.
    If the signal reads aborted at one of the checks that precede the
    send (before or after the handshake is prepared, or after the
    connection is ensured), no frame is sent on any connection and no
    event reaches the consumer: the request is rejected, or still
    waiting for its turn. *)
Theorem abort_before_send_sends_nothing (sc : script) (m : model) :
  abortedBeforeSend sc = true ->
  let r := iterWebSocketResponseEvents sc m in
  count isSend (trace r.2) = 0%nat
  /\ yielded (trace r.2) = []
  /\ ((exists e, r.1 = Rejected e) \/ r.1 = Pending).
Proof.
  intros Hab. simpl. unfold iterWebSocketResponseEvents.
  destruct (acquireWebSocketRequestLock sc (begin m)) as [ra s1] eqn:Hacq.
  apply acquire_cases in Hacq
    as [(-> & _ & ->) | [(e & -> & -> & _)
                        | [(e & -> & _ & _ & ->) | [-> Htr]]]]; simpl;
    try (repeat split; eauto; fail).
  - unfold requestBody, mbind, M_bind.
    destruct (requestPrelude sc _) as [rp s2] eqn:Hpre.
    destruct (prelude_aborted _ _ _ _ Hab Hpre) as ([e ->] & t & Ht & Hs).
    simpl in Ht |- *.
    rewrite finally_counts, finally_yielded by reflexivity.
    pose proof (prelude_frame _ _ _ _ Hpre)
      as (_ & _ & _ & _ & _ & t' & Ht' & _ & _ & Hy).
    simpl in Ht'. rewrite Ht in Ht'. injection Ht' as <-.
    rewrite Ht. change (AEnqueue :: t) with ([AEnqueue] ++ t).
    rewrite count_app, yielded_app, Hs, Hy. repeat split; eauto.
  - rewrite Htr. repeat split; eauto.
Qed.

Lemma abort_before_send_sends_nothing_witness :
  count isSend (trace (iterWebSocketResponseEvents abortedMidway warm).2)
  = 0%nat.
Proof.
  apply (abort_before_send_sends_nothing abortedMidway warm).
  reflexivity.
Defined.

Lemma prelude_stale sc ru c wi lk op v identity r s' :
  (c < op)%nat ->
  abortedBeforePrepare sc = false ->
  prepare sc = Ok identity ->
  abortedAfterPrepare sc = false ->
  wi <> Some identity \/ cachedReusable sc = false ->
  requestPrelude sc (mkSt (mkModel ru (Some c) wi lk op) v [AEnqueue])
  = (r, s') ->
  wsConnection (this s') <> Some c
  /\ exists t, trace s' = [AEnqueue; AClose c] ++ t
               /\ count (isSendOn c) t = 0%nat.
Proof.
  intros Hlt Hab1 Hprep Hab2 Hstale. unfold_steps. simpl.
  rewrite Hab1, Hprep, Hab2. simpl. intros H.
  assert (Hne : forall x, (c < x)%nat -> Nat.eqb c x = false)
    by (intros x Hx; apply Nat.eqb_neq; lia).
  destruct wi as [i |]; simpl in H.
  - destruct (nonEmpty i && String.eqb i identity && cachedReusable sc)
      eqn:Hreuse; simpl in H.
    { exfalso. apply andb_true_iff in Hreuse as [Hreuse Hcr].
      apply andb_true_iff in Hreuse as [_ Heq].
      apply String.eqb_eq in Heq. subst i.
      destruct Hstale as [Hs | Hs]; congruence. }
    crunch; (split; [first [discriminate | intros [= Heq]; lia] |]);
      eexists; (split; [reflexivity |]); count_simpl;
      rewrite ?Nat.eqb_refl, ?Hne by lia; reflexivity.
  - crunch; (split; [first [discriminate | intros [= Heq]; lia] |]);
      eexists; (split; [reflexivity |]); count_simpl;
      rewrite ?Nat.eqb_refl, ?Hne by lia; reflexivity.
Qed.

Lemma finally_extends (s : st) :
  exists extra, trace (finallyClause s) = trace s ++ extra.
Proof.
  unfold finallyClause, releaseLock. unfold_steps.
  destruct s as [[ru wc wi lk op] [tk rl rc sw] tr]. simpl.
  crunch; rewrite <- ?app_assoc; eexists;
    first [reflexivity | symmetry; apply app_nil_r].
Qed.

Lemma finally_cache (s : st) (c : nat) :
  wsConnection (this s) <> Some c ->
  wsConnection (this (finallyClause s)) <> Some c.
Proof.
  unfold finallyClause, releaseLock. unfold_steps.
  destruct s as [[ru wc wi lk op] [tk rl rc sw] tr]. simpl.
  intros Hne. crunch; congruence.
Qed.

(** X21: a cached connection that cannot serve the request is closed and
    never written to. When the handshake is prepared and the cached
    connection was opened for another identity, or reports that it is
    not reusable, it is closed before anything is sent, no frame of the
    request goes out on it, and it is not the cached connection
    afterwards. *)
Theorem stale_connection_closed_unused
    (sc : script) (m : model) (c : nat) (identity : string) (s1 : st) :
  cacheKnown m ->
  wsConnection m = Some c ->
  acquireWebSocketRequestLock sc (begin m) = (Val tt, s1) ->
  abortedBeforePrepare sc = false ->
  prepare sc = Ok identity ->
  abortedAfterPrepare sc = false ->
  wsConnectionIdentity m <> Some identity \/ cachedReusable sc = false ->
  let r := iterWebSocketResponseEvents sc m in
  In (AClose c) (trace r.2)
  /\ count (isSendOn c) (trace r.2) = 0%nat
  /\ wsConnection (this r.2) <> Some c.
Proof.
  intros Hk Hc Hacq Hab1 Hprep Hab2 Hstale. simpl.
  unfold iterWebSocketResponseEvents. rewrite Hacq.
  apply acquire_cases in Hacq
    as [(_ & _ & ->) | [(e & [=] & _) | [(e & [=] & _) | [[=] _]]]].
  destruct m as [ru wc wi lk op]. simpl in *. subst wc.
  assert (Hlt : (c < op)%nat) by (apply (Hk c); reflexivity).
  unfold requestBody, mbind, M_bind.
  destruct (requestPrelude sc _) as [rp s2] eqn:Hpre.
  destruct (prelude_stale _ _ _ _ _ _ _ _ _ _ Hlt Hab1 Hprep Hab2 Hstale Hpre)
    as (Hcache & t & Ht & Hsend).
  assert (Hfin : forall s3 ys rc,
             s3 = mkSt (this s2) rc (trace s2 ++ map AYield ys) ->
             In (AClose c) (trace (finallyClause s3))
             /\ count (isSendOn c) (trace (finallyClause s3)) = 0%nat
             /\ wsConnection (this (finallyClause s3)) <> Some c).
  { intros s3 ys rc ->. split; [| split].
    - destruct (finally_extends (mkSt (this s2) rc
                                   (trace s2 ++ map AYield ys)))
        as [extra ->].
      simpl. rewrite Ht. apply in_app_iff. left. apply in_app_iff. left.
      simpl. auto.
    - rewrite finally_counts by reflexivity. simpl. rewrite Ht.
      count_simpl. rewrite Hsend. reflexivity.
    - apply finally_cache. exact Hcache. }
  assert (Hmid : forall ys,
             In (AClose c) (trace s2 ++ map AYield ys)
             /\ count (isSendOn c) (trace s2 ++ map AYield ys) = 0%nat).
  { intros ys. rewrite Ht. split.
    - apply in_app_iff. left. simpl. auto.
    - count_simpl. rewrite Hsend. reflexivity. }
  destruct rp as [[c' reused] | e | |]; simpl.
  - match goal with
    | |- context [readLoop ?a ?b ?c] =>
        destruct (readLoop a b c) as [rl s3] eqn:Hloop
    end.
    apply readLoop_spec in Hloop as (ys & rc & ->).
    destruct rl as [[] | e | |]; simpl;
      try (eapply Hfin; reflexivity).
    destruct (Hmid ys) as [H1 H2].
    split; [exact H1 | split; [exact H2 | exact Hcache]].
  - apply (Hfin _ [] (vars s2)). destruct s2; simpl.
    rewrite app_nil_r. reflexivity.
  - apply (Hfin _ [] (vars s2)). destruct s2; simpl.
    rewrite app_nil_r. reflexivity.
  - destruct (Hmid []) as [H1 H2]. simpl in H1, H2.
    rewrite app_nil_r in H1, H2.
    split; [exact H1 | split; [exact H2 | exact Hcache]].
Qed.

Lemma stale_connection_closed_unused_witness :
  let sc :=
    mkScript "600000" false false WaitDone false false (Ok "other") false true
      (Ok tt) false (Ok tt) false (Ok tt) false (Ok tt)
      [ReadFrame (Ok (mkPayload (Some "response.completed") "{}")) Next] in
  In (AClose 0%nat) (trace (iterWebSocketResponseEvents sc warm).2)
  /\ count (isSendOn 0%nat) (trace (iterWebSocketResponseEvents sc warm).2)
     = 0%nat
  /\ wsConnection (this (iterWebSocketResponseEvents sc warm).2)
     <> Some 0%nat.
Proof.
  simpl.
  eapply (stale_connection_closed_unused _ warm 0%nat "other").
  - intros c [= <-]. simpl. lia.
  - reflexivity.
  - reflexivity.
  - reflexivity.
  - reflexivity.
  - reflexivity.
  - left. discriminate.
Defined.

End WSModelOpsFacts.
